(** * Route optimizer (backend/src/utils/routeOptimizer.ts)

    A shallow embedding of the nearest-neighbour route optimizer and of its
    helpers, over IEEE 754 binary64 numbers (Rocq's primitive floats, which
    are the numbers of JavaScript), of the handler that calls it
    (backend/src/controllers/routeController.ts), and the properties the
    specification states about them.

    Layout: the model of JavaScript numbers, a reference implementation of
    the three transcendental [Math] functions the code calls, the embedding
    of the source files, and then the lemmas and theorems. *)

From Stdlib Require Import ZArith Floats Lia.
From stdpp Require Import gmap strings list.

Local Open Scope float_scope.

(* ================================================================== *)
(** * JavaScript numbers *)
(* ================================================================== *)

(** [Math.PI], the binary64 number nearest to pi. *)
Definition Math_PI : float := 0x1.921fb54442d18p+1.

(** [Math.sqrt] is the correctly rounded IEEE square root. *)
Definition Math_sqrt (x : float) : float := sqrt x.

(** The JavaScript number of a mathematical integer (round to nearest,
    ties to even); [szero] is the sign given to a zero result. *)
Definition Number_of_Z (z : Z) (szero : bool) : float :=
  SF2Prim (binary_normalize prec emax z 0 szero).

(** The number of an array length or index. *)
Definition Number_of_nat (n : nat) : float := Number_of_Z (Z.of_nat n) false.

(** [Math.round x]: NaN, the infinities and the zeros are returned as they
    are; a finite [x = (-1)^s * m * 2^e] becomes the integer
    [floor (x + 1/2)] (ties go towards +Infinity), and a negative [x] that
    rounds to zero gives [-0].  With [e >= 0] the number is an integer
    already. *)
Definition Math_round (x : float) : float :=
  match Prim2SF x with
  | S754_finite s m e =>
      if (0 <=? e)%Z then x
      else
        let k := (2 ^ (- e))%Z in
        Number_of_Z ((2 * cond_Zopp s (Z.pos m) + k) / (2 * k))%Z s
  | _ => x
  end.

(** [Number.isFinite]: neither NaN nor an infinity. *)
Definition Number_isFinite (x : float) : bool :=
  match Prim2SF x with
  | S754_zero _ | S754_finite _ _ _ => true
  | S754_infinity _ | S754_nan => false
  end.

(** The sign bit of a number (false for NaN). *)
Definition signbit (x : float) : bool :=
  match Prim2SF x with
  | S754_zero s | S754_infinity s | S754_finite s _ _ => s
  | S754_nan => false
  end.

(** An integer: a zero, or a finite number with no fractional bits. *)
Definition SF_integer (x : spec_float) : bool :=
  match x with
  | S754_zero _ => true
  | S754_finite _ m e => (0 <=? e)%Z || (Z.pos m mod 2 ^ (- e) =? 0)%Z
  | S754_infinity _ | S754_nan => false
  end.

(** [Number.isInteger] *)
Definition Number_isInteger (x : float) : bool := SF_integer (Prim2SF x).

(** [0 <= x]: a zero, a positive number or [+Infinity]. *)
Definition SF_nonneg (x : spec_float) : bool :=
  match x with
  | S754_zero _ | S754_infinity false | S754_finite false _ _ => true
  | _ => false
  end.

(** Not [x < 0]: as above, or NaN. *)
Definition SF_not_negative (x : spec_float) : bool :=
  match x with
  | S754_infinity true | S754_finite true _ _ => false
  | _ => true
  end.

(** A number that is not NaN and carries the sign [s]. *)
Definition SF_signed (s : bool) (x : spec_float) : bool :=
  match x with
  | S754_zero s' | S754_infinity s' | S754_finite s' _ _ => Bool.eqb s s'
  | S754_nan => false
  end.

(** A positive finite constant. *)
Definition positive_constant (c : float) : Prop :=
  exists m e, Prim2SF c = S754_finite false m e.

(** [x] is a zero or a positive number, and at most the integer [z].
    Every binary64 number is a multiple of [2^-1074]. *)
Definition SF_at_most (x : spec_float) (z : Z) : Prop :=
  match x with
  | S754_zero _ => (0 <= z)%Z
  | S754_finite false m e =>
      (-1074 <= e)%Z /\ (Z.pos m * 2 ^ (e + 1074) <= z * 2 ^ 1074)%Z
  | _ => False
  end.

(** What is known of a number that is being rounded, against a bound [B]
    (both on the scale [2^-E]): it is the mantissa [shr_m] when the
    record is exact, and lies strictly between [shr_m] and [shr_m + 1]
    otherwise. *)
Definition shr_under (mrs : shr_record) (E B : Z) : Prop :=
  if shr_r mrs || shr_s mrs then (shr_m mrs * 2 ^ E < B)%Z
  else (shr_m mrs * 2 ^ E <= B)%Z.

(** [Number.MAX_VALUE] *)
Definition Number_MAX_VALUE : float := 0x1.fffffffffffffp+1023.

(** ** What is assumed of the host's [Math] functions

    ECMAScript fixes the results of [Math.sin] and [Math.atan2] at NaN and
    at the infinities; the symmetry of the sine and the sign and range of
    the arc tangent hold of the implementations in use (fdlibm and its
    ports). *)

(** The sine of [-x] is the negation of the sine of [x]. *)
Definition sine_is_odd (sin : float -> float) : Prop :=
  forall x, sin (- x) = - sin x.

(** [atan2 y x] is not negative when neither [y] nor [x] is, the pair
    [(-0, -0)] apart (where ECMAScript asks for [-pi]). *)
Definition arctangent_sign (atan2 : float -> float -> float) : Prop :=
  forall y x,
    (y <? 0) = false -> (x <? 0) = false -> ~ (y = neg_zero /\ x = neg_zero) ->
    (atan2 y x <? 0) = false.

(** [Math.atan2] gives no angle above [Math.PI] (it may give NaN). *)
Definition arctangent_at_most_pi (atan2 : float -> float -> float) : Prop :=
  forall y x, (Math_PI <? atan2 y x) = false.

(** The integer bound on a distance between two stops that follows from
    it: [6371 * (2 * 4)] kilometres. *)
Definition hop_bound : Z := 50968.

(** NaN for the sine of an infinity and for the arc tangent of NaN. *)
Definition ecma_special_values (sin : float -> float)
    (atan2 : float -> float -> float) : Prop :=
  sin infinity = nan /\ sin neg_infinity = nan /\ forall x, atan2 nan x = nan.

(** The sum of a list of numbers, added from the left starting at [0], the
    way a JavaScript accumulator loop adds them. *)
Definition sum_left (ds : list float) : float := foldl add 0 ds.

(** Rounding to two decimal places as the source writes it:
    [Math.round(x * 100) / 100]. *)
Definition round2 (x : float) : float := Math_round (x * 100) / 100.

(** The values of [d] on the consecutive pairs of a list: the hops of a
    route. *)
Fixpoint hops {A : Type} (d : A -> A -> float) (l : list A) : list float :=
  match l with
  | a :: (b :: _) as t => d a b :: hops d t
  | _ => []
  end.

(** [b] is [a] or its negation. *)
Definition flipped (a b : float) : Prop := b = a \/ b = - a.

(* ================================================================== *)
(** * A reference [Math] library

    ECMAScript leaves [Math.sin], [Math.cos] and [Math.atan2]
    implementation-approximated, so the embedding below takes them as
    parameters.  This module gives one executable instance (Taylor
    polynomials, with argument halving for the arc tangent; accurate for
    the small angles between the stops of a delivery round), used to run
    the model on concrete inputs. *)
(* ================================================================== *)

Module RefMath.

Definition sin_poly (z : float) : float :=
  1 - z / 6 * (1 - z / 20 * (1 - z / 42 * (1 - z / 72 * (1 - z / 110)))).

Definition cos_poly (z : float) : float :=
  1 - z / 2 * (1 - z / 12 * (1 - z / 30 * (1 - z / 56 * (1 - z / 90)))).

Definition sin (x : float) : float :=
  if Number_isFinite x then x * sin_poly (x * x) else nan.

Definition cos (x : float) : float :=
  if Number_isFinite x then cos_poly (x * x) else nan.

Definition atan_poly (z : float) : float :=
  1 - z * (1 / 3 - z * (1 / 5 - z * (1 / 7 - z * (1 / 9 - z * (1 / 11 - z * (1 / 13 - z / 15)))))).

(** atan t = 2 atan (t / (1 + sqrt (1 + t^2))) *)
Definition halve (t : float) : float := t / (1 + sqrt (1 + t * t)).

(** Arc tangent on [0, 1]. *)
Definition atan_unit (t : float) : float :=
  let u := halve (halve t) in 4 * (u * atan_poly (u * u)).

(** Arc tangent on [0, +Infinity]. *)
Definition atan_nonneg (t : float) : float :=
  if t <=? 1 then atan_unit t else Math_PI / 2 - atan_unit (1 / t).

Definition clamp0 (r : float) : float := if r <? 0 then 0 else r.

(** [atan2] of a non-negative ordinate [ay]: an angle in [0, pi]. *)
Definition atan2_abs (ay x : float) : float :=
  clamp0
    (if 0 <? x then atan_nonneg (ay / x)
     else if x <? 0 then Math_PI - atan_nonneg (ay / - x)
     else if is_zero ay then (if signbit x then Math_PI else 0)
     else Math_PI / 2).

Definition atan2 (y x : float) : float :=
  if is_nan y || is_nan x then nan
  else
    let r := atan2_abs (abs y) x in
    if signbit y then - r else r.

End RefMath.

(** The reference arc tangent, cut off at [Math.PI]. *)
Definition capped_atan2 (y x : float) : float :=
  let r := RefMath.atan2 y x in if Math_PI <? r then Math_PI else r.

(* ================================================================== *)
(** * The source file *)
(* ================================================================== *)

(** [interface Location] *)
Record Location := {
  id : string;
  orderNumber : string;
  address : string;
  latitude : float;
  longitude : float
}.

(** [interface OptimizedRoute] *)
Record OptimizedRoute := {
  sequence : list string;
  totalDistance : float;
  estimatedDuration : float;
  algorithm : string
}.

(** The variables of the greedy loop of [optimizeRouteNearestNeighbor]:
    [visited], [sequence], [currentIndex] and [totalDistance]. *)
Record LoopState := {
  st_visited : gset nat;
  st_sequence : list nat;
  st_currentIndex : nat;
  st_totalDistance : float
}.

Section RouteOptimizer.

(** The host's [Math.sin], [Math.cos] and [Math.atan2]. *)
Variables (Math_sin Math_cos : float -> float).
Variable Math_atan2 : float -> float -> float.

Definition toRadians (degrees : float) : float :=
  degrees * (Math_PI / 180).

Definition calculateDistance (lat1 lon1 lat2 lon2 : float) : float :=
  let R := 6371 in
  let dLat := toRadians (lat2 - lat1) in
  let dLon := toRadians (lon2 - lon1) in
  let a :=
    Math_sin (dLat / 2) * Math_sin (dLat / 2) +
    Math_cos (toRadians lat1) *
      Math_cos (toRadians lat2) *
      Math_sin (dLon / 2) *
      Math_sin (dLon / 2) in
  let c := 2 * Math_atan2 (Math_sqrt a) (Math_sqrt (1 - a)) in
  R * c.

(** The distance between two locations. *)
Definition distanceBetween (l1 l2 : Location) : float :=
  calculateDistance (latitude l1) (longitude l1) (latitude l2) (longitude l2).

(** The two nested [for] loops assign every entry [(i, j)] of the
    [n]-by-[n] array once. *)
Definition calculateDistanceMatrix (locations : list Location) : list (list float) :=
  imap (fun i li =>
    imap (fun j lj =>
      if decide (i = j) then 0 else distanceBetween li lj) locations) locations.

(** [distanceMatrix[i][j]].  A missing column reads [undefined] in
    JavaScript, which compares and adds like NaN; the row [i] is always
    present where the source reads it. *)
Definition matrix_get (distanceMatrix : list (list float)) (i j : nat) : float :=
  default nan (distanceMatrix !! i ≫= (.!! j)).

Definition calculateEstimatedDuration (totalDistance numStops : float) : float :=
  let AVG_SPEED_KMH := 40 in
  let SERVICE_TIME_MIN := 5 in
  let travelTime := (totalDistance / AVG_SPEED_KMH) * 60 in
  let serviceTime := numStops * SERVICE_TIME_MIN in
  Math_round (travelTime + serviceTime).

(** One turn of the inner [for] loop: [best] is the pair
    [(nearestIndex, nearestDistance)], with [None] for the index [-1]. *)
Definition scan_step (distanceMatrix : list (list float)) (visited : gset nat)
    (currentIndex : nat) (best : option nat * float) (i : nat) : option nat * float :=
  if decide (i ∈ visited) then best
  else
    let distance := matrix_get distanceMatrix currentIndex i in
    if distance <? best.2 then (Some i, distance) else best.

(** The inner [for (let i = 0; i < n; i++)] loop. *)
Definition findNearest (distanceMatrix : list (list float)) (n : nat)
    (visited : gset nat) (currentIndex : nat) : option nat * float :=
  foldl (scan_step distanceMatrix visited currentIndex) (None, infinity) (seq 0 n).

(** The body of the [while] loop. *)
Definition loop_body (distanceMatrix : list (list float)) (n : nat)
    (st : LoopState) : LoopState :=
  match findNearest distanceMatrix n (st_visited st) (st_currentIndex st) with
  | (Some nearestIndex, nearestDistance) =>
      {| st_visited := st_visited st ∪ {[ nearestIndex ]};
         st_sequence := st_sequence st ++ [nearestIndex];
         st_currentIndex := nearestIndex;
         st_totalDistance := st_totalDistance st + nearestDistance |}
  | (None, _) => st
  end.

(** [while (visited.size < n) { ... }], with a bound on the number of
    iterations; [None] when the bound is reached with the guard still
    true. *)
Fixpoint while_loop (distanceMatrix : list (list float)) (n : nat)
    (fuel : nat) (st : LoopState) : option LoopState :=
  if decide (size (st_visited st) < n)%nat then
    match fuel with
    | O => None
    | S fuel' => while_loop distanceMatrix n fuel' (loop_body distanceMatrix n st)
    end
  else Some st.

(** The state before the [while] loop: the first location is visited. *)
Definition initial_state : LoopState :=
  {| st_visited := {[ 0%nat ]};
     st_sequence := [0%nat];
     st_currentIndex := 0%nat;
     st_totalDistance := 0 |}.

(** [sequence.map((index) => locations[index].id)]; reading [.id] of a
    missing location throws, which is [None] here. *)
Definition ids_of (locations : list Location) (sequence : list nat) : option (list string) :=
  mapM (fun index => id <$> locations !! index) sequence.

(** [optimizeRouteNearestNeighbor]: [None] when the function has not
    returned within [fuel] iterations of its [while] loop. The calls to
    [console.log] are left out. *)
Definition optimizeRouteNearestNeighbor (fuel : nat) (locations : list Location)
    : option OptimizedRoute :=
  match locations with
  | [] =>
      Some {| sequence := [];
              totalDistance := 0;
              estimatedDuration := 0;
              algorithm := "nearest_neighbor" |}
  | [l0] =>
      Some {| sequence := [id l0];
              totalDistance := 0;
              estimatedDuration := 10;
              algorithm := "nearest_neighbor" |}
  | _ =>
      let distanceMatrix := calculateDistanceMatrix locations in
      let n := length locations in
      st ← while_loop distanceMatrix n fuel initial_state;
      optimizedSequence ← ids_of locations (st_sequence st);
      let estimatedDuration :=
        calculateEstimatedDuration (st_totalDistance st) (Number_of_nat n) in
      Some {| sequence := optimizedSequence;
              totalDistance := Math_round (st_totalDistance st * 100) / 100;
              estimatedDuration := estimatedDuration;
              algorithm := "nearest_neighbor" |}
  end.

(** [new Map(locations.map((loc) => [loc.id, loc]))]: a later entry
    replaces an earlier one with the same key. *)
Definition locationMap (locations : list Location) : gmap string Location :=
  foldl (fun m loc => <[id loc := loc]> m) ∅ locations.

(** One turn of the [for] loop of [calculateRouteDistance]. *)
Definition route_step (locations : list Location) (sequence : list string)
    (totalDistance : float) (i : nat) : float :=
  let loc1 := sequence !! i ≫= (locationMap locations !!.) in
  let loc2 := sequence !! (i + 1)%nat ≫= (locationMap locations !!.) in
  match loc1, loc2 with
  | Some loc1, Some loc2 => totalDistance + distanceBetween loc1 loc2
  | _, _ => totalDistance
  end.

Definition calculateRouteDistance (locations : list Location)
    (sequence : list string) : float :=
  if decide (length sequence <= 1)%nat then 0
  else
    let totalDistance :=
      foldl (route_step locations sequence) 0 (seq 0 (length sequence - 1)) in
    Math_round (totalDistance * 100) / 100.

(** ** Vocabulary of the properties *)

(** What the inner loop has established after looking at the indices
    below [m]: either no candidate was below [Infinity], or [best] is the
    first of the nearest unvisited indices seen so far. *)
Definition scanned (distanceMatrix : list (list float)) (visited : gset nat)
    (currentIndex m : nat) (best : option nat * float) : Prop :=
  let d := matrix_get distanceMatrix currentIndex in
  match best with
  | (None, dd) =>
      dd = infinity /\
      forall i, (i < m)%nat -> i ∉ visited -> (d i <? infinity) = false
  | (Some j, dd) =>
      (j < m)%nat /\ (j ∉ visited) /\ dd = d j /\ (dd <? infinity) = true /\
      (forall i, (i < j)%nat -> i ∉ visited -> (d i <=? dd) = false) /\
      (forall i, (j < i < m)%nat -> i ∉ visited -> (d i <? dd) = false)
  end.

(** Every distance between two different stops is a number below
    [Infinity] (so it is not NaN). *)
Definition distances_below_infinity (locations : list Location) : Prop :=
  forall i j li lj,
    locations !! i = Some li -> locations !! j = Some lj -> i <> j ->
    (distanceBetween li lj <? infinity) = true.

(** The invariant of the [while] loop. *)
Record loop_inv (locations : list Location) (st : LoopState) : Prop := {
  inv_visited : st_visited st = list_to_set (st_sequence st);
  inv_nodup : NoDup (st_sequence st);
  inv_bound : forall i, i ∈ st_sequence st -> (i < length locations)%nat;
  inv_head : head (st_sequence st) = Some 0%nat;
  inv_last : last (st_sequence st) = Some (st_currentIndex st);
  inv_total :
    st_totalDistance st =
    sum_left (hops (matrix_get (calculateDistanceMatrix locations)) (st_sequence st))
}.

(** The stops at the positions [idxs], in that order. *)
Definition stops_at (locations : list Location) (idxs : list nat) : list Location :=
  omap (locations !!.) idxs.

(** The record the function builds from the final state of its loop. *)
Definition result_of (locations : list Location) (st : LoopState) : OptimizedRoute :=
  {| sequence := id <$> stops_at locations (st_sequence st);
     totalDistance := round2 (st_totalDistance st);
     estimatedDuration :=
       calculateEstimatedDuration (st_totalDistance st)
         (Number_of_nat (length locations));
     algorithm := "nearest_neighbor" |}.

(** The location that an identifier matches: the last one of the list
    that carries it, if any. *)
Fixpoint find_stop (locations : list Location) (k : string) : option Location :=
  match locations with
  | [] => None
  | l :: rest =>
      match find_stop rest k with
      | Some l' => Some l'
      | None => if decide (id l = k) then Some l else None
      end
  end.

(** The hops of a route given by identifiers, as [calculateRouteDistance]
    counts them: a pair with an identifier that [lookup] does not know is
    left out. *)
Fixpoint matched_hops (lookup : string -> option Location) (sequence : list string)
    : list float :=
  match sequence with
  | a :: (b :: _) as t =>
      match lookup a, lookup b with
      | Some loc1, Some loc2 => distanceBetween loc1 loc2 :: matched_hops lookup t
      | _, _ => matched_hops lookup t
      end
  | _ => []
  end.

End RouteOptimizer.

(** ** Inputs used below *)

Definition stop (i : string) (lat lon : float) : Location :=
  {| id := i; orderNumber := i; address := ""; latitude := lat; longitude := lon |}.

(** Four stops on the corners of a one-degree square, and a second stop
    at the coordinates of the third. *)
Definition square_round : list Location :=
  [stop "a" 0 0; stop "b" 0 1; stop "c" 1 1; stop "d" 1 0; stop "e" 1 1].

(** A stop with two others at the same distance, east and west of it. *)
Definition tied_round : list Location :=
  [stop "depot" 0 0; stop "far" 0 2; stop "east" 0 1; stop "west" 0 (-1)].

(** Two stops with finite latitudes whose difference overflows. *)
Definition overflow_round : list Location :=
  [stop "n" 0x1p1023 0; stop "s" (-0x1p1023) 0].

(** ** The functions on the reference library *)

Module Run.

Definition optimize := optimizeRouteNearestNeighbor RefMath.sin RefMath.cos RefMath.atan2.
Definition distance := calculateDistance RefMath.sin RefMath.cos RefMath.atan2.
Definition dist := distanceBetween RefMath.sin RefMath.cos RefMath.atan2.
Definition matrix_of := calculateDistanceMatrix RefMath.sin RefMath.cos RefMath.atan2.
Definition route_distance := calculateRouteDistance RefMath.sin RefMath.cos RefMath.atan2.
Definition well_formed := distances_below_infinity RefMath.sin RefMath.cos RefMath.atan2.

End Run.

(** The distance from the first stop of [tied_round] to the nearest of
    the others. *)
Definition tied_nearest_distance : float :=
  Eval vm_compute in (findNearest (Run.matrix_of tied_round) 4 {[ 0%nat ]} 0).2.

(* ================================================================== *)
(** * The order the optimizer returns *)
(* ================================================================== *)

(** The positions [sequence] form a greedy chain for the distances [d]
    over [n] stops: every hop is below [Infinity], and no stop that is
    not among those visited up to the hop is nearer than its target. *)
Definition nearest_chain (d : nat -> nat -> float) (n : nat) (sequence : list nat) : Prop :=
  forall p a b, sequence !! p = Some a -> sequence !! S p = Some b ->
    (d a b <? infinity) = true /\
    forall i, (i < n)%nat -> i ∉ take (S p) sequence -> (d a i <? d a b) = false.

(** The same of a list of stops: every hop of [path] is below [Infinity]
    and goes to a nearest of the stops that come later in [path]. *)
Definition nearest_next (dist : Location -> Location -> float) (path : list Location) : Prop :=
  forall p a b, path !! p = Some a -> path !! S p = Some b ->
    (dist a b <? infinity) = true /\
    forall q c, (p < q)%nat -> path !! q = Some c -> (dist a c <? dist a b) = false.

(** Two locations with the same identifier and coordinates. *)
Definition same_place (l l' : Location) : Prop :=
  id l = id l' /\ latitude l = latitude l' /\ longitude l = longitude l'.

(* ================================================================== *)
(** * The handler (backend/src/controllers/routeController.ts) *)
(* ================================================================== *)

(** [optimizeRoute], the handler of the request to optimize a route, the
    one caller of the optimizer.  The database is modelled by the rows of
    the route's stops, in the order in which [findUnique] returns them;
    [prisma.routeStop.update] writes the sequence number of the row with
    the given key. *)

(** [enum RouteStatus] *)
Inductive RouteStatus := PENDING | IN_PROGRESS | COMPLETED | CANCELLED | PARTIAL.

(** The fields of an order that the handler reads. *)
Record Order := {
  order_orderNumber : string;
  order_address : string;
  order_latitude : option float;
  order_longitude : option float
}.

(** A row of [route_stops] with its order ([include: { order: true }]). *)
Record RouteStop := {
  stop_id : string;
  stop_orderId : string;
  stop_sequence : nat;
  stop_order : Order
}.

(** A route with its stops. *)
Record Route := {
  route_status : RouteStatus;
  route_stops : list RouteStop;
  route_totalDistance : option float;
  route_estimatedDuration : option float
}.

(** What the handler sends. *)
Inductive Reply :=
  | reply_error (status : nat) (error : string)
  | reply_optimized (totalDistance estimatedDuration : float)
      (stopsOptimized : nat) (algorithm : string).

(** [stop.order.latitude !== null && stop.order.longitude !== null] *)
Definition has_coordinates (s : RouteStop) : Prop :=
  is_Some (order_latitude (stop_order s)) /\ is_Some (order_longitude (stop_order s)).

(** The [Location] built from a stop; [null], which the filter rules out,
    would count as [0] in the arithmetic. *)
Definition location_of_stop (s : RouteStop) : Location :=
  {| id := stop_orderId s;
     orderNumber := order_orderNumber (stop_order s);
     address := order_address (stop_order s);
     latitude := default 0 (order_latitude (stop_order s));
     longitude := default 0 (order_longitude (stop_order s)) |}.

(** [prisma.routeStop.update({ where: { id }, data: { sequence } })] *)
Definition update_sequence (stopId : string) (sequence : nat)
    (rows : list RouteStop) : list RouteStop :=
  (fun row =>
     if decide (stop_id row = stopId)
     then {| stop_id := stop_id row; stop_orderId := stop_orderId row;
             stop_sequence := sequence; stop_order := stop_order row |}
     else row) <$> rows.

(** One turn of the loop that writes the new sequence numbers. *)
Definition resequence_step (stops rows : list RouteStop) (i : nat)
    (orderId : string) : list RouteStop :=
  match list_find (fun s => stop_orderId s = orderId) stops with
  | Some (_, found) => update_sequence (stop_id found) (i + 1) rows
  | None => rows
  end.

(** [for (let i = 0; i < optimizedResult.sequence.length; i++)], from
    index [i] on. *)
Fixpoint resequence_from (stops : list RouteStop) (i : nat)
    (sequence : list string) (rows : list RouteStop) : list RouteStop :=
  match sequence with
  | [] => rows
  | orderId :: rest =>
      resequence_from stops (S i) rest (resequence_step stops rows i orderId)
  end.

Section Controller.
Variables (Math_sin Math_cos : float -> float).
Variable Math_atan2 : float -> float -> float.

(** [optimizeRoute]: from the route that [findUnique] gives (its stops in
    the order of their sequence numbers) to the reply and the route as it
    is stored afterwards.  [None] when the optimizer has not returned.
    The database calls are taken to succeed, so the [catch] branch with
    its status 500 is not reached; the calls to [console.log] are left
    out. *)
Definition optimizeRoute (fuel : nat) (found : option Route)
    : option (Reply * option Route) :=
  match found with
  | None => Some (reply_error 404 "Route not found", None)
  | Some route =>
      if decide (length (route_stops route) = 0%nat) then
        Some (reply_error 400 "Cannot optimize route with no stops", Some route)
      else
        match route_status route with
        | COMPLETED =>
            Some (reply_error 400 "Cannot optimize completed route", Some route)
        | _ =>
            let validStops := filter has_coordinates (route_stops route) in
            if decide (length validStops = 0%nat) then
              Some (reply_error 400
                      "No stops have GPS coordinates. Please add coordinates to orders first.",
                    Some route)
            else
              let locations := location_of_stop <$> validStops in
              optimizedResult ←
                optimizeRouteNearestNeighbor Math_sin Math_cos Math_atan2 fuel locations;
              let rows :=
                resequence_from (route_stops route) 0 (sequence optimizedResult)
                  (route_stops route) in
              Some (reply_optimized (totalDistance optimizedResult)
                      (estimatedDuration optimizedResult)
                      (length (sequence optimizedResult))
                      (algorithm optimizedResult),
                    Some {| route_status := route_status route;
                            route_stops := rows;
                            route_totalDistance := Some (totalDistance optimizedResult);
                            route_estimatedDuration :=
                              Some (estimatedDuration optimizedResult) |})
        end
  end.

End Controller.

(** Two rows that differ at most in their sequence number. *)
Definition same_stop (s row : RouteStop) : Prop :=
  stop_id row = stop_id s /\ stop_orderId row = stop_orderId s /\
  stop_order row = stop_order s.

(** What holds of the stored rows while the handler writes: row [j] is
    stop [j] of the route as it was read, its sequence number apart. *)
Definition rows_of (stops rows : list RouteStop) : Prop :=
  length rows = length stops /\
  forall j s row, stops !! j = Some s -> rows !! j = Some row -> same_stop s row.

(** The number that the loop of the handler writes for an order: one more
    than the position of the order in the sequence. *)
Definition number_in (sequence : list string) (orderId : string) : nat :=
  match list_find (fun o => o = orderId) sequence with
  | Some (p, _) => p + 1
  | None => 0
  end.

(** ** Inputs used below *)

(** The handler on the reference library. *)
Definition run_handler := optimizeRoute RefMath.sin RefMath.cos RefMath.atan2.

(** A stop with the key [i], for the order [o]. *)
Definition route_stop (i o : string) (sq : nat) (lat lon : option float) : RouteStop :=
  {| stop_id := i; stop_orderId := o; stop_sequence := sq;
     stop_order := {| order_orderNumber := o; order_address := "Main Street";
                      order_latitude := lat; order_longitude := lon |} |}.

(** A pending route of four stops, the first of which has no coordinates. *)
Definition mixed_route : Route :=
  {| route_status := PENDING;
     route_stops :=
       [route_stop "s1" "o1" 1 None None;
        route_stop "s2" "o2" 2 (Some 0) (Some 0);
        route_stop "s3" "o3" 3 (Some 0) (Some 2);
        route_stop "s4" "o4" 4 (Some 0) (Some 1)];
     route_totalDistance := None; route_estimatedDuration := None |}.

(** The stops of [square_round] under other order numbers and addresses. *)
Definition relabelled_round : list Location :=
  (fun l => {| id := id l; orderNumber := "ORD-" +:+ id l; address := "12 Main Street";
               latitude := latitude l; longitude := longitude l |}) <$> square_round.

(** A completed route. *)
Definition completed_route : Route :=
  {| route_status := COMPLETED;
     route_stops := route_stops mixed_route;
     route_totalDistance := None; route_estimatedDuration := None |}.

(* ================================================================== *)
(** * Facts of binary64 arithmetic *)
(* ================================================================== *)

(** On the specification of the operations ([SpecFloat]). *)
Module SF.

Lemma binary_round_aux_opp s m e l :
  binary_round_aux prec emax (negb s) m e l = SFopp (binary_round_aux prec emax s m e l).
Proof.
  unfold binary_round_aux.
  destruct (shr_fexp prec emax m e l) as [mrs' e'].
  destruct (shr_fexp prec emax _ e' loc_Exact) as [mrs'' e''].
  destruct (shr_m mrs''); try reflexivity.
  destruct (e'' <=? emax - prec)%Z; reflexivity.
Qed.

Lemma binary_round_opp s m e :
  binary_round prec emax (negb s) m e = SFopp (binary_round prec emax s m e).
Proof.
  unfold binary_round.
  destruct (shl_align m e _) as [mz ez]. apply binary_round_aux_opp.
Qed.

Lemma SFopp_involutive x : SFopp (SFopp x) = x.
Proof. destruct x as [s|s| |s m e]; simpl; rewrite ?negb_involutive; reflexivity. Qed.

Lemma SFmul_comm x y : SF64mul x y = SF64mul y x.
Proof.
  destruct x as [sx|sx| |sx mx ex], y as [sy|sy| |sy my ey]; simpl;
    rewrite ?(xorb_comm sx sy); try reflexivity.
  rewrite (Pos.mul_comm mx my), (Z.add_comm ex ey). reflexivity.
Qed.

Lemma SFmul_opp_l x y : SF64mul (SFopp x) y = SFopp (SF64mul x y).
Proof.
  destruct x as [sx|sx| |sx mx ex], y as [sy|sy| |sy my ey]; simpl; try reflexivity.
  all: try (destruct sx, sy; reflexivity).
  replace (xorb (negb sx) sy) with (negb (xorb sx sy)) by (destruct sx, sy; reflexivity).
  apply binary_round_aux_opp.
Qed.

Lemma SFdiv_opp_l x y : SF64div (SFopp x) y = SFopp (SF64div x y).
Proof.
  destruct x as [sx|sx| |sx mx ex], y as [sy|sy| |sy my ey]; simpl; try reflexivity.
  all: try (destruct sx, sy; reflexivity).
  destruct (SFdiv_core_binary prec emax (Z.pos mx) ex (Z.pos my) ey) as [[mz ez] lz].
  replace (xorb (negb sx) sy) with (negb (xorb sx sy)) by (destruct sx, sy; reflexivity).
  apply binary_round_aux_opp.
Qed.

Lemma binary_normalize_opp m e :
  binary_normalize prec emax (- m) e false = binary_normalize prec emax m e false
  \/ binary_normalize prec emax (- m) e false = SFopp (binary_normalize prec emax m e false).
Proof.
  destruct m as [|p|p]; simpl.
  - left; reflexivity.
  - right. apply (binary_round_opp false).
  - right. apply (binary_round_opp true).
Qed.

(** Exchanging the operands of a subtraction negates the result, except
    that a zero result is [+0] both ways. *)
Lemma SFsub_swap x y :
  SF64sub y x = SF64sub x y \/ SF64sub y x = SFopp (SF64sub x y).
Proof.
  destruct x as [sx|sx| |sx mx ex], y as [sy|sy| |sy my ey]; simpl;
    try (left; reflexivity); try (right; reflexivity).
  all: try (destruct sx, sy; simpl; (left; reflexivity) || (right; reflexivity)).
  all: try (right; simpl; rewrite ?negb_involutive; reflexivity).
  rewrite (Z.min_comm ey ex).
  set (A := cond_Zopp sx _). set (B := cond_Zopp sy _).
  replace (B - A)%Z with (- (A - B))%Z by lia.
  apply binary_normalize_opp.
Qed.

(** *** The order *)

Ltac cases_compare :=
  repeat match goal with
  | |- context [Z.compare ?a ?b] =>
      let H := fresh in destruct (Z.compare_spec a b) as [H|H|H]
  | _ : context [Z.compare ?a ?b] |- _ =>
      let H := fresh in destruct (Z.compare_spec a b) as [H|H|H]
  | |- context [Pos.compare ?a ?b] =>
      let H := fresh in destruct (Pos.compare_spec a b) as [H|H|H]
  | _ : context [Pos.compare ?a ?b] |- _ =>
      let H := fresh in destruct (Pos.compare_spec a b) as [H|H|H]
  end.

Ltac order_cases a b c :=
  unfold SFltb, SFleb, SFeqb, SFcompare;
  destruct a as [[]|[]| |[] ? ?], b as [[]|[]| |[] ? ?], c as [[]|[]| |[] ? ?];
  simpl; try congruence;
  change (Pos.compare_cont Eq) with Pos.compare;
  intros; cases_compare; simpl in *; try congruence; try lia.

Lemma SFleb_ltb_trans a b c :
  SFleb a b = true -> SFltb b c = true -> SFltb a c = true.
Proof. order_cases a b c. Qed.

Lemma SFltb_leb a b : SFltb a b = true -> SFleb a b = true.
Proof. order_cases a b S754_nan. Qed.

Lemma SFltb_not_leb a b : SFltb b a = true -> SFleb a b = false.
Proof. order_cases a b S754_nan. Qed.

Lemma SFeqb_leb a b : SFeqb a b = true -> SFleb a b = true.
Proof. order_cases a b S754_nan. Qed.

End SF.

(** Signs through rounding. *)
Module SFSign.

Lemma shr_1_nonneg mrs : (0 <= shr_m mrs)%Z -> (0 <= shr_m (shr_1 mrs))%Z.
Proof. destruct mrs as [[|[p|p|]|p] r s]; simpl; lia. Qed.

Lemma iter_shr_1_nonneg p mrs :
  (0 <= shr_m mrs)%Z -> (0 <= shr_m (SpecFloat.iter_pos shr_1 p mrs))%Z.
Proof.
  revert mrs. induction p as [p IH|p IH|]; intros mrs H; simpl.
  - apply IH, IH, shr_1_nonneg, H.
  - apply IH, IH, H.
  - apply shr_1_nonneg, H.
Qed.

Lemma shr_fexp_nonneg m e l :
  (0 <= m)%Z -> (0 <= shr_m (fst (shr_fexp prec emax m e l)))%Z.
Proof.
  intros H. unfold shr_fexp, shr.
  assert (0 <= shr_m (shr_record_of_loc m l))%Z as H' by (destruct l as [|[]]; exact H).
  destruct (fexp prec emax (Zdigits2 m + e) - e)%Z; simpl; try exact H'.
  by apply iter_shr_1_nonneg.
Qed.

Lemma round_nearest_even_nonneg m l :
  (0 <= m)%Z -> (0 <= round_nearest_even m l)%Z.
Proof. intros H. destruct l as [|[]]; simpl; try lia. destruct (Z.even m); lia. Qed.

Lemma binary_round_aux_signed s m e l :
  (0 <= m)%Z -> SF_signed s (binary_round_aux prec emax s m e l) = true.
Proof.
  intros H. unfold binary_round_aux.
  pose proof (shr_fexp_nonneg m e l H) as H1.
  destruct (shr_fexp prec emax m e l) as [mrs' e']. simpl in H1.
  pose proof (shr_fexp_nonneg _ e' loc_Exact
                (round_nearest_even_nonneg _ (loc_of_shr_record mrs') H1)) as H2.
  destruct (shr_fexp prec emax _ e' loc_Exact) as [mrs'' e'']. simpl in H2.
  destruct (shr_m mrs'') as [|p|p]; simpl; [by destruct s| |lia].
  destruct (e'' <=? emax - prec)%Z; simpl; by destruct s.
Qed.

Lemma binary_round_signed s m e : SF_signed s (binary_round prec emax s m e) = true.
Proof.
  unfold binary_round. destruct (shl_align m e _) as [mz ez].
  by apply binary_round_aux_signed.
Qed.

Lemma binary_normalize_nonneg z e :
  (0 <= z)%Z -> SF_nonneg (binary_normalize prec emax z e false) = true.
Proof.
  intros H. destruct z as [|p|p]; simpl; [done| |lia].
  pose proof (binary_round_signed false p e) as Hs.
  by destruct (binary_round prec emax false p e) as [[]|[]| |[] ? ?].
Qed.

Lemma signed_nonneg x : SF_signed false x = true -> SF_nonneg x = true.
Proof. by destruct x as [[]|[]| |[] ? ?]. Qed.

Lemma signed_not_negative x : SF_signed false x = true -> SF_not_negative x = true.
Proof. by destruct x as [[]|[]| |[] ? ?]. Qed.

Lemma nonneg_not_negative x : SF_nonneg x = true -> SF_not_negative x = true.
Proof. by destruct x as [[]|[]| |[] ? ?]. Qed.

Lemma SFadd_nonneg x y :
  SF_nonneg x = true -> SF_nonneg y = true -> SF_nonneg (SF64add x y) = true.
Proof.
  destruct x as [[]|[]| |[] mx ex], y as [[]|[]| |[] my ey]; simpl; try done.
  intros _ _. apply signed_nonneg, binary_round_signed.
Qed.

Lemma SFmul_not_negative x y :
  SF_not_negative x = true -> SF_not_negative y = true ->
  SF_not_negative (SF64mul x y) = true.
Proof.
  destruct x as [[]|[]| |[] mx ex], y as [[]|[]| |[] my ey]; simpl; try done.
  intros _ _. apply signed_not_negative, binary_round_aux_signed. lia.
Qed.

Lemma SFmul_nonneg_finite x my ey :
  SF_nonneg x = true -> SF_nonneg (SF64mul x (S754_finite false my ey)) = true.
Proof.
  destruct x as [[]|[]| |[] mx ex]; simpl; try done.
  intros _. apply signed_nonneg, binary_round_aux_signed. lia.
Qed.

Lemma SFdiv_core_nonneg m1 e1 m2 e2 :
  (0 <= fst (fst (SFdiv_core_binary prec emax (Z.pos m1) e1 (Z.pos m2) e2)))%Z.
Proof.
  unfold SFdiv_core_binary.
  set (s := (e1 - e2 - _)%Z).
  set (m' := match s with Z.pos _ => Z.shiftl (Z.pos m1) s | 0%Z => Z.pos m1 | Z.neg _ => 0%Z end).
  assert (0 <= m')%Z as Hm'.
  { unfold m'. destruct s; try lia. apply Z.shiftl_nonneg. lia. }
  pose proof (Z.div_eucl_eq m' (Z.pos m2) ltac:(lia)) as Heq.
  pose proof (Z.mod_pos_bound m' (Z.pos m2) ltac:(lia)) as Hmod.
  unfold Z.modulo in Hmod.
  destruct (Z.div_eucl m' (Z.pos m2)) as [q r]. simpl. nia.
Qed.

Lemma SFdiv_nonneg_finite x my ey :
  SF_nonneg x = true -> SF_nonneg (SF64div x (S754_finite false my ey)) = true.
Proof.
  destruct x as [[]|[]| |[] mx ex]; simpl; try done.
  intros _. pose proof (SFdiv_core_nonneg mx ex my ey) as H.
  destruct (SFdiv_core_binary prec emax (Z.pos mx) ex (Z.pos my) ey) as [[mz ez] lz].
  apply signed_nonneg, binary_round_aux_signed. exact H.
Qed.

Lemma SFsqrt_not_negative x : SF_not_negative (SF64sqrt x) = true.
Proof.
  destruct x as [[]|[]| |[] mx ex]; simpl; try done.
  destruct (SFsqrt_core_binary prec emax (Z.pos mx) ex) as [[mz ez] lz] eqn:E.
  pose proof (binary_round_aux_signed false mz ez lz) as H.
  assert (0 <= mz)%Z as Hmz.
  { unfold SFsqrt_core_binary in E.
    match type of E with context [Z.sqrtrem ?a] =>
      pose proof (Z.sqrtrem_spec a) as Hs; destruct (Z.sqrtrem a) as [q r] end.
    simplify_eq. 
    match type of Hs with (0 <= ?a)%Z -> _ => assert (0 <= a)%Z as Ha end.
    { match goal with |- (0 <= match ?s with _ => _ end)%Z => destruct s end; try lia.
      apply Z.shiftl_nonneg. lia. }
    specialize (Hs Ha). nia. }
  apply signed_not_negative, H, Hmz.
Qed.

Lemma SFsqrt_neg_zero x : SF64sqrt x = S754_zero true -> x = S754_zero true.
Proof.
  destruct x as [[]|[]| |[] mx ex]; simpl; try done.
  destruct (SFsqrt_core_binary prec emax (Z.pos mx) ex) as [[mz ez] lz].
  unfold binary_round_aux.
  destruct (shr_fexp prec emax mz ez lz) as [mrs' e'].
  destruct (shr_fexp prec emax _ e' loc_Exact) as [mrs'' e''].
  destruct (shr_m mrs''); try done. by destruct (_ <=? _)%Z.
Qed.

End SFSign.

(** Integers below [2^53]. *)
Module SFInt.

Lemma digits2_size p : digits2_pos p = Pos.size p.
Proof. induction p; simpl; congruence. Qed.

Lemma digits2_iter_xO p k :
  digits2_pos (Pos.iter xO p k) = (digits2_pos p + k)%positive.
Proof.
  induction k as [|k IH] using Pos.peano_ind.
  - simpl. lia.
  - rewrite Pos.iter_succ. simpl. rewrite IH. lia.
Qed.

Lemma iter_xO_value p k : Z.pos (Pos.iter xO p k) = (Z.pos p * 2 ^ Z.pos k)%Z.
Proof.
  induction k as [|k IH] using Pos.peano_ind.
  - simpl. lia.
  - rewrite Pos.iter_succ, Pos2Z.inj_xO, IH, Pos2Z.inj_succ, Z.pow_succ_r by lia. lia.
Qed.

Lemma digits2_bound p : (Z.pos p < 2 ^ 53)%Z -> (Z.pos (digits2_pos p) <= 53)%Z.
Proof.
  intros H. rewrite digits2_size.
  pose proof (Pos.size_le p) as Hle.
  destruct (Z_le_gt_dec (Z.pos (Pos.size p)) 53) as [|Hgt]; [done|exfalso].
  assert (2 ^ 54 <= 2 ^ Z.pos (Pos.size p))%Z as Hpow by (apply Z.pow_le_mono_r; lia).
  assert (Z.pos (2 ^ Pos.size p) <= Z.pos p~0)%Z as Hle' by lia.
  rewrite Pos2Z.inj_pow in Hle'. change (Z.pos 2) with 2%Z in Hle'.
  rewrite Pos2Z.inj_xO in Hle'. lia.
Qed.

Lemma mantissa_bound s m e :
  valid_binary (S754_finite s m e) = true -> (Z.pos m < 2 ^ 53)%Z.
Proof.
  unfold SpecFloat.valid_binary, bounded, canonical_mantissa, fexp.
  intros [Hc _]%andb_prop. apply Z.eqb_eq in Hc.
  assert (Z.pos (digits2_pos m) <= 53)%Z as Hd by (unfold prec in Hc; lia).
  rewrite digits2_size in Hd. pose proof (Pos.size_gt m) as Hgt.
  assert (Z.pos m < Z.pos (2 ^ Pos.size m))%Z as Hlt by lia.
  rewrite Pos2Z.inj_pow in Hlt. change (Z.pos 2) with 2%Z in Hlt.
  assert (2 ^ Z.pos (Pos.size m) <= 2 ^ 53)%Z by (apply Z.pow_le_mono_r; lia). lia.
Qed.

Lemma binary_round_aux_canonical s m e :
  bounded prec emax m e = true ->
  binary_round_aux prec emax s (Z.pos m) e loc_Exact = S754_finite s m e.
Proof.
  unfold bounded, canonical_mantissa. intros [Hc Hb]%andb_prop. apply Z.eqb_eq in Hc.
  unfold binary_round_aux, shr_fexp. simpl Zdigits2. rewrite Hc, Z.sub_diag. simpl.
  rewrite Hc, Z.sub_diag. simpl. by rewrite Hb.
Qed.

(** A positive integer below [2^53] is a number: no rounding. *)
Lemma binary_round_small p :
  (Z.pos p < 2 ^ 53)%Z ->
  exists m e,
    binary_round prec emax false p 0 = S754_finite false m e /\
    bounded prec emax m e = true /\ SF_integer (S754_finite false m e) = true.
Proof.
  intros Hp. pose proof (digits2_bound p Hp) as Hd.
  unfold binary_round.
  assert (fexp prec emax (Z.pos (digits2_pos p) + 0) = Z.pos (digits2_pos p) - 53)%Z as Hf.
  { unfold fexp, SpecFloat.emin, prec, emax. lia. }
  rewrite Hf. unfold shl_align.
  destruct (Z.pos (digits2_pos p) - 53 - 0)%Z as [|k|k] eqn:Ek; [|lia|].
  - assert (bounded prec emax p 0 = true) as Hb.
    { unfold bounded, canonical_mantissa. rewrite Hf.
      apply andb_true_intro. split; [apply Z.eqb_eq; lia|done]. }
    exists p, 0%Z. split_and!; [by apply binary_round_aux_canonical|done|done].
  - assert (bounded prec emax (Pos.iter xO p k) (Z.pos (digits2_pos p) - 53) = true) as Hb.
    { unfold bounded, canonical_mantissa. rewrite digits2_iter_xO.
      apply andb_true_intro. split.
      - apply Z.eqb_eq. unfold fexp, SpecFloat.emin, prec, emax. lia.
      - apply Z.leb_le. unfold prec, emax. lia. }
    exists (Pos.iter xO p k), (Z.pos (digits2_pos p) - 53)%Z.
    split_and!; [by apply binary_round_aux_canonical|done|].
    simpl. apply orb_true_intro. right. apply Z.eqb_eq.
    rewrite iter_xO_value. replace (- (Z.pos (digits2_pos p) - 53))%Z with (Z.pos k) by lia.
    apply Z.mod_mul. lia.
Qed.

End SFInt.

(** On the numbers themselves. *)
Module JSNumber.

Lemma opp_involutive x : - - x = x.
Proof. apply Prim2SF_inj. rewrite !opp_spec. apply SF.SFopp_involutive. Qed.

Lemma mul_comm x y : x * y = y * x.
Proof. apply Prim2SF_inj. rewrite !mul_spec. apply SF.SFmul_comm. Qed.

Lemma mul_opp_l x y : - x * y = - (x * y).
Proof. apply Prim2SF_inj. rewrite opp_spec, !mul_spec, opp_spec. apply SF.SFmul_opp_l. Qed.

Lemma mul_opp_r x y : x * - y = - (x * y).
Proof. rewrite (mul_comm x (- y)), mul_opp_l, (mul_comm y x). reflexivity. Qed.

Lemma mul_opp_opp x y : - x * - y = x * y.
Proof. rewrite mul_opp_l, mul_opp_r. apply opp_involutive. Qed.

Lemma div_opp_l x y : - x / y = - (x / y).
Proof. apply Prim2SF_inj. rewrite opp_spec, !div_spec, opp_spec. apply SF.SFdiv_opp_l. Qed.

Lemma sub_swap x y : flipped (x - y) (y - x).
Proof.
  destruct (SF.SFsub_swap (Prim2SF x) (Prim2SF y)) as [H|H]; [left|right];
    apply Prim2SF_inj; rewrite ?opp_spec, !sub_spec; exact H.
Qed.

Lemma add_nan_l x : nan + x = nan.
Proof. apply Prim2SF_inj. rewrite add_spec. reflexivity. Qed.

Lemma leb_ltb_trans a b c : (a <=? b) = true -> (b <? c) = true -> (a <? c) = true.
Proof. rewrite FloatAxioms.leb_spec, !FloatAxioms.ltb_spec. apply SF.SFleb_ltb_trans. Qed.

Lemma ltb_leb a b : (a <? b) = true -> (a <=? b) = true.
Proof. rewrite FloatAxioms.leb_spec, FloatAxioms.ltb_spec. apply SF.SFltb_leb. Qed.

Lemma ltb_not_leb a b : (b <? a) = true -> (a <=? b) = false.
Proof. rewrite FloatAxioms.leb_spec, FloatAxioms.ltb_spec. apply SF.SFltb_not_leb. Qed.

Lemma eqb_leb a b : (a =? b) = true -> (a <=? b) = true.
Proof. rewrite FloatAxioms.leb_spec, FloatAxioms.eqb_spec. apply SF.SFeqb_leb. Qed.

Lemma not_leb_not_ltb a b : (a <=? b) = false -> (a <? b) = false.
Proof.
  intros H. destruct (a <? b) eqn:E; [|reflexivity].
  apply ltb_leb in E. congruence.
Qed.

Lemma ltb_irrefl a : (a <? a) = false.
Proof.
  destruct (a <? a) eqn:E; [|reflexivity].
  pose proof (ltb_not_leb _ _ E). apply ltb_leb in E. congruence.
Qed.

End JSNumber.

(** Signs and integers, on the numbers. *)
Module JSSign.

Lemma leb_zero x : (0 <=? x) = SF_nonneg (Prim2SF x).
Proof. rewrite FloatAxioms.leb_spec. by destruct (Prim2SF x) as [[]|[]| |[] ? ?]. Qed.

Lemma ltb_zero x : (x <? 0) = negb (SF_not_negative (Prim2SF x)).
Proof. rewrite FloatAxioms.ltb_spec. by destruct (Prim2SF x) as [[]|[]| |[] ? ?]. Qed.

Lemma below_infinity_nonneg x :
  (x <? 0) = false -> (x <? infinity) = true -> (0 <=? x) = true.
Proof.
  rewrite ltb_zero, leb_zero, FloatAxioms.ltb_spec.
  by destruct (Prim2SF x) as [[]|[]| |[] ? ?].
Qed.

Lemma add_nonneg x y : (0 <=? x) = true -> (0 <=? y) = true -> (0 <=? x + y) = true.
Proof. rewrite !leb_zero, add_spec. apply SFSign.SFadd_nonneg. Qed.

Lemma mul_not_negative x y :
  (x <? 0) = false -> (y <? 0) = false -> (x * y <? 0) = false.
Proof.
  rewrite !ltb_zero, mul_spec, !negb_false_iff. apply SFSign.SFmul_not_negative.
Qed.

Lemma sqrt_not_negative x : (sqrt x <? 0) = false.
Proof. rewrite ltb_zero, sqrt_spec, negb_false_iff. apply SFSign.SFsqrt_not_negative. Qed.

Lemma Prim2SF_neg_zero x : Prim2SF x = S754_zero true -> x = neg_zero.
Proof. intros H. apply Prim2SF_inj. by rewrite H. Qed.

Lemma sqrt_neg_zero x : sqrt x = neg_zero -> x = neg_zero.
Proof.
  intros H. apply Prim2SF_neg_zero, SFSign.SFsqrt_neg_zero.
  unfold SF64sqrt in *. rewrite <- sqrt_spec, H. reflexivity.
Qed.

Lemma mul_nonneg_constant x c :
  positive_constant c -> (0 <=? x) = true -> (0 <=? x * c) = true.
Proof.
  intros (m & e & Hc). rewrite !leb_zero, mul_spec, Hc. apply SFSign.SFmul_nonneg_finite.
Qed.

Lemma div_nonneg_constant x c :
  positive_constant c -> (0 <=? x) = true -> (0 <=? x / c) = true.
Proof.
  intros (m & e & Hc). rewrite !leb_zero, div_spec, Hc. apply SFSign.SFdiv_nonneg_finite.
Qed.

Lemma SF2Prim_nonneg sf :
  SF_nonneg sf = true -> SF_nonneg (Prim2SF (SF2Prim sf)) = true.
Proof.
  destruct sf as [[]|[]| |[] m e]; try done. intros _. unfold SF2Prim.
  rewrite Z_ldexp_spec, of_uint63_spec.
  pose proof (Uint63.to_Z_bounded (Uint63.of_Z (Z.pos m))) as [Hlo _].
  pose proof (SFSign.binary_normalize_nonneg _ 0 Hlo) as Hn.
  destruct (binary_normalize prec emax _ 0 false) as [[]|[]| |[] m' e']; try done.
  simpl. apply SFSign.signed_nonneg, SFSign.binary_round_signed.
Qed.

Lemma Number_of_Z_nonneg z : (0 <= z)%Z -> (0 <=? Number_of_Z z false) = true.
Proof.
  intros Hz. rewrite leb_zero. apply SF2Prim_nonneg. by apply SFSign.binary_normalize_nonneg.
Qed.

Lemma round_argument_nonneg m e :
  (e < 0)%Z -> (0 <= (2 * Z.pos m + 2 ^ (- e)) / (2 * 2 ^ (- e)))%Z.
Proof.
  intros He. assert (0 < 2 ^ (- e))%Z by (apply Z.pow_pos_nonneg; lia).
  apply Z.div_pos; lia.
Qed.

Lemma Math_round_nonneg x : (0 <=? x) = true -> (0 <=? Math_round x) = true.
Proof.
  intros Hx. unfold Math_round. pose proof Hx as Hx'. rewrite leb_zero in Hx'.
  destruct (Prim2SF x) as [[]|[]| |[] m e] eqn:E; try done.
  destruct (0 <=? e)%Z eqn:He; [done|]. apply Z.leb_gt in He.
  apply Number_of_Z_nonneg. simpl. by apply round_argument_nonneg.
Qed.

Lemma positive_constant_100 : positive_constant 100.
Proof. eexists _, _. vm_compute. reflexivity. Qed.

Lemma round2_nonneg x : (0 <=? x) = true -> (0 <=? round2 x) = true.
Proof.
  intros Hx. unfold round2.
  apply div_nonneg_constant; [apply positive_constant_100|].
  apply Math_round_nonneg, mul_nonneg_constant; [apply positive_constant_100|done].
Qed.

Lemma sum_left_nonneg ds :
  Forall (fun d => (0 <=? d) = true) ds -> (0 <=? sum_left ds) = true.
Proof.
  unfold sum_left. induction ds as [|d ds IH] using rev_ind; [done|].
  intros [Hds Hd]%Forall_app. rewrite foldl_snoc.
  apply add_nonneg; [by apply IH|exact (Forall_inv Hd)].
Qed.

(** *** Integers *)

Lemma Number_isInteger_spec x : Number_isInteger x = SF_integer (Prim2SF x).
Proof. reflexivity. Qed.

Lemma Number_of_Z_integer z :
  (0 <= z < 2 ^ 53)%Z -> Number_isInteger (Number_of_Z z false) = true.
Proof.
  intros [Hlo Hhi]. unfold Number_isInteger, Number_of_Z.
  destruct z as [|p|p]; [done| |lia]. simpl binary_normalize.
  destruct (SFInt.binary_round_small p Hhi) as (m & e & -> & Hb & Hint).
  by rewrite Prim2SF_SF2Prim.
Qed.

Lemma round_argument_small m e :
  (Z.pos m < 2 ^ 53)%Z -> (e < 0)%Z ->
  ((2 * Z.pos m + 2 ^ (- e)) / (2 * 2 ^ (- e)) < 2 ^ 53)%Z.
Proof.
  intros Hm He.
  assert (2 <= 2 ^ (- e))%Z as Hk.
  { change 2%Z with (2 ^ 1)%Z at 1. apply Z.pow_le_mono_r; lia. }
  apply Z.div_lt_upper_bound; [lia|nia].
Qed.

Lemma Math_round_integer x :
  (0 <=? x) = true -> Number_isFinite x = true -> Number_isInteger (Math_round x) = true.
Proof.
  rewrite leb_zero. unfold Number_isFinite, Math_round. intros Hx Hfin.
  pose proof (Prim2SF_valid x) as Hv.
  destruct (Prim2SF x) as [[]|[]| |[] m e] eqn:E; try done.
  - unfold Number_isInteger. by rewrite E.
  - unfold Number_isInteger. by rewrite E.
  - destruct (0 <=? e)%Z eqn:He.
    + unfold Number_isInteger. rewrite E. simpl. by rewrite He.
    + apply Z.leb_gt in He. apply Number_of_Z_integer. simpl. split.
      * by apply round_argument_nonneg.
      * apply round_argument_small; [by apply (SFInt.mantissa_bound false m e)|done].
Qed.

End JSSign.

(** ** Bounds through rounding *)

(** Rounding does not cross an integer below [2^53]. *)
Module SFBound.
Local Open Scope Z_scope.

Lemma pow2_pos E : 0 <= E -> 0 < 2 ^ E.
Proof. intros H. apply Z.pow_pos_nonneg; lia. Qed.

Lemma shr_under_le mrs E B : shr_under mrs E B -> shr_m mrs * 2 ^ E <= B.
Proof. unfold shr_under. destruct (_ || _); lia. Qed.

Lemma shr_1_under mrs E B :
  0 <= shr_m mrs -> 0 <= E -> shr_under mrs E B ->
  shr_under (shr_1 mrs) (E + 1) B /\ 0 <= shr_m (shr_1 mrs).
Proof.
  intros Hm HE. pose proof (pow2_pos E HE) as Hpos.
  assert (2 ^ (E + 1) = 2 * 2 ^ E) as Hpow by (rewrite Z.pow_add_r by lia; lia).
  destruct mrs as [[|[p|p|]|p] r s]; unfold shr_under; simpl in *; try lia;
    rewrite ?Hpow; destruct r, s; simpl; (split; [|lia]); nia.
Qed.

Lemma iter_shr_1_under p : forall mrs E B,
  0 <= shr_m mrs -> 0 <= E -> shr_under mrs E B ->
  shr_under (SpecFloat.iter_pos shr_1 p mrs) (E + Z.pos p) B /\
  0 <= shr_m (SpecFloat.iter_pos shr_1 p mrs).
Proof.
  induction p as [p IH|p IH|]; intros mrs E B Hm HE H; simpl.
  - destruct (shr_1_under _ _ _ Hm HE H) as [H1 Hm1].
    assert (0 <= E + 1) as HE1 by lia.
    destruct (IH _ _ _ Hm1 HE1 H1) as [H2 Hm2].
    assert (0 <= E + 1 + Z.pos p) as HE2 by lia.
    destruct (IH _ _ _ Hm2 HE2 H2) as [H3 Hm3].
    split; [|done]. replace (E + Z.pos p~1) with (E + 1 + Z.pos p + Z.pos p) by lia. done.
  - destruct (IH _ _ _ Hm HE H) as [H2 Hm2].
    assert (0 <= E + Z.pos p) as HE2 by lia.
    destruct (IH _ _ _ Hm2 HE2 H2) as [H3 Hm3].
    split; [|done]. replace (E + Z.pos p~0) with (E + Z.pos p + Z.pos p) by lia. done.
  - by apply shr_1_under.
Qed.

Lemma fexp_emin x : -1074 <= fexp prec emax x.
Proof. unfold fexp, SpecFloat.emin, prec, emax. lia. Qed.

(** The first of the two shifts of [binary_round_aux]. *)
Lemma shr_fexp_under m e l K B :
  0 <= m -> 0 <= e + K ->
  shr_under (shr_record_of_loc m l) (e + K) B ->
  exists mrs' e',
    shr_fexp prec emax m e l = (mrs', e') /\
    shr_under mrs' (e' + K) B /\ 0 <= shr_m mrs' /\ -1074 <= e' /\
    ((e' = e /\ mrs' = shr_record_of_loc m l) \/
     (e' = fexp prec emax (Zdigits2 m + e) /\ e < e')).
Proof.
  intros Hm HE H. unfold shr_fexp, shr.
  pose proof (fexp_emin (Zdigits2 m + e)) as Hmin.
  assert (0 <= shr_m (shr_record_of_loc m l)) as Hm' by (by destruct l as [|[]]).
  destruct (fexp prec emax (Zdigits2 m + e) - e) as [|p|p] eqn:Ep.
  - eexists _, _. split; [done|]. split_and!; [done|done|lia|by left].
  - destruct (iter_shr_1_under p _ _ _ Hm' HE H) as [H1 Hm1].
    eexists _, _. split; [done|].
    replace (e + Z.pos p + K) with (e + K + Z.pos p) by lia.
    split_and!; [done|done|lia|right; lia].
  - eexists _, _. split; [done|]. split_and!; [done|done|lia|by left].
Qed.

Lemma digits2_lower p : 2 ^ (Z.pos (digits2_pos p) - 1) <= Z.pos p.
Proof.
  rewrite SFInt.digits2_size. pose proof (Pos.size_le p) as Hle.
  assert (Z.pos (2 ^ Pos.size p) <= Z.pos p~0) as Hle' by lia.
  rewrite Pos2Z.inj_pow, (Pos2Z.inj_xO p) in Hle'.
  replace (Z.pos (Pos.size p)) with (Z.pos (Pos.size p) - 1 + 1) in Hle' by lia.
  rewrite Z.pow_add_r in Hle' by lia. lia.
Qed.

(** A number below [2^53] has its unit in the last place at most [1]. *)
Lemma fexp_nonpos p e K z :
  0 <= e + K -> Z.pos p * 2 ^ (e + K) <= z * 2 ^ K -> z < 2 ^ 53 -> 0 <= K ->
  fexp prec emax (Zdigits2 (Z.pos p) + e) <= 0.
Proof.
  intros HE Hv Hz HK. simpl Zdigits2. set (d := Z.pos (digits2_pos p)).
  destruct (Z_le_gt_dec (d + e) 53) as [Hd|Hd].
  { unfold fexp, SpecFloat.emin, prec, emax. lia. }
  exfalso. pose proof (digits2_lower p) as Hlow. fold d in Hlow.
  assert (0 < d) as Hdpos by (unfold d; lia).
  pose proof (pow2_pos (e + K) HE) as HposE. pose proof (pow2_pos K HK) as HposK.
  assert (2 ^ (53 + K) <= 2 ^ (d - 1 + (e + K))) as Hpow by (apply Z.pow_le_mono_r; lia).
  rewrite (Z.pow_add_r 2 (d - 1)), (Z.pow_add_r 2 53) in Hpow by lia.
  assert (2 ^ (d - 1) * 2 ^ (e + K) <= Z.pos p * 2 ^ (e + K)) as H1.
  { apply Z.mul_le_mono_nonneg_r; lia. }
  assert (z * 2 ^ K < 2 ^ 53 * 2 ^ K) as H2.
  { apply Z.mul_lt_mono_pos_r; lia. }
  lia.
Qed.

Lemma round_under mrs E B k :
  0 <= shr_m mrs -> shr_under mrs E B -> 0 <= E ->
  (shr_r mrs || shr_s mrs = true -> B = k * 2 ^ E) ->
  0 <= round_nearest_even (shr_m mrs) (loc_of_shr_record mrs) /\
  round_nearest_even (shr_m mrs) (loc_of_shr_record mrs) * 2 ^ E <= B.
Proof.
  intros Hm H HE Hdiv. pose proof (pow2_pos E HE) as Hpos.
  assert (shr_r mrs || shr_s mrs = true -> (shr_m mrs + 1) * 2 ^ E <= B) as Hup.
  { intros Hin. unfold shr_under in H. rewrite Hin in H. rewrite (Hdiv Hin) in *.
    apply Z.mul_lt_mono_pos_r in H; [|done]. apply Z.mul_le_mono_nonneg_r; lia. }
  apply shr_under_le in H.
  destruct mrs as [m [] []]; simpl in *; try (specialize (Hup eq_refl));
    try destruct (Z.even m); split; lia.
Qed.

Lemma rescale m e K z :
  1074 <= K -> -1074 <= e ->
  m * 2 ^ (e + K) <= z * 2 ^ K -> m * 2 ^ (e + 1074) <= z * 2 ^ 1074.
Proof.
  intros HK He H. assert (0 < 2 ^ (K - 1074)) as Hpos by (apply pow2_pos; lia).
  assert (2 ^ (e + K) = 2 ^ (e + 1074) * 2 ^ (K - 1074)) as E1.
  { rewrite <- Z.pow_add_r by lia. f_equal. lia. }
  assert (2 ^ K = 2 ^ 1074 * 2 ^ (K - 1074)) as E2.
  { rewrite <- Z.pow_add_r by lia. f_equal. lia. }
  rewrite E1, E2, !Z.mul_assoc in H. by apply Z.mul_le_mono_pos_r in H.
Qed.

Lemma binary_round_aux_at_most m e l K z :
  0 <= m -> 0 <= e + K -> 1074 <= K -> 0 <= z < 2 ^ 53 ->
  (l = loc_Exact /\ 0 < m) \/ e <= 0 ->
  shr_under (shr_record_of_loc m l) (e + K) (z * 2 ^ K) ->
  SF_at_most (binary_round_aux prec emax false m e l) z.
Proof.
  intros Hm HE HK [Hz0 Hz] Hloc H. unfold binary_round_aux.
  destruct (shr_fexp_under m e l K _ Hm HE H)
    as (mrs' & e' & -> & H' & Hm' & He' & Hcase).
  assert (shr_r mrs' || shr_s mrs' = true -> e' <= 0) as Hexp.
  { intros Hin. destruct Hcase as [[-> ->]|[-> Hlt]].
    - destruct Hloc as [[-> _]|]; [done|done].
    - destruct m as [|p|p]; [|apply (fexp_nonpos p e K z); try lia|lia].
      + destruct Hloc as [[_ ?]|He0]; [lia|].
        simpl. unfold fexp, SpecFloat.emin, prec, emax. lia.
      + apply shr_under_le in H. by destruct l as [|[]]. }
  assert (0 <= e' + K) as HE' by lia.
  destruct (round_under mrs' (e' + K) (z * 2 ^ K) (z * 2 ^ (- e')) Hm' H' HE')
    as [Hr0 Hr].
  { intros Hin. specialize (Hexp Hin).
    rewrite <- Z.mul_assoc, <- Z.pow_add_r by lia. f_equal. f_equal. lia. }
  set (mr := round_nearest_even (shr_m mrs') (loc_of_shr_record mrs')) in *.
  destruct (shr_fexp_under mr e' loc_Exact K (z * 2 ^ K) Hr0 HE' Hr)
    as (mrs'' & e'' & -> & H'' & Hm'' & He'' & Hcase').
  apply shr_under_le in H''.
  assert (e' <= e'') as Hle by (destruct Hcase' as [[-> _]|[_ ?]]; lia).
  destruct (shr_m mrs'') as [|p|p] eqn:Ep; [done| |lia].
  assert (0 < 2 ^ (e'' + K)) as Hpos by (apply pow2_pos; lia).
  assert (0 < 2 ^ K) as HposK by (apply pow2_pos; lia).
  assert (e'' < 53) as Hsmall.
  { assert (2 ^ (e'' + K) < 2 ^ (53 + K)) as Hlt.
    { rewrite (Z.pow_add_r 2 53 K) by lia. nia. }
    apply Z.pow_lt_mono_r_iff in Hlt; lia. }
  replace (e'' <=? emax - prec) with true
    by (symmetry; apply Z.leb_le; unfold emax, prec; lia).
  split; [lia|]. by apply (rescale _ _ K).
Qed.

End SFBound.

(** Bounds through the operations. *)
Module SFOps.
Import SFBound.
Local Open Scope Z_scope.

Lemma at_most_nonneg x z : SF_at_most x z -> 0 <= z.
Proof.
  destruct x as [s| | |[] m e]; simpl; try done. intros [He H].
  assert (0 < 2 ^ (e + 1074)) by (apply pow2_pos; lia).
  assert (0 < 2 ^ 1074) by (apply pow2_pos; lia). nia.
Qed.

Lemma at_most_mono x z z' : SF_at_most x z -> z <= z' -> SF_at_most x z'.
Proof.
  destruct x as [s| | |[] m e]; simpl; try done; [lia|]. intros [He H] Hz.
  split; [done|]. assert (0 < 2 ^ 1074) by (apply pow2_pos; lia). nia.
Qed.

Lemma at_most_finite x z :
  SF_at_most x z ->
  match x with S754_zero _ | S754_finite false _ _ => True | _ => False end.
Proof. by destruct x as [s| | |[] m e]. Qed.

Lemma SFmul_at_most x y zx zy :
  SF_at_most x zx -> SF_at_most y zy -> zx * zy < 2 ^ 53 ->
  SF_at_most (SF64mul x y) (zx * zy).
Proof.
  intros Hx Hy Hz.
  pose proof (at_most_nonneg _ _ Hx) as Hzx. pose proof (at_most_nonneg _ _ Hy) as Hzy.
  destruct x as [sx| | |[] mx ex], y as [sy| | |[] my ey]; simpl in Hx, Hy; try done;
    try (simpl; nia).
  destruct Hx as [Hex Hx], Hy as [Hey Hy].
  unfold SF64mul, SFmul. simpl xorb.
  assert (0 < 2 ^ (ex + 1074)) by (apply pow2_pos; lia).
  assert (0 < 2 ^ (ey + 1074)) by (apply pow2_pos; lia).
  assert (2 ^ (ex + ey + 2148) = 2 ^ (ex + 1074) * 2 ^ (ey + 1074)) as E1.
  { rewrite <- Z.pow_add_r by lia. f_equal. lia. }
  assert (2 ^ 2148 = 2 ^ 1074 * 2 ^ 1074) as E2 by (by rewrite <- Z.pow_add_r by lia).
  apply (binary_round_aux_at_most _ _ _ 2148); try lia; [left; split; [done|lia]|].
  unfold shr_under. cbn [shr_record_of_loc shr_r shr_s shr_m orb].
  rewrite E1, E2, Pos2Z.inj_mul.
  transitivity (Z.pos mx * 2 ^ (ex + 1074) * (Z.pos my * 2 ^ (ey + 1074))); [lia|].
  transitivity (zx * 2 ^ 1074 * (zy * 2 ^ 1074)); [|lia].
  apply Z.mul_le_mono_nonneg; lia.
Qed.

Lemma shl_align_value mx ex ex' K :
  0 <= ex' + K -> 0 <= ex + K ->
  Z.pos (fst (shl_align mx ex ex')) * 2 ^ (snd (shl_align mx ex ex') + K) =
    Z.pos mx * 2 ^ (ex + K) /\
  snd (shl_align mx ex ex') = Z.min ex ex'.
Proof.
  intros H' H. unfold shl_align.
  destruct (ex' - ex) as [|d|d] eqn:Ed; simpl; [split; [done|lia]|split; [done|lia]|].
  split; [|lia]. rewrite SFInt.iter_xO_value.
  rewrite <- Z.mul_assoc, <- Z.pow_add_r by lia. f_equal. f_equal. lia.
Qed.

Lemma binary_round_at_most p e z :
  -1074 <= e -> Z.pos p * 2 ^ (e + 1074) <= z * 2 ^ 1074 -> z < 2 ^ 53 ->
  SF_at_most (binary_round prec emax false p e) z.
Proof.
  intros He H Hz. unfold binary_round.
  pose proof (fexp_emin (Z.pos (digits2_pos p) + e)) as Hmin.
  set (t := fexp prec emax (Z.pos (digits2_pos p) + e)) in *.
  assert (0 <= t + 1074) as Ht by lia. assert (0 <= e + 1074) as He' by lia.
  destruct (shl_align_value p e t 1074 Ht He') as [Hv Hs].
  destruct (shl_align p e t) as [mz ez]. simpl in Hv, Hs.
  assert (0 <= z).
  { assert (0 < 2 ^ (e + 1074)) by (apply pow2_pos; lia).
    assert (0 < 2 ^ 1074) by (apply pow2_pos; lia). nia. }
  apply (binary_round_aux_at_most _ _ _ 1074); try lia.
  - left. split; [done|lia].
  - unfold shr_under. cbn [shr_record_of_loc shr_r shr_s shr_m orb]. lia.
Qed.

Lemma SFadd_at_most x y zx zy :
  SF_at_most x zx -> SF_at_most y zy -> zx + zy < 2 ^ 53 ->
  SF_at_most (SF64add x y) (zx + zy).
Proof.
  intros Hx Hy Hz.
  pose proof (at_most_nonneg _ _ Hx) as Hzx. pose proof (at_most_nonneg _ _ Hy) as Hzy.
  destruct x as [sx| | |[] mx ex], y as [sy| | |[] my ey]; simpl in Hx, Hy; try done.
  - destruct sx, sy; simpl; lia.
  - apply (at_most_mono _ zy); [done|lia].
  - apply (at_most_mono _ zx); [done|lia].
  - destruct Hx as [Hex Hx], Hy as [Hey Hy]. unfold SF64add, SFadd.
    set (ez := Z.min ex ey).
    assert (0 <= ez + 1074) as Hez by lia.
    destruct (shl_align_value mx ex ez 1074 Hez ltac:(lia)) as [Hvx Hsx].
    destruct (shl_align_value my ey ez 1074 Hez ltac:(lia)) as [Hvy Hsy].
    replace (Z.min ex ez) with ez in Hsx by lia.
    replace (Z.min ey ez) with ez in Hsy by lia.
    rewrite Hsx in Hvx. rewrite Hsy in Hvy. simpl cond_Zopp.
    destruct (fst (shl_align mx ex ez)) as [a|a|] eqn:Ea;
      destruct (fst (shl_align my ey ez)) as [b|b|] eqn:Eb; simpl Z.add;
      simpl binary_normalize; apply binary_round_at_most; try lia;
      rewrite ?Pos2Z.inj_add, ?Pos2Z.inj_xI, ?Pos2Z.inj_xO in *; nia.
Qed.

(** Division by 40. *)
Lemma div_core_40 mx ex z :
  -1074 <= ex -> Z.pos mx * 2 ^ (ex + 1074) <= z * 2 ^ 1074 -> z < 2 ^ 53 ->
  exists q e' l,
    SFdiv_core_binary prec emax (Z.pos mx) ex 5629499534213120 (-47) = (q, e', l) /\
    0 <= q /\ -1074 <= e' <= 0 /\ q * 2 ^ (e' + 1074) * 40 <= z * 2 ^ 1074.
Proof.
  intros He H Hz. unfold SFdiv_core_binary.
  change (Zdigits2 5629499534213120) with 53. simpl Zdigits2.
  set (d1 := Z.pos (digits2_pos mx)).
  assert (fexp prec emax (d1 + ex - (53 + -47)) <= 0) as Hf.
  { pose proof (fexp_nonpos mx ex 1074 z ltac:(lia) H Hz ltac:(lia)) as Hn.
    simpl Zdigits2 in Hn. fold d1 in Hn.
    unfold fexp, SpecFloat.emin, prec, emax in *. lia. }
  pose proof (fexp_emin (d1 + ex - (53 + -47))) as Hmin.
  set (e' := Z.min (fexp prec emax (d1 + ex - (53 + -47))) (ex - -47)).
  set (s := ex - -47 - e').
  assert (0 <= s) as Hs by (unfold s, e'; lia).
  set (m' := match s with 0 => Z.pos mx | Z.pos _ => Z.shiftl (Z.pos mx) s | Z.neg _ => 0 end).
  assert (m' = Z.pos mx * 2 ^ s) as Hm'.
  { unfold m'. destruct s as [|p|p] eqn:Es; [simpl; lia| |lia].
    by rewrite Z.shiftl_mul_pow2 by lia. }
  pose proof (Z.div_eucl_eq m' 5629499534213120 ltac:(lia)) as Heq.
  pose proof (Z.mod_pos_bound m' 5629499534213120 ltac:(lia)) as Hmod.
  unfold Z.modulo in Hmod.
  destruct (Z.div_eucl m' 5629499534213120) as [q r].
  assert (0 < 2 ^ s) by (apply pow2_pos; lia).
  assert (0 <= q) as Hq by nia.
  exists q, e', (new_location 5629499534213120 r). split; [done|].
  split; [done|]. split; [unfold e'; lia|].
  assert (-1074 <= e') as He' by (unfold e'; lia).
  assert (0 < 2 ^ (e' + 1074)) as Hpe by (apply pow2_pos; lia).
  assert (q * 5629499534213120 <= Z.pos mx * 2 ^ s) as Hqm by lia.
  assert (2 ^ s * 2 ^ (e' + 1074) = 2 ^ (ex + 1074) * 2 ^ 47) as Hpow.
  { rewrite <- !Z.pow_add_r by lia. f_equal. unfold s. lia. }
  assert (q * 5629499534213120 * 2 ^ (e' + 1074) <= Z.pos mx * 2 ^ s * 2 ^ (e' + 1074)) as H1.
  { apply Z.mul_le_mono_nonneg_r; lia. }
  rewrite <- (Z.mul_assoc (Z.pos mx)), Hpow in H1.
  change 5629499534213120 with (40 * 2 ^ 47) in H1.
  assert (0 < 2 ^ 47) by (apply pow2_pos; lia).
  assert (q * 2 ^ (e' + 1074) * 40 * 2 ^ 47 <= z * 2 ^ 1074 * 2 ^ 47) as Hall by nia.
  by apply Z.mul_le_mono_pos_r in Hall.
Qed.

Lemma SFdiv_40_at_most x z :
  SF_at_most x z -> z < 2 ^ 53 ->
  SF_at_most (SF64div x (S754_finite false 5629499534213120 (-47))) (z / 40 + 1).
Proof.
  intros Hx Hz. pose proof (at_most_nonneg _ _ Hx) as Hz0.
  assert (0 <= z / 40) as Hdiv by (apply Z.div_pos; lia).
  destruct x as [sx| | |[] mx ex]; simpl in Hx; try done; [simpl; lia|].
  destruct Hx as [Hex Hx]. unfold SF64div, SFdiv.
  destruct (div_core_40 mx ex z Hex Hx Hz) as (q & e' & l & -> & Hq & He' & Hb).
  simpl xorb.
  assert (z / 40 + 1 < 2 ^ 53) as Hsmall.
  { change (2 ^ 53) with 9007199254740992 in *.
    assert (z / 40 <= z) by (apply Z.div_le_upper_bound; lia).
    destruct (Z.eq_dec z 0) as [Hz'|Hz']; [by rewrite Hz'|].
    assert (z / 40 < z) by (apply Z.div_lt; lia). lia. }
  apply (binary_round_aux_at_most _ _ _ 1074); try lia.
  - assert (q * 2 ^ (e' + 1074) < (z / 40 + 1) * 2 ^ 1074) as Hlt.
    { assert (0 < 2 ^ 1074) by (apply pow2_pos; lia).
      pose proof (Z.mul_succ_div_gt z 40 ltac:(lia)) as Hgt.
      assert (z * 2 ^ 1074 < 40 * (z / 40 + 1) * 2 ^ 1074) by nia. lia. }
    unfold shr_under.
    destruct l as [|[]]; cbn [shr_record_of_loc shr_r shr_s shr_m orb]; lia.
Qed.

End SFOps.

(** The order of two numbers and their bounds. *)
Module SFCompare.
Import SFBound SFOps.
Local Open Scope Z_scope.

Lemma valid_exponent s m e :
  valid_binary (S754_finite s m e) = true -> -1074 <= e.
Proof.
  unfold SpecFloat.valid_binary, bounded, canonical_mantissa.
  intros [Hc _]%andb_prop. apply Z.eqb_eq in Hc.
  pose proof (fexp_emin (Z.pos (digits2_pos m) + e)). lia.
Qed.

(** From the order of two numbers to a bound of the smaller. *)
Lemma at_most_of_order m e mc ec z :
  valid_binary (S754_finite false m e) = true ->
  2 ^ 52 <= Z.pos mc -> -1074 <= ec ->
  Z.pos mc * 2 ^ (ec + 1074) <= z * 2 ^ 1074 ->
  e < ec \/ (e = ec /\ Z.pos m <= Z.pos mc) ->
  SF_at_most (S754_finite false m e) z.
Proof.
  intros Hv Hmc Hec Hc Hord. pose proof (valid_exponent _ _ _ Hv) as He.
  pose proof (SFInt.mantissa_bound _ _ _ Hv) as Hm.
  split; [done|]. etransitivity; [|exact Hc].
  assert (0 < 2 ^ (e + 1074)) by (apply pow2_pos; lia).
  destruct Hord as [Hlt|[-> Hle]]; [|apply Z.mul_le_mono_nonneg_r; lia].
  assert (2 * 2 ^ (e + 1074) <= 2 ^ (ec + 1074)) as Hpow.
  { change 2 with (2 ^ 1) at 1. rewrite <- Z.pow_add_r by lia.
    apply Z.pow_le_mono_r; lia. }
  change (2 ^ 53) with (2 * 2 ^ 52) in Hm.
  assert (0 < 2 ^ 52) by (apply pow2_pos; lia). nia.
Qed.

Lemma order_of_leb m e mc ec :
  SFleb (S754_finite false m e) (S754_finite false mc ec) = true ->
  e < ec \/ (e = ec /\ Z.pos m <= Z.pos mc).
Proof.
  unfold SFleb, SFcompare. change (Pos.compare_cont Eq) with Pos.compare.
  destruct (Z.compare_spec e ec) as [->|Hlt|Hgt]; [|by left|done].
  destruct (Pos.compare_spec m mc) as [->|Hlt|Hgt]; [right; lia|right; lia|done].
Qed.

Lemma order_of_not_ltb m e mc ec :
  SFltb (S754_finite false mc ec) (S754_finite false m e) = false ->
  e < ec \/ (e = ec /\ Z.pos m <= Z.pos mc).
Proof.
  unfold SFltb, SFcompare. change (Pos.compare_cont Eq) with Pos.compare.
  destruct (Z.compare_spec ec e) as [->|Hlt|Hgt]; [|done|by left].
  destruct (Pos.compare_spec mc m) as [->|Hlt|Hgt]; [right; lia|done|right; lia].
Qed.

Lemma leb_of_order m e mc ec :
  e < ec \/ (e = ec /\ Z.pos m <= Z.pos mc) ->
  SFleb (S754_finite false m e) (S754_finite false mc ec) = true.
Proof.
  intros Hord. unfold SFleb, SFcompare. change (Pos.compare_cont Eq) with Pos.compare.
  destruct (Z.compare_spec e ec) as [->|Hlt|Hgt]; [|done|lia].
  destruct (Pos.compare_spec m mc) as [->|Hlt|Hgt]; [done|done|lia].
Qed.

(** And back: a number with an exponent above [ec] is at least
    [2^52 * 2^(ec + 1)]. *)
Lemma order_of_at_most m e mc ec :
  valid_binary (S754_finite false m e) = true ->
  -1074 <= ec -> Z.pos mc = 2 ^ 52 ->
  Z.pos m * 2 ^ (e + 1074) <= Z.pos mc * 2 ^ (ec + 1074) ->
  e < ec \/ (e = ec /\ Z.pos m <= Z.pos mc).
Proof.
  intros Hv Hec Hmc H. pose proof (valid_exponent _ _ _ Hv) as He.
  assert (0 < 2 ^ (e + 1074)) as Hpos by (apply pow2_pos; lia).
  assert (0 < 2 ^ (ec + 1074)) as Hpos' by (apply pow2_pos; lia).
  assert (0 < 2 ^ 52) as Hpos52 by (apply pow2_pos; lia).
  destruct (Z_lt_ge_dec e ec) as [|Hge]; [by left|right].
  unfold SpecFloat.valid_binary, bounded, canonical_mantissa in Hv.
  apply andb_prop in Hv as [Hc _]. apply Z.eqb_eq in Hc.
  assert (e = -1074 \/ Z.pos (digits2_pos m) = 53) as [->|Hd].
  { unfold fexp, SpecFloat.emin, prec, emax in Hc. lia. }
  { assert (ec = -1074) as -> by lia. split; [done|].
    by apply Z.mul_le_mono_pos_r in H. }
  pose proof (digits2_lower m) as Hlow. rewrite Hd in Hlow.
  replace (53 - 1) with 52 in Hlow by lia. rewrite Hmc in *.
  assert (2 ^ (e + 1074) <= 2 ^ (ec + 1074)) as Hexp by nia.
  apply Z.pow_le_mono_r_iff in Hexp; [|lia|lia].
  assert (e = ec) as -> by lia. split; [done|].
  by apply Z.mul_le_mono_pos_r in H.
Qed.

End SFCompare.

(** ** Bounds of JavaScript numbers *)

Module JSBound.
Import SFBound SFOps SFCompare.

Lemma mul_at_most x y zx zy :
  SF_at_most (Prim2SF x) zx -> SF_at_most (Prim2SF y) zy -> (zx * zy < 2 ^ 53)%Z ->
  SF_at_most (Prim2SF (x * y)) (zx * zy).
Proof. rewrite mul_spec. apply SFmul_at_most. Qed.

Lemma add_at_most x y zx zy :
  SF_at_most (Prim2SF x) zx -> SF_at_most (Prim2SF y) zy -> (zx + zy < 2 ^ 53)%Z ->
  SF_at_most (Prim2SF (x + y)) (zx + zy).
Proof. rewrite add_spec. apply SFadd_at_most. Qed.

Lemma div_40_at_most x z :
  SF_at_most (Prim2SF x) z -> (z < 2 ^ 53)%Z ->
  SF_at_most (Prim2SF (x / 40)) (z / 40 + 1).
Proof. rewrite div_spec. apply SFdiv_40_at_most. Qed.

Lemma at_most_constant c m e z :
  Prim2SF c = S754_finite false m e -> (-1074 <=? e)%Z = true ->
  (Z.pos m * 2 ^ (e + 1074) <=? z * 2 ^ 1074)%Z = true ->
  SF_at_most (Prim2SF c) z.
Proof. intros -> He H. split; [by apply Z.leb_le|by apply Z.leb_le]. Qed.

Lemma at_most_2 : SF_at_most (Prim2SF 2) 2.
Proof. by eapply at_most_constant; [vm_compute; reflexivity|vm_compute..]. Qed.

Lemma at_most_5 : SF_at_most (Prim2SF 5) 5.
Proof. by eapply at_most_constant; [vm_compute; reflexivity|vm_compute..]. Qed.

Lemma at_most_60 : SF_at_most (Prim2SF 60) 60.
Proof. by eapply at_most_constant; [vm_compute; reflexivity|vm_compute..]. Qed.

Lemma at_most_6371 : SF_at_most (Prim2SF 6371) 6371.
Proof. by eapply at_most_constant; [vm_compute; reflexivity|vm_compute..]. Qed.

Lemma at_most_zero : SF_at_most (Prim2SF 0) 0.
Proof. vm_compute. discriminate. Qed.

Lemma at_most_leb_zero x z : SF_at_most (Prim2SF x) z -> (0 <=? x) = true.
Proof. rewrite JSSign.leb_zero. by destruct (Prim2SF x) as [[]|[]| |[] ? ?]. Qed.

Lemma at_most_isFinite x z : SF_at_most (Prim2SF x) z -> Number_isFinite x = true.
Proof. unfold Number_isFinite. by destruct (Prim2SF x) as [[]|[]| |[] ? ?]. Qed.

(** A number between [0] and [2^48]. *)
Lemma at_most_of_leb x :
  (0 <=? x) = true -> (x <=? 0x1p48) = true -> SF_at_most (Prim2SF x) (2 ^ 48).
Proof.
  rewrite JSSign.leb_zero, FloatAxioms.leb_spec. intros H0 Hle.
  pose proof (Prim2SF_valid x) as Hv.
  change (Prim2SF 0x1p48) with (S754_finite false 4503599627370496 (-4)) in Hle.
  destruct (Prim2SF x) as [[]|[]| |[] m e]; try done.
  apply (at_most_of_order m e 4503599627370496 (-4)); [done|done|done|done|].
  by apply order_of_leb.
Qed.

Lemma leb_of_at_most x z :
  SF_at_most (Prim2SF x) z -> (z <= 2 ^ 48)%Z -> (x <=? 0x1p48) = true.
Proof.
  intros H Hz. apply (at_most_mono _ _ (2 ^ 48)) in H; [|done].
  rewrite FloatAxioms.leb_spec. pose proof (Prim2SF_valid x) as Hv.
  change (Prim2SF 0x1p48) with (S754_finite false 4503599627370496 (-4)).
  destruct (Prim2SF x) as [[]|[]| |[] m e]; try done.
  destruct H as [He H]. apply leb_of_order.
  apply order_of_at_most; [done|done|reflexivity|].
  etransitivity; [exact H|]. apply Z.leb_le. vm_compute. reflexivity.
Qed.

(** An angle between [0] and [Math.PI] is at most [4]. *)
Lemma at_most_of_angle a :
  (a <? 0) = false -> (Math_PI <? a) = false -> (a <? infinity) = true ->
  SF_at_most (Prim2SF a) 4.
Proof.
  rewrite JSSign.ltb_zero, !FloatAxioms.ltb_spec. intros H0 Hpi Hnan.
  pose proof (Prim2SF_valid a) as Hv.
  change (Prim2SF Math_PI) with (S754_finite false 7074237752028440 (-51)) in Hpi.
  destruct (Prim2SF a) as [[]|[]| |[] m e]; try done.
  apply (at_most_of_order m e 7074237752028440 (-51)); [done|done|done| |].
  - apply Z.leb_le. vm_compute. reflexivity.
  - by apply order_of_not_ltb.
Qed.

Lemma Number_of_nat_at_most n :
  (Z.of_nat n < 2 ^ 53)%Z -> SF_at_most (Prim2SF (Number_of_nat n)) (Z.of_nat n).
Proof.
  intros Hn. unfold Number_of_nat, Number_of_Z.
  destruct (Z.of_nat n) as [|p|p] eqn:E; [vm_compute; discriminate| |lia].
  simpl binary_normalize.
  pose proof (binary_round_at_most p 0 (Z.pos p) ltac:(lia) ltac:(lia) Hn) as Hb.
  destruct (SFInt.binary_round_small p Hn) as (m & e & Heq & Hv & _).
  rewrite Heq in *. by rewrite Prim2SF_SF2Prim.
Qed.

(** The sum under the rounding of the estimate is finite. *)
Lemma estimate_argument_finite d n :
  SF_at_most (Prim2SF d) (2 ^ 48) -> (Z.of_nat n < 2 ^ 32)%Z ->
  Number_isFinite (d / 40 * 60 + Number_of_nat n * 5) = true.
Proof.
  intros Hd Hn.
  change (2 ^ 32)%Z with 4294967296%Z in Hn.
  pose proof (div_40_at_most d _ Hd ltac:(done)) as H1.
  change (2 ^ 48 / 40 + 1)%Z with 7036874417767%Z in H1.
  pose proof (mul_at_most _ _ _ _ H1 at_most_60 ltac:(done)) as H2.
  assert (Z.of_nat n < 2 ^ 53)%Z as Hn' by (change (2 ^ 53)%Z with 9007199254740992%Z; lia).
  pose proof (mul_at_most _ _ _ _ (Number_of_nat_at_most n Hn') at_most_5) as H3.
  assert (Z.of_nat n * 5 < 2 ^ 53)%Z as Hn5
    by (change (2 ^ 53)%Z with 9007199254740992%Z; lia).
  specialize (H3 Hn5).
  eapply at_most_isFinite, add_at_most; [exact H2|exact H3|].
  change (2 ^ 53)%Z with 9007199254740992%Z. lia.
Qed.

End JSBound.

(* ================================================================== *)
(** * Lists of hops *)
(* ================================================================== *)

Lemma hops_snoc {A : Type} (d : A -> A -> float) (l : list A) (a b : A) :
  last l = Some a -> hops d (l ++ [b]) = hops d l ++ [d a b].
Proof.
  induction l as [|x [|y l] IH]; intros Hlast; simplify_eq/=; [done|].
  f_equal. apply IH. done.
Qed.

Lemma sum_left_snoc ds x : sum_left (ds ++ [x]) = sum_left ds + x.
Proof. unfold sum_left. by rewrite foldl_snoc. Qed.

(* ================================================================== *)
(** * The inner loop: the nearest unvisited stop *)
(* ================================================================== *)

Section Scan.
Variable distanceMatrix : list (list float).
Variable visited : gset nat.
Variable currentIndex : nat.

Local Abbreviation d := (matrix_get distanceMatrix currentIndex).
Local Abbreviation scanned_to := (scanned distanceMatrix visited currentIndex).

Lemma scanned_step m best :
  scanned_to m best ->
  scanned_to (S m) (scan_step distanceMatrix visited currentIndex best m).
Proof.
  unfold scanned, scan_step. destruct best as [[j|] dd]; simpl.
  - intros (Hj & Hjv & -> & Hfin & Hlo & Hhi).
    destruct (decide (m ∈ visited)) as [Hm|Hm].
    { refine (conj _ (conj Hjv (conj eq_refl (conj Hfin (conj Hlo _))))); [lia|].
      intros i Hi Hiv. destruct (decide (i = m)) as [->|]; [done|]. apply Hhi; [lia|done]. }
    destruct (d m <? d j) eqn:E; simpl.
    + refine (conj _ (conj Hm (conj eq_refl (conj _ (conj _ _))))).
      * lia.
      * apply (JSNumber.leb_ltb_trans _ (d j)); [by apply JSNumber.ltb_leb|done].
      * intros i Hi Hiv.
        destruct (d i <=? d m) eqn:E'; [|reflexivity].
        pose proof (JSNumber.leb_ltb_trans _ _ _ E' E) as Hlt.
        destruct (decide (i < j)%nat) as [Hij|Hij].
        { apply JSNumber.ltb_leb in Hlt. rewrite (Hlo i Hij Hiv) in Hlt. done. }
        destruct (decide (i = j)) as [->|Hne].
        { rewrite JSNumber.ltb_irrefl in Hlt. done. }
        rewrite (Hhi i) in Hlt; [done|lia|done].
      * intros i Hi. lia.
    + refine (conj _ (conj Hjv (conj eq_refl (conj Hfin (conj Hlo _))))); [lia|].
      intros i Hi Hiv. destruct (decide (i = m)) as [->|]; [done|]. apply Hhi; [lia|done].
  - intros [-> Hnone].
    destruct (decide (m ∈ visited)) as [Hm|Hm].
    { split; [done|]. intros i Hi Hiv.
      destruct (decide (i = m)) as [->|]; [done|]. apply Hnone; [lia|done]. }
    destruct (d m <? infinity) eqn:E; simpl.
    + refine (conj _ (conj Hm (conj eq_refl (conj E (conj _ _))))).
      * lia.
      * intros i Hi Hiv.
        destruct (d i <=? d m) eqn:E'; [|reflexivity].
        pose proof (JSNumber.leb_ltb_trans _ _ _ E' E) as Hlt.
        rewrite Hnone in Hlt; [done|lia|done].
      * intros i Hi. lia.
    + split; [done|]. intros i Hi Hiv.
      destruct (decide (i = m)) as [->|]; [done|]. apply Hnone; [lia|done].
Qed.

Lemma findNearest_S n :
  findNearest distanceMatrix (S n) visited currentIndex =
  scan_step distanceMatrix visited currentIndex
    (findNearest distanceMatrix n visited currentIndex) n.
Proof. unfold findNearest. rewrite seq_S, foldl_snoc. reflexivity. Qed.

Lemma findNearest_scanned n :
  scanned_to n (findNearest distanceMatrix n visited currentIndex).
Proof.
  induction n as [|n IH].
  - split; [reflexivity|]. intros i Hi. lia.
  - rewrite findNearest_S. by apply scanned_step.
Qed.

End Scan.

Lemma while_loop_stuck distanceMatrix n st :
  loop_body distanceMatrix n st = st -> (size (st_visited st) < n)%nat ->
  forall fuel, while_loop distanceMatrix n fuel st = None.
Proof.
  intros Hfix Hlt fuel. induction fuel as [|fuel IH]; simpl;
    rewrite decide_True by done; [done|]. by rewrite Hfix.
Qed.

Lemma initial_state_size : size (st_visited initial_state) = 1%nat.
Proof. exact (size_singleton (C:=gset nat) 0%nat). Qed.

(* ================================================================== *)
(** * Routes given by identifiers *)
(* ================================================================== *)

Lemma find_stop_None locations k :
  find_stop locations k = None <-> k ∉ id <$> locations.
Proof.
  induction locations as [|l rest IH]; simpl.
  - split; [intros _; apply not_elem_of_nil|done].
  - rewrite not_elem_of_cons, <- IH.
    destruct (find_stop rest k); [split; [done|by intros [_ ?]]|].
    destruct (decide (id l = k)) as [Heq|Hne].
    + split; [done|]. by intros [Hk _].
    + split; [|done]. intros _. split; [congruence|done].
Qed.

Lemma find_stop_Some locations k l :
  find_stop locations k = Some l -> l ∈ locations /\ id l = k.
Proof.
  induction locations as [|l' rest IH]; simpl; [done|].
  destruct (find_stop rest k) as [l''|].
  - intros ?; simplify_eq. destruct IH as [Hin Hid]; [done|]. split; [by right|done].
  - destruct (decide (id l' = k)); intros ?; simplify_eq. split; [left|done].
Qed.

Lemma find_stop_NoDup locations i l :
  NoDup (id <$> locations) -> locations !! i = Some l ->
  find_stop locations (id l) = Some l.
Proof.
  revert i. induction locations as [|l' rest IH]; intros i Hnd Hi; [done|].
  rewrite fmap_cons in Hnd. apply NoDup_cons in Hnd as [Hnotin Hnd]. simpl.
  destruct i as [|i]; simplify_eq/=.
  - apply find_stop_None in Hnotin. rewrite Hnotin. by rewrite decide_True.
  - by rewrite (IH i Hnd Hi).
Qed.

Lemma locationMap_foldl (m : gmap string Location) rest k :
  foldl (fun m loc => <[id loc := loc]> m) m rest !! k =
  match find_stop rest k with Some l => Some l | None => m !! k end.
Proof.
  revert m. induction rest as [|l rest IH]; intros m; simpl; [done|].
  rewrite IH. destruct (find_stop rest k); [done|].
  destruct (decide (id l = k)) as [<-|Hne].
  - by rewrite lookup_insert_eq.
  - by rewrite lookup_insert_ne.
Qed.

Lemma locationMap_lookup locations k :
  locationMap locations !! k = find_stop locations k.
Proof.
  unfold locationMap. rewrite locationMap_foldl, lookup_empty.
  by destruct (find_stop locations k).
Qed.

Section Routes.
Variables (Math_sin Math_cos : float -> float).
Variable Math_atan2 : float -> float -> float.
Variable locations : list Location.

Local Abbreviation dist := (distanceBetween Math_sin Math_cos Math_atan2).
Local Abbreviation route_loop :=
  (route_step Math_sin Math_cos Math_atan2 locations).
Local Abbreviation matched :=
  (matched_hops Math_sin Math_cos Math_atan2 (find_stop locations)).

Lemma route_loop_hops pre sequence acc :
  foldl (route_loop (pre ++ sequence)) acc (seq (length pre) (length sequence - 1)) =
  foldl add acc (matched sequence).
Proof.
  revert pre acc. induction sequence as [|a [|b t] IH]; intros pre acc; [done..|].
  replace (length (a :: b :: t) - 1)%nat with (S (length (b :: t) - 1)) by (simpl; lia).
  rewrite <- cons_seq. cbn [foldl].
  assert (route_loop (pre ++ a :: b :: t) acc (length pre) =
          match find_stop locations a, find_stop locations b with
          | Some loc1, Some loc2 => acc + dist loc1 loc2
          | _, _ => acc
          end) as ->.
  { unfold route_step. rewrite list_lookup_middle by done.
    replace (pre ++ a :: b :: t) with ((pre ++ [a]) ++ b :: t) by by rewrite <- app_assoc.
    rewrite list_lookup_middle by (rewrite length_app; simpl; lia).
    simpl. by rewrite !locationMap_lookup. }
  replace (pre ++ a :: b :: t) with ((pre ++ [a]) ++ b :: t) by by rewrite <- app_assoc.
  replace (S (length pre)) with (length (pre ++ [a])) by (rewrite length_app; simpl; lia).
  rewrite IH. cbn [matched_hops].
  destruct (find_stop locations a), (find_stop locations b); reflexivity.
Qed.

Lemma calculateRouteDistance_hops sequence :
  calculateRouteDistance Math_sin Math_cos Math_atan2 locations sequence =
  round2 (sum_left (matched sequence)).
Proof.
  unfold calculateRouteDistance. destruct (decide (length sequence <= 1)%nat) as [Hle|Hgt].
  - destruct sequence as [|a [|b t]]; simpl in Hle; try lia; reflexivity.
  - unfold round2, sum_left. by rewrite <- (route_loop_hops [] sequence 0).
Qed.

Lemma matched_hops_path path :
  NoDup (id <$> locations) -> path ⊆ locations ->
  matched (id <$> path) = hops dist path.
Proof.
  intros Hnd. induction path as [|a [|b t] IH]; intros Hsub; [done..|].
  assert (find_stop locations (id a) = Some a) as Ha.
  { destruct (list_elem_of_lookup_1 locations a) as [i Hi]; [apply Hsub; left|].
    by apply (find_stop_NoDup _ i). }
  assert (find_stop locations (id b) = Some b) as Hb.
  { destruct (list_elem_of_lookup_1 locations b) as [i Hi]; [apply Hsub; right; left|].
    by apply (find_stop_NoDup _ i). }
  change (hops dist (a :: b :: t)) with (dist a b :: hops dist (b :: t)).
  rewrite <- IH by (intros x Hx; apply Hsub; by right).
  rewrite !fmap_cons. cbn [matched_hops]. by rewrite Ha, Hb.
Qed.

End Routes.

(* ================================================================== *)
(** * The distance matrix and the greedy loop *)
(* ================================================================== *)

Section Sequencer.
Variables (Math_sin Math_cos : float -> float).
Variable Math_atan2 : float -> float -> float.
Variable locations : list Location.

Local Abbreviation dist := (distanceBetween Math_sin Math_cos Math_atan2).
Local Abbreviation n := (length locations).
Local Abbreviation dm :=
  (calculateDistanceMatrix Math_sin Math_cos Math_atan2 locations).
Local Abbreviation body := (loop_body dm n).
Local Abbreviation optimize :=
  (optimizeRouteNearestNeighbor Math_sin Math_cos Math_atan2).
Local Abbreviation inv := (loop_inv Math_sin Math_cos Math_atan2 locations).
Local Abbreviation well_formed :=
  (distances_below_infinity Math_sin Math_cos Math_atan2 locations).

Lemma matrix_lookup i j li lj :
  locations !! i = Some li -> locations !! j = Some lj ->
  dm !! i ≫= (.!! j) = Some (if decide (i = j) then 0 else dist li lj).
Proof.
  intros Hi Hj. unfold calculateDistanceMatrix.
  rewrite list_lookup_imap, Hi. simpl.
  rewrite list_lookup_imap, Hj. reflexivity.
Qed.

Lemma matrix_get_ne i j li lj :
  locations !! i = Some li -> locations !! j = Some lj -> i <> j ->
  matrix_get dm i j = dist li lj.
Proof.
  intros Hi Hj Hne. unfold matrix_get. rewrite (matrix_lookup _ _ _ _ Hi Hj).
  by rewrite decide_False.
Qed.

Lemma initial_state_inv : (0 < n)%nat -> inv initial_state.
Proof.
  intros Hn. split; simpl.
  - set_solver.
  - apply NoDup_singleton.
  - intros i ->%list_elem_of_singleton. done.
  - done.
  - done.
  - done.
Qed.

Lemma loop_inv_size st : inv st -> size (st_visited st) = length (st_sequence st).
Proof. intros [-> Hnd _ _ _ _]. by apply size_list_to_set. Qed.

Lemma loop_inv_in_range st : inv st -> st_sequence st ⊆+ seq 0 n.
Proof.
  intros Hinv. apply NoDup_submseteq; [apply Hinv|].
  intros i Hi. apply elem_of_seq. pose proof (inv_bound _ _ _ _ _ Hinv i Hi). lia.
Qed.

Lemma loop_body_selected st k dd :
  findNearest dm n (st_visited st) (st_currentIndex st) = (Some k, dd) ->
  body st =
    {| st_visited := st_visited st ∪ {[ k ]};
       st_sequence := st_sequence st ++ [k];
       st_currentIndex := k;
       st_totalDistance := st_totalDistance st + dd |}.
Proof. unfold loop_body. by intros ->. Qed.

Lemma loop_body_stuck st dd :
  findNearest dm n (st_visited st) (st_currentIndex st) = (None, dd) -> body st = st.
Proof. unfold loop_body. by intros ->. Qed.

Lemma loop_body_inv st : inv st -> inv (body st).
Proof.
  intros Hinv.
  pose proof (findNearest_scanned dm (st_visited st) (st_currentIndex st) n) as Hscan.
  destruct (findNearest dm n (st_visited st) (st_currentIndex st)) as [[k|] dd] eqn:E.
  2: { by rewrite (loop_body_stuck _ _ E). }
  rewrite (loop_body_selected _ _ _ E).
  destruct Hscan as (Hk & Hkv & -> & _).
  destruct Hinv as [Hv Hnd Hb Hh Hl Ht]. split; simpl.
  - by rewrite list_to_set_snoc_L, Hv.
  - apply NoDup_app. split_and!; [done| |apply NoDup_singleton].
    intros i Hi ->%list_elem_of_singleton. apply Hkv. rewrite Hv. by apply elem_of_list_to_set.
  - intros i [Hi| ->%list_elem_of_singleton]%elem_of_app; auto.
  - destruct (st_sequence st); simplify_eq/=; done.
  - apply last_snoc.
  - rewrite (hops_snoc _ _ _ _ Hl), sum_left_snoc, Ht. reflexivity.
Qed.

Lemma while_loop_inv fuel st st' :
  inv st -> while_loop dm n fuel st = Some st' ->
  inv st' /\ ~ (size (st_visited st') < n)%nat.
Proof.
  revert st. induction fuel as [|fuel IH]; intros st Hinv; simpl;
    destruct (decide (size (st_visited st) < n)%nat) as [Hlt|Hge]; intros H; simplify_eq; auto.
  apply (IH (body st)); [by apply loop_body_inv|done].
Qed.

Lemma loop_inv_complete st :
  inv st -> ~ (size (st_visited st) < n)%nat -> st_sequence st ≡ₚ seq 0 n.
Proof.
  intros Hinv Hge. rewrite (loop_inv_size _ Hinv) in Hge.
  apply submseteq_length_Permutation; [by apply loop_inv_in_range|].
  rewrite length_seq. lia.
Qed.

Lemma loop_inv_current st :
  inv st -> st_currentIndex st ∈ st_visited st /\ (st_currentIndex st < n)%nat.
Proof.
  intros Hinv. pose proof (last_Some_elem_of _ _ (inv_last _ _ _ _ _ Hinv)) as Hin.
  split; [|by apply (inv_bound _ _ _ _ _ Hinv)].
  rewrite (inv_visited _ _ _ _ _ Hinv). by apply elem_of_list_to_set.
Qed.

Lemma exists_unvisited st :
  inv st -> (size (st_visited st) < n)%nat ->
  exists i, (i < n)%nat /\ i ∉ st_visited st.
Proof.
  intros Hinv Hlt.
  destruct (decide (Exists (fun i => i ∉ st_visited st) (seq 0 n))) as [Hex|Hall].
  - apply Exists_exists in Hex as (i & Hi%elem_of_seq & Hiv). exists i. split; [lia|done].
  - exfalso. apply not_Exists_Forall in Hall; [|apply _].
    rewrite (loop_inv_size _ Hinv) in Hlt.
    assert (seq 0 n ⊆+ st_sequence st) as Hsub.
    { apply NoDup_submseteq; [apply NoDup_seq|].
      intros i Hi. rewrite Forall_forall in Hall. specialize (Hall i Hi). simpl in Hall.
      apply dec_stable in Hall. rewrite (inv_visited _ _ _ _ _ Hinv) in Hall.
      by apply elem_of_list_to_set in Hall. }
    apply submseteq_length in Hsub. rewrite length_seq in Hsub. lia.
Qed.

Lemma loop_progress st :
  well_formed -> inv st -> (size (st_visited st) < n)%nat ->
  exists k dd, findNearest dm n (st_visited st) (st_currentIndex st) = (Some k, dd).
Proof.
  intros Hwf Hinv Hlt.
  pose proof (findNearest_scanned dm (st_visited st) (st_currentIndex st) n) as Hscan.
  destruct (findNearest dm n (st_visited st) (st_currentIndex st)) as [[k|] dd]; [by eauto|].
  exfalso. destruct Hscan as [_ Hnone].
  destruct (exists_unvisited _ Hinv Hlt) as (i & Hi & Hiv).
  destruct (loop_inv_current _ Hinv) as [Hcv Hcn].
  destruct (lookup_lt_is_Some_2 locations _ Hcn) as [lc Hlc].
  destruct (lookup_lt_is_Some_2 locations _ Hi) as [li Hli].
  assert (st_currentIndex st <> i) as Hne by (intros Heq; by rewrite Heq in Hcv).
  specialize (Hnone i Hi Hiv).
  rewrite (matrix_get_ne _ _ _ _ Hlc Hli Hne), (Hwf _ _ _ _ Hlc Hli Hne) in Hnone. done.
Qed.

Lemma loop_body_size st :
  well_formed -> inv st -> (size (st_visited st) < n)%nat ->
  size (st_visited (body st)) = S (size (st_visited st)).
Proof.
  intros Hwf Hinv Hlt.
  destruct (loop_progress _ Hwf Hinv Hlt) as (k & dd & E).
  pose proof (findNearest_scanned dm (st_visited st) (st_currentIndex st) n) as Hscan.
  rewrite E in Hscan. destruct Hscan as (_ & Hkv & _).
  rewrite (loop_body_selected _ _ _ E). simpl.
  rewrite size_union by set_solver. rewrite size_singleton. lia.
Qed.

Lemma while_loop_exact fuel st :
  well_formed -> inv st ->
  (n - size (st_visited st) <= fuel)%nat ->
  while_loop dm n fuel st = Some (Nat.iter (n - size (st_visited st)) body st).
Proof.
  intros Hwf. revert st. induction fuel as [|fuel IH]; intros st Hinv Hfuel; simpl;
    destruct (decide (size (st_visited st) < n)%nat) as [Hlt|Hge].
  - lia.
  - by replace (n - size (st_visited st))%nat with 0%nat by lia.
  - pose proof (loop_body_size _ Hwf Hinv Hlt) as Hsz.
    rewrite IH; [|by apply loop_body_inv|lia].
    rewrite Hsz.
    replace (n - size (st_visited st))%nat with (S (n - S (size (st_visited st)))) by lia.
    by rewrite Nat.iter_succ_r.
  - by replace (n - size (st_visited st))%nat with 0%nat by lia.
Qed.

Lemma while_loop_short fuel st :
  well_formed -> inv st ->
  (fuel < n - size (st_visited st))%nat ->
  while_loop dm n fuel st = None.
Proof.
  intros Hwf. revert st. induction fuel as [|fuel IH]; intros st Hinv Hfuel; simpl;
    destruct (decide (size (st_visited st) < n)%nat) as [Hlt|Hge]; try lia; try done.
  pose proof (loop_body_size _ Hwf Hinv Hlt) as Hsz.
  apply IH; [by apply loop_body_inv|lia].
Qed.

Lemma iter_body_size j :
  well_formed -> (j < n)%nat ->
  inv (Nat.iter j body initial_state) /\
  size (st_visited (Nat.iter j body initial_state)) = S j.
Proof.
  intros Hwf. induction j as [|j IH]; intros Hj.
  - split; [by apply initial_state_inv|]. apply initial_state_size.
  - destruct IH as [Hinv Hsz]; [lia|]. simpl. split; [by apply loop_body_inv|].
    rewrite loop_body_size; [lia|done|done|lia].
Qed.

(** ** From positions to stops *)

Lemma stops_at_all : stops_at locations (seq 0 n) = locations.
Proof.
  unfold stops_at. induction locations as [|l ls IH] using rev_ind; [done|].
  rewrite length_app, Nat.add_1_r, seq_S, omap_app. simpl.
  rewrite lookup_app_r, Nat.sub_diag by lia. simpl. f_equal.
  rewrite <- IH at 2. apply list_omap_ext. apply Forall2_same_length_lookup_2; [done|].
  intros i x y [-> Hi]%lookup_seq [-> _]%lookup_seq. simpl. by rewrite lookup_app_l.
Qed.

Lemma stops_at_complete idxs : idxs ≡ₚ seq 0 n -> stops_at locations idxs ≡ₚ locations.
Proof. intros Hperm. rewrite <- stops_at_all at 2. unfold stops_at. by rewrite Hperm. Qed.

Lemma stops_at_head idxs :
  locations <> [] -> head idxs = Some 0%nat ->
  head (stops_at locations idxs) = head locations.
Proof.
  intros Hne. destruct idxs as [|i idxs]; intros H; simplify_eq/=.
  unfold stops_at. by destruct locations.
Qed.

Lemma ids_of_in_range idxs :
  (forall i, i ∈ idxs -> (i < n)%nat) ->
  ids_of locations idxs = Some (id <$> stops_at locations idxs).
Proof.
  unfold ids_of, stops_at. induction idxs as [|i idxs IH]; intros Hb; [done|].
  destruct (lookup_lt_is_Some_2 locations i) as [li Hli]; [apply Hb; left|].
  simpl. rewrite Hli. simpl. rewrite IH by (intros j Hj; apply Hb; by right). done.
Qed.

Lemma hops_matrix idxs :
  NoDup idxs -> (forall i, i ∈ idxs -> (i < n)%nat) ->
  hops (matrix_get dm) idxs = hops dist (stops_at locations idxs).
Proof.
  unfold stops_at. induction idxs as [|a [|b t] IH]; intros Hnd Hb; [done| |].
  - simpl. by destruct (locations !! a).
  - destruct (lookup_lt_is_Some_2 locations a) as [la Hla]; [apply Hb; left|].
    destruct (lookup_lt_is_Some_2 locations b) as [lb Hlb]; [apply Hb; right; left|].
    assert (a <> b) as Hne.
    { intros ->. apply NoDup_cons in Hnd as [Hnd _]. apply Hnd. left. }
    specialize (IH (NoDup_cons_1_2 _ _ Hnd) (fun j Hj => Hb j (list_elem_of_further _ _ _ Hj))).
    simpl in *. rewrite Hla, Hlb in *. simpl. rewrite IH.
    by rewrite (matrix_get_ne _ _ _ _ Hla Hlb Hne).
Qed.

(** ** The function as a whole *)

Lemma optimize_loop fuel :
  (2 <= n)%nat ->
  optimize fuel locations = result_of locations <$> while_loop dm n fuel initial_state.
Proof.
  intros Hn. assert (0 < n)%nat as Hpos by lia.
  transitivity
    (st ← while_loop dm n fuel initial_state;
     optimizedSequence ← ids_of locations (st_sequence st);
     Some {| sequence := optimizedSequence;
             totalDistance := round2 (st_totalDistance st);
             estimatedDuration :=
               calculateEstimatedDuration (st_totalDistance st) (Number_of_nat n);
             algorithm := "nearest_neighbor" |}).
  { clear Hpos. destruct locations as [|? [|? ?]]; simpl in *; try lia; reflexivity. }
  destruct (while_loop dm n fuel initial_state) as [st|] eqn:E; [|done]. simpl.
  destruct (while_loop_inv _ _ _ (initial_state_inv Hpos) E) as [Hinv _].
  rewrite (ids_of_in_range _ (inv_bound _ _ _ _ _ Hinv)). done.
Qed.

Lemma optimize_Some fuel r :
  (2 <= n)%nat -> optimize fuel locations = Some r ->
  exists st, while_loop dm n fuel initial_state = Some st /\ r = result_of locations st /\
    inv st /\ st_sequence st ≡ₚ seq 0 n.
Proof.
  intros Hn. rewrite (optimize_loop _ Hn). intros H.
  assert (0 < n)%nat as Hpos by lia.
  destruct (while_loop dm n fuel initial_state) as [st|] eqn:E; simplify_eq/=.
  destruct (while_loop_inv _ _ _ (initial_state_inv Hpos) E) as [Hinv Hge].
  exists st. split_and!; [done..|]. by apply loop_inv_complete.
Qed.

Lemma optimize_returns :
  well_formed ->
  exists r, forall fuel, (n - 1 <= fuel)%nat -> optimize fuel locations = Some r.
Proof.
  intros Hwf. destruct (decide (2 <= n)%nat) as [Hn|Hn].
  - exists (result_of locations (Nat.iter (n - 1) body initial_state)). intros fuel Hfuel.
    assert (0 < n)%nat as Hpos by lia.
    rewrite (optimize_loop _ Hn).
    rewrite (while_loop_exact fuel initial_state Hwf (initial_state_inv Hpos));
      rewrite initial_state_size; [done|lia].
  - clear Hwf. destruct locations as [|? [|? ?]]; simpl in *; [eauto|eauto|lia].
Qed.

(** ** Distances are not negative *)

Lemma calculateDistance_not_negative lat1 lon1 lat2 lon2 :
  arctangent_sign Math_atan2 ->
  (calculateDistance Math_sin Math_cos Math_atan2 lat1 lon1 lat2 lon2 <? 0) = false.
Proof.
  intros Hatan. unfold calculateDistance. cbv zeta.
  set (a := Math_sin _ * Math_sin _ + _).
  apply JSSign.mul_not_negative; [reflexivity|].
  apply JSSign.mul_not_negative; [reflexivity|].
  apply Hatan; unfold Math_sqrt; try apply JSSign.sqrt_not_negative.
  intros [Ha H1]. apply JSSign.sqrt_neg_zero in Ha. rewrite Ha in H1.
  apply (f_equal Prim2SF) in H1. vm_compute in H1. discriminate H1.
Qed.

Lemma loop_body_total_nonneg st :
  arctangent_sign Math_atan2 -> inv st ->
  (0 <=? st_totalDistance st) = true ->
  (0 <=? st_totalDistance (body st)) = true.
Proof.
  intros Hatan Hinv Htot.
  pose proof (findNearest_scanned dm (st_visited st) (st_currentIndex st) n) as Hscan.
  destruct (findNearest dm n (st_visited st) (st_currentIndex st)) as [[k|] dd] eqn:E.
  2: { by rewrite (loop_body_stuck _ _ E). }
  rewrite (loop_body_selected _ _ _ E). simpl.
  destruct Hscan as (Hk & Hkv & Hdd & Hfin & _).
  destruct (loop_inv_current _ Hinv) as [Hcv Hcn].
  destruct (lookup_lt_is_Some_2 locations _ Hcn) as [lc Hlc].
  destruct (lookup_lt_is_Some_2 locations _ Hk) as [lk Hlk].
  assert (st_currentIndex st <> k) as Hne by (intros Heq; by rewrite Heq in Hcv).
  rewrite (matrix_get_ne _ _ _ _ Hlc Hlk Hne) in Hdd.
  apply JSSign.add_nonneg; [done|].
  apply JSSign.below_infinity_nonneg; [|done].
  rewrite Hdd. by apply calculateDistance_not_negative.
Qed.

Lemma while_loop_total_nonneg fuel st st' :
  arctangent_sign Math_atan2 -> inv st ->
  (0 <=? st_totalDistance st) = true ->
  while_loop dm n fuel st = Some st' ->
  (0 <=? st_totalDistance st') = true.
Proof.
  intros Hatan. revert st. induction fuel as [|fuel IH]; intros st Hinv Htot; simpl;
    destruct (decide (size (st_visited st) < n)%nat) as [Hlt|Hge]; intros H; simplify_eq; auto.
  apply (IH (body st)); [by apply loop_body_inv|by apply loop_body_total_nonneg|done].
Qed.

(** ** The properties of the result *)

(** C1. For a non-empty list of stops, the sequence of a result has as
    many entries as there are stops and is a permutation of their
    identifiers; and a result there is, once the distances between the
    stops are all below [Infinity]. *)
Theorem sequence_is_permutation :
  locations <> [] ->
  (forall fuel r, optimize fuel locations = Some r ->
     length (sequence r) = n /\ sequence r ≡ₚ id <$> locations) /\
  (well_formed ->
     exists r, forall fuel, (n - 1 <= fuel)%nat -> optimize fuel locations = Some r).
Proof.
  intros Hne. split; [|apply optimize_returns].
  intros fuel r Hr. destruct (decide (2 <= n)%nat) as [Hn|Hn].
  - destruct (optimize_Some _ _ Hn Hr) as (st & _ & -> & Hinv & Hperm). simpl.
    pose proof (stops_at_complete _ Hperm) as Hp.
    split; [|by rewrite Hp]. by rewrite length_fmap, Hp.
  - destruct locations as [|l0 [|? ?]]; simpl in *; try lia; [done|].
    by simplify_eq/=.
Qed.

(** C2. The sequence of a result starts with the identifier of the first
    stop of the input. *)
Theorem sequence_starts_at_first_stop :
  locations <> [] ->
  (forall fuel r, optimize fuel locations = Some r ->
     head (sequence r) = id <$> head locations) /\
  (well_formed ->
     exists r, forall fuel, (n - 1 <= fuel)%nat -> optimize fuel locations = Some r).
Proof.
  intros Hne. split; [|apply optimize_returns].
  intros fuel r Hr. destruct (decide (2 <= n)%nat) as [Hn|Hn].
  - destruct (optimize_Some _ _ Hn Hr) as (st & _ & -> & Hinv & _). simpl.
    rewrite <- (stops_at_head _ Hne (inv_head _ _ _ _ _ Hinv)).
    by destruct (stops_at locations (st_sequence st)).
  - destruct locations as [|l0 [|? ?]]; simpl in *; try lia; [done|].
    by simplify_eq/=.
Qed.

(** C3. In a step of the greedy loop that selects the stop at position
    [k], no unvisited stop is nearer to the current stop than [k], and
    every unvisited stop at the same distance as [k] comes later in the
    input: the forward scan with its strict comparison keeps the first of
    the nearest. *)
Theorem nearest_tie_goes_to_earliest st k dd lc :
  locations !! st_currentIndex st = Some lc ->
  st_currentIndex st ∈ st_visited st ->
  findNearest dm n (st_visited st) (st_currentIndex st) = (Some k, dd) ->
  exists lk,
    locations !! k = Some lk /\ (k ∉ st_visited st) /\ dd = dist lc lk /\
    body st =
      {| st_visited := st_visited st ∪ {[ k ]};
         st_sequence := st_sequence st ++ [k];
         st_currentIndex := k;
         st_totalDistance := st_totalDistance st + dd |} /\
    forall i li, locations !! i = Some li -> i ∉ st_visited st ->
      (dist lc li <? dist lc lk) = false /\
      ((dist lc li =? dist lc lk) = true -> (k <= i)%nat).
Proof.
  intros Hlc Hcv E.
  pose proof (findNearest_scanned dm (st_visited st) (st_currentIndex st) n) as Hscan.
  rewrite E in Hscan. destruct Hscan as (Hk & Hkv & -> & _ & Hlo & Hhi).
  destruct (lookup_lt_is_Some_2 locations k Hk) as [lk Hlk].
  assert (forall i li, locations !! i = Some li -> i ∉ st_visited st ->
            matrix_get dm (st_currentIndex st) i = dist lc li) as Hd.
  { intros i li Hli Hiv. apply matrix_get_ne; [done..|]. intros Heq. by rewrite Heq in Hcv. }
  exists lk. split_and!; [done|done|by apply Hd|by apply loop_body_selected|].
  intros i li Hli Hiv. rewrite <- (Hd _ _ Hli Hiv), <- (Hd _ _ Hlk Hkv).
  pose proof (lookup_lt_Some _ _ _ Hli) as Hi.
  destruct (decide (i < k)%nat) as [Hik|Hik].
  - specialize (Hlo i Hik Hiv). split; [by apply JSNumber.not_leb_not_ltb|].
    intros Heq%JSNumber.eqb_leb. congruence.
  - split; [|lia]. destruct (decide (i = k)) as [->|Hne]; [apply JSNumber.ltb_irrefl|].
    apply Hhi; [lia|done].
Qed.

(** C4. For two stops or more, the total distance of a result is the sum,
    rounded to two decimal places, of the distances between consecutive
    stops along the returned sequence; it is not negative; and it is what
    [calculateRouteDistance] gives for the returned sequence when the
    identifiers are distinct. *)
Theorem total_distance_is_route_length :
  arctangent_sign Math_atan2 -> (2 <= n)%nat ->
  (forall fuel r, optimize fuel locations = Some r ->
     exists path,
       path ≡ₚ locations /\ sequence r = id <$> path /\
       totalDistance r = round2 (sum_left (hops dist path)) /\
       (0 <=? totalDistance r) = true /\
       (NoDup (id <$> locations) ->
          totalDistance r =
          calculateRouteDistance Math_sin Math_cos Math_atan2 locations (sequence r))) /\
  (well_formed ->
     exists r, forall fuel, (n - 1 <= fuel)%nat -> optimize fuel locations = Some r).
Proof.
  intros Hatan Hn. split; [|apply optimize_returns].
  intros fuel r Hr.
  destruct (optimize_Some _ _ Hn Hr) as (st & Hloop & -> & Hinv & Hperm).
  assert (0 < n)%nat as Hpos by lia.
  pose proof (stops_at_complete _ Hperm) as Hp.
  assert (st_totalDistance st = sum_left (hops dist (stops_at locations (st_sequence st))))
    as Htot.
  { rewrite (inv_total _ _ _ _ _ Hinv), hops_matrix; [done|apply Hinv..]. }
  exists (stops_at locations (st_sequence st)). simpl. split_and!; [done|done| | |].
  - by rewrite Htot.
  - apply JSSign.round2_nonneg.
    by apply (while_loop_total_nonneg fuel initial_state st Hatan (initial_state_inv Hpos)).
  - intros Hnd. rewrite calculateRouteDistance_hops, matched_hops_path, Htot; [done..|].
    intros l Hl. by rewrite <- Hp.
Qed.

(** The run of the loop on well-formed input: one more stop in each
    iteration, [n - 1] iterations in all. *)
Lemma greedy_loop_run :
  well_formed -> (2 <= n)%nat ->
  let final := Nat.iter (n - 1) body initial_state in
  (forall j, (j < n)%nat ->
     size (st_visited (Nat.iter j body initial_state)) = S j) /\
  NoDup (st_sequence final) /\
  st_sequence final ≡ₚ seq 0 n /\
  (forall fuel, (n - 1 <= fuel)%nat ->
     while_loop dm n fuel initial_state = Some final) /\
  (forall fuel, (fuel < n - 1)%nat ->
     while_loop dm n fuel initial_state = None).
Proof.
  intros Hwf Hn final. assert (0 < n)%nat as Hpos by lia.
  pose proof (initial_state_inv Hpos) as Hinit.
  destruct (iter_body_size (n - 1) Hwf) as [Hinv Hsz]; [lia|].
  split_and!.
  - intros j Hj. by apply iter_body_size.
  - apply Hinv.
  - apply (loop_inv_complete _ Hinv). fold final in Hsz |- *. lia.
  - intros fuel Hfuel.
    rewrite (while_loop_exact fuel initial_state Hwf Hinit);
      rewrite initial_state_size; [done|lia].
  - intros fuel Hfuel. apply (while_loop_short _ _ Hwf Hinit).
    rewrite initial_state_size. lia.
Qed.

(** C7, as the code has it. When the distances between the stops are all
    below [Infinity], the function returns once the loop has been allowed
    [n - 1] iterations, and not before; the loop visits one more stop in
    each iteration, ends after [n - 1] of them, and has then visited every
    stop once. *)
Theorem greedy_loop_terminates :
  well_formed ->
  (exists r,
     (forall fuel, (n - 1 <= fuel)%nat -> optimize fuel locations = Some r) /\
     (forall fuel, (fuel < n - 1)%nat -> optimize fuel locations = None) /\
     sequence r ≡ₚ id <$> locations) /\
  ((2 <= n)%nat ->
     let final := Nat.iter (n - 1) body initial_state in
     (forall j, (j < n)%nat ->
        size (st_visited (Nat.iter j body initial_state)) = S j) /\
     NoDup (st_sequence final) /\
     st_sequence final ≡ₚ seq 0 n /\
     (forall fuel, (n - 1 <= fuel)%nat ->
        while_loop dm n fuel initial_state = Some final) /\
     (forall fuel, (fuel < n - 1)%nat ->
        while_loop dm n fuel initial_state = None)).
Proof.
  intros Hwf. split; [|by apply greedy_loop_run].
  destruct (decide (2 <= n)%nat) as [Hn|Hn].
  - destruct (greedy_loop_run Hwf Hn) as (_ & _ & Hperm & Hsome & Hnone).
    exists (result_of locations (Nat.iter (n - 1) body initial_state)). split_and!.
    + intros fuel Hfuel. by rewrite (optimize_loop _ Hn), Hsome.
    + intros fuel Hfuel. by rewrite (optimize_loop _ Hn), Hnone.
    + simpl. by rewrite (stops_at_complete _ Hperm).
  - clear Hwf. destruct locations as [|l0 [|? ?]]; simpl in *; [| |lia].
    + eexists. split_and!; [done|intros; lia|done].
    + eexists. split_and!; [done|intros; lia|done].
Qed.

End Sequencer.

(** ** The accumulated distance is bounded *)

Section Estimate.
Variables (Math_sin Math_cos : float -> float).
Variable Math_atan2 : float -> float -> float.
Variable locations : list Location.
Hypothesis atan2_sign : arctangent_sign Math_atan2.
Hypothesis atan2_range : arctangent_at_most_pi Math_atan2.

Local Abbreviation dist := (distanceBetween Math_sin Math_cos Math_atan2).
Local Abbreviation distance := (calculateDistance Math_sin Math_cos Math_atan2).
Local Abbreviation n := (length locations).
Local Abbreviation dm :=
  (calculateDistanceMatrix Math_sin Math_cos Math_atan2 locations).
Local Abbreviation body := (loop_body dm n).
Local Abbreviation optimize :=
  (optimizeRouteNearestNeighbor Math_sin Math_cos Math_atan2).
Local Abbreviation inv := (loop_inv Math_sin Math_cos Math_atan2 locations).

(** The bound on the accumulated distance of a state: [hop_bound] for
    each hop made. *)
Local Abbreviation total_bound st :=
  ((Z.of_nat (length (st_sequence st)) - 1) * hop_bound)%Z.

Lemma angle_below_infinity c :
  (6371 * (2 * c) <? infinity) = true -> (c <? infinity) = true.
Proof.
  rewrite !FloatAxioms.ltb_spec, !mul_spec.
  change (Prim2SF infinity) with (S754_infinity false).
  destruct (Prim2SF c) as [[]|[]| |[] m e]; try done; intros H; vm_compute in H; done.
Qed.

Lemma calculateDistance_at_most lat1 lon1 lat2 lon2 :
  (distance lat1 lon1 lat2 lon2 <? infinity) = true ->
  SF_at_most (Prim2SF (distance lat1 lon1 lat2 lon2)) hop_bound.
Proof.
  unfold calculateDistance. cbv zeta.
  set (a := Math_sin _ * Math_sin _ + _). set (c := Math_atan2 _ _). intros Hlt.
  assert ((c <? 0) = false) as Hsign.
  { apply atan2_sign; unfold Math_sqrt; try apply JSSign.sqrt_not_negative.
    intros [Ha H1]. apply JSSign.sqrt_neg_zero in Ha. rewrite Ha in H1.
    apply (f_equal Prim2SF) in H1. vm_compute in H1. discriminate H1. }
  pose proof (JSBound.at_most_of_angle c Hsign (atan2_range _ _)
                (angle_below_infinity c Hlt)) as Hc.
  pose proof (JSBound.mul_at_most 2 c 2 4 JSBound.at_most_2 Hc eq_refl) as H2.
  exact (JSBound.mul_at_most 6371 (2 * c) 6371 (2 * 4) JSBound.at_most_6371 H2 eq_refl).
Qed.

Lemma loop_inv_length st : inv st -> (length (st_sequence st) <= n)%nat.
Proof.
  intros Hinv. pose proof (loop_inv_in_range _ _ _ _ _ Hinv) as Hsub.
  apply submseteq_length in Hsub. by rewrite (length_seq n 0) in Hsub.
Qed.

Lemma loop_body_total_at_most st :
  (Z.of_nat n < 2 ^ 32)%Z -> inv st ->
  SF_at_most (Prim2SF (st_totalDistance st)) (total_bound st) ->
  SF_at_most (Prim2SF (st_totalDistance (body st))) (total_bound (body st)).
Proof.
  intros Hn Hinv Htot.
  pose proof (findNearest_scanned dm (st_visited st) (st_currentIndex st) n) as Hscan.
  destruct (findNearest dm n (st_visited st) (st_currentIndex st)) as [[k|] dd] eqn:E.
  2: { by rewrite (loop_body_stuck _ _ _ _ _ _ E). }
  pose proof (loop_inv_length _ (loop_body_inv _ _ _ _ _ Hinv)) as Hlen.
  rewrite (loop_body_selected _ _ _ _ _ _ _ E) in *. simpl in *.
  destruct Hscan as (Hk & Hkv & Hdd & Hfin & _).
  destruct (loop_inv_current _ _ _ _ _ Hinv) as [Hcv Hcn].
  destruct (lookup_lt_is_Some_2 locations _ Hcn) as [lc Hlc].
  destruct (lookup_lt_is_Some_2 locations _ Hk) as [lk Hlk].
  assert (st_currentIndex st <> k) as Hne by (intros Heq; by rewrite Heq in Hcv).
  rewrite (matrix_get_ne _ _ _ _ _ _ _ _ Hlc Hlk Hne) in Hdd. subst dd.
  pose proof (calculateDistance_at_most _ _ _ _ Hfin) as Hhop.
  rewrite length_app in *. simpl in Hlen. simpl length.
  change (2 ^ 32)%Z with 4294967296%Z in Hn. unfold hop_bound in *.
  replace ((Z.of_nat (length (st_sequence st) + 1) - 1) * 50968)%Z
    with ((Z.of_nat (length (st_sequence st)) - 1) * 50968 + 50968)%Z by lia.
  apply JSBound.add_at_most; [done|done|].
  change (2 ^ 53)%Z with 9007199254740992%Z. lia.
Qed.

Lemma while_loop_total_at_most fuel st st' :
  (Z.of_nat n < 2 ^ 32)%Z -> inv st ->
  SF_at_most (Prim2SF (st_totalDistance st)) (total_bound st) ->
  while_loop dm n fuel st = Some st' ->
  SF_at_most (Prim2SF (st_totalDistance st')) (total_bound st').
Proof.
  intros Hn. revert st. induction fuel as [|fuel IH]; intros st Hinv Htot; simpl;
    destruct (decide (size (st_visited st) < n)%nat) as [Hlt|Hge]; intros H; simplify_eq; auto.
  apply (IH (body st)); [by apply loop_body_inv|by apply loop_body_total_at_most|done].
Qed.

(** The estimate of a result is the estimator on a distance between [0]
    and [2^48]. *)
Lemma estimate_of_result fuel r :
  (2 <= n)%nat -> (Z.of_nat n < 2 ^ 32)%Z -> optimize fuel locations = Some r ->
  exists path,
    path ≡ₚ locations /\ sequence r = id <$> path /\
    (0 <=? sum_left (hops dist path)) = true /\
    (sum_left (hops dist path) <=? 0x1p48) = true /\
    estimatedDuration r =
      calculateEstimatedDuration (sum_left (hops dist path)) (Number_of_nat n).
Proof.
  intros Hn Hsmall Hr.
  destruct (optimize_Some _ _ _ _ _ _ Hn Hr) as (st & Hloop & -> & Hinv & Hperm).
  assert (0 < n)%nat as Hpos by lia.
  pose proof (while_loop_total_at_most fuel initial_state st Hsmall
                (initial_state_inv _ _ _ _ Hpos) JSBound.at_most_zero Hloop) as Htot.
  exists (stops_at locations (st_sequence st)). simpl.
  rewrite (inv_total _ _ _ _ _ Hinv), hops_matrix in *; [|apply Hinv..].
  split_and!; [by apply stops_at_complete|done| | |done].
  - by apply (JSBound.at_most_leb_zero _ _ Htot).
  - apply (JSBound.leb_of_at_most _ _ Htot).
    apply Permutation_length in Hperm. rewrite (length_seq n 0) in Hperm.
    rewrite Hperm. change (2 ^ 32)%Z with 4294967296%Z in Hsmall.
    unfold hop_bound. change (2 ^ 48)%Z with 281474976710656%Z. lia.
Qed.

End Estimate.


(* ================================================================== *)
(** * Distances, durations and the edge cases *)
(* ================================================================== *)

Section Distances.
Variables (Math_sin Math_cos : float -> float).
Variable Math_atan2 : float -> float -> float.

Local Abbreviation dist := (distanceBetween Math_sin Math_cos Math_atan2).
Local Abbreviation distance := (calculateDistance Math_sin Math_cos Math_atan2).
Local Abbreviation matrix_of :=
  (calculateDistanceMatrix Math_sin Math_cos Math_atan2).
Local Abbreviation optimize :=
  (optimizeRouteNearestNeighbor Math_sin Math_cos Math_atan2).
Local Abbreviation route_distance :=
  (calculateRouteDistance Math_sin Math_cos Math_atan2).

Section Symmetry.
Hypothesis Math_sin_odd : sine_is_odd Math_sin.

Lemma flipped_half_sine d d' :
  flipped d d' -> flipped (Math_sin (toRadians d / 2)) (Math_sin (toRadians d' / 2)).
Proof.
  intros [-> | ->]; [left; reflexivity | right].
  unfold toRadians. rewrite JSNumber.mul_opp_l, JSNumber.div_opp_l. apply Math_sin_odd.
Qed.

Lemma flipped_square s s' : flipped s s' -> s' * s' = s * s.
Proof. intros [-> | ->]; [reflexivity | apply JSNumber.mul_opp_opp]. Qed.

Lemma flipped_scaled_square p s s' : flipped s s' -> p * s' * s' = p * s * s.
Proof.
  intros [-> | ->]; [reflexivity|].
  rewrite !JSNumber.mul_opp_r, JSNumber.mul_opp_l. apply JSNumber.opp_involutive.
Qed.

(** C8. The distance from A to B is the distance from B to A, the same
    number bit for bit, on a host whose sine is odd. *)
Theorem calculateDistance_symmetric lat1 lon1 lat2 lon2 :
  distance lat1 lon1 lat2 lon2 = distance lat2 lon2 lat1 lon1.
Proof.
  unfold calculateDistance; cbv zeta.
  pose proof (flipped_half_sine _ _ (JSNumber.sub_swap lat2 lat1)) as Hlat.
  pose proof (flipped_half_sine _ _ (JSNumber.sub_swap lon2 lon1)) as Hlon.
  rewrite (flipped_square _ _ Hlat).
  rewrite (JSNumber.mul_comm (Math_cos (toRadians lat2)) (Math_cos (toRadians lat1))).
  rewrite (flipped_scaled_square _ _ _ Hlon).
  reflexivity.
Qed.

End Symmetry.

(** C9. The matrix of [N] stops has [N] rows of [N] entries; the entry
    [(i, i)] is the constant [0] and the entry [(i, j)], [i <> j], is the
    distance from stop [i] to stop [j]; no stops, no rows. *)
Theorem distance_matrix_entries locations :
  length (matrix_of locations) = length locations /\
  (forall i row, matrix_of locations !! i = Some row -> length row = length locations) /\
  (forall i, (i < length locations)%nat ->
     matrix_of locations !! i ≫= (.!! i) = Some 0) /\
  (forall i j li lj,
     locations !! i = Some li -> locations !! j = Some lj -> i <> j ->
     matrix_of locations !! i ≫= (.!! j) =
     Some (distance (latitude li) (longitude li) (latitude lj) (longitude lj))) /\
  matrix_of [] = [].
Proof.
  split_and!.
  - unfold calculateDistanceMatrix. by rewrite length_imap.
  - unfold calculateDistanceMatrix. intros i row. rewrite list_lookup_imap.
    destruct (locations !! i); intros ?; simplify_eq/=. by rewrite length_imap.
  - intros i Hi. destruct (lookup_lt_is_Some_2 locations i Hi) as [li Hli].
    rewrite (matrix_lookup _ _ _ _ _ _ _ _ Hli Hli). by rewrite decide_True.
  - intros i j li lj Hli Hlj Hne.
    rewrite (matrix_lookup _ _ _ _ _ _ _ _ Hli Hlj). by rewrite decide_False.
  - reflexivity.
Qed.

(** C10. [calculateRouteDistance] returns, for every list of locations
    and every sequence of identifiers, the sum rounded to two decimal
    places of the hops whose two identifiers each match a location; a hop
    with an identifier that matches none is left out; a sequence of one
    identifier or none gives [0]. *)
Theorem calculateRouteDistance_skips_unknown locations sequence :
  route_distance locations sequence =
    round2 (sum_left
      (matched_hops Math_sin Math_cos Math_atan2 (find_stop locations) sequence)) /\
  ((length sequence <= 1)%nat -> route_distance locations sequence = 0) /\
  (forall k, find_stop locations k = None <-> k ∉ id <$> locations) /\
  (forall k l, find_stop locations k = Some l -> l ∈ locations /\ id l = k).
Proof.
  split_and!.
  - apply calculateRouteDistance_hops.
  - intros Hle. unfold calculateRouteDistance. by rewrite decide_True.
  - apply find_stop_None.
  - apply find_stop_Some.
Qed.

Lemma positive_constant_40 : positive_constant 40.
Proof. eexists _, _. vm_compute. reflexivity. Qed.

Lemma positive_constant_60 : positive_constant 60.
Proof. eexists _, _. vm_compute. reflexivity. Qed.

Lemma positive_constant_5 : positive_constant 5.
Proof. eexists _, _. vm_compute. reflexivity. Qed.

Lemma duration_argument_nonneg d n :
  (0 <=? d) = true -> (0 <=? d / 40 * 60 + Number_of_nat n * 5) = true.
Proof.
  intros Hd. apply JSSign.add_nonneg.
  - apply JSSign.mul_nonneg_constant; [apply positive_constant_60|].
    by apply JSSign.div_nonneg_constant; [apply positive_constant_40|].
  - apply JSSign.mul_nonneg_constant; [apply positive_constant_5|].
    apply JSSign.Number_of_Z_nonneg. lia.
Qed.

(** The estimator on a distance between [0] and [2^48]. *)
Lemma estimate_integer d n :
  (0 <=? d) = true -> (d <=? 0x1p48) = true -> (Z.of_nat n < 2 ^ 32)%Z ->
  Number_isInteger (calculateEstimatedDuration d (Number_of_nat n)) = true.
Proof.
  intros Hd Hle Hn. unfold calculateEstimatedDuration.
  apply JSSign.Math_round_integer; [by apply duration_argument_nonneg|].
  apply JSBound.estimate_argument_finite; [by apply JSBound.at_most_of_leb|done].
Qed.

(** C5. For a distance [d >= 0] and [n >= 1] stops the estimate is
    [Math.round (d / 40 * 60 + n * 5)]; it is never negative, and it is
    an integer for every distance up to [2^48] kilometres and every
    length of an array.  The optimizer calls the estimator with such a
    distance: on a host whose arc tangent is not negative for arguments
    that are not, and never above [Math.PI], the estimated duration of
    every result for two stops or more is this estimate for the sum of
    the hops, before that sum is rounded to two decimal places, and the
    number of stops; the sum lies between [0] and [2^48], and the
    estimate is a non-negative integer.  A result there is, once the
    distances between the stops are all below [Infinity]. *)
Theorem estimated_duration_formula :
  (forall d n, (0 <=? d) = true -> (1 <= n)%nat ->
     calculateEstimatedDuration d (Number_of_nat n) =
       Math_round (d / 40 * 60 + Number_of_nat n * 5) /\
     (0 <=? calculateEstimatedDuration d (Number_of_nat n)) = true /\
     ((d <=? 0x1p48) = true -> (Z.of_nat n < 2 ^ 32)%Z ->
      Number_isInteger (calculateEstimatedDuration d (Number_of_nat n)) = true)) /\
  (arctangent_sign Math_atan2 -> arctangent_at_most_pi Math_atan2 ->
   forall locations,
     (2 <= length locations)%nat -> (Z.of_nat (length locations) < 2 ^ 32)%Z ->
     (forall fuel r, optimize fuel locations = Some r ->
        exists path,
          path ≡ₚ locations /\ sequence r = id <$> path /\
          (0 <=? sum_left (hops dist path)) = true /\
          (sum_left (hops dist path) <=? 0x1p48) = true /\
          estimatedDuration r =
            Math_round (sum_left (hops dist path) / 40 * 60 +
                        Number_of_nat (length locations) * 5) /\
          (0 <=? estimatedDuration r) = true /\
          Number_isInteger (estimatedDuration r) = true) /\
     (distances_below_infinity Math_sin Math_cos Math_atan2 locations ->
      exists r, forall fuel,
        (length locations - 1 <= fuel)%nat -> optimize fuel locations = Some r)).
Proof.
  split.
  - intros d n Hd Hn. pose proof (duration_argument_nonneg d n Hd) as Hv.
    unfold calculateEstimatedDuration. split_and!; [done| |].
    + by apply JSSign.Math_round_nonneg.
    + intros Hle Hsmall. by apply estimate_integer.
  - intros Hsign Hrange locations Hn Hsmall. split; [|apply optimize_returns].
    intros fuel r Hr.
    destruct (estimate_of_result _ _ _ _ Hsign Hrange _ _ Hn Hsmall Hr)
      as (path & Hp & Hs & H0 & Hle & ->).
    exists path. split_and!; try done.
    + apply JSSign.Math_round_nonneg. by apply duration_argument_nonneg.
    + by apply estimate_integer.
Qed.

(** C6, as the code has it. No stops give the empty result and one stop
    gives its identifier, distance [0] and the fixed ten minutes (the
    formula would give five); every result names the algorithm; the
    function returns whenever the distances between the stops are all
    below [Infinity]; and nothing but its loop can keep it from
    returning. *)
Theorem optimizer_edge_cases :
  (forall fuel,
     optimize fuel [] =
     Some {| sequence := []; totalDistance := 0; estimatedDuration := 0;
             algorithm := "nearest_neighbor" |}) /\
  (forall fuel l,
     optimize fuel [l] =
     Some {| sequence := [id l]; totalDistance := 0; estimatedDuration := 10;
             algorithm := "nearest_neighbor" |}) /\
  calculateEstimatedDuration 0 (Number_of_nat 1) = 5 /\
  (forall fuel locations r,
     optimize fuel locations = Some r -> algorithm r = "nearest_neighbor"%string) /\
  (forall locations,
     distances_below_infinity Math_sin Math_cos Math_atan2 locations ->
     exists r, forall fuel,
       (length locations - 1 <= fuel)%nat -> optimize fuel locations = Some r) /\
  (forall fuel locations,
     optimize fuel locations = None ->
     while_loop (matrix_of locations) (length locations) fuel initial_state = None).
Proof.
  split_and!; try done.
  - intros fuel locations r Hr. destruct (decide (2 <= length locations)%nat) as [Hn|Hn].
    + by destruct (optimize_Some _ _ _ _ _ _ Hn Hr) as (st & _ & -> & _).
    + destruct locations as [|l0 [|? ?]]; simpl in *; try lia; by simplify_eq/=.
  - intros locations. apply optimize_returns.
  - intros fuel locations Hr. destruct (decide (2 <= length locations)%nat) as [Hn|Hn].
    + rewrite (optimize_loop _ _ _ _ _ Hn) in Hr.
      by destruct (while_loop _ _ fuel initial_state).
    + destruct locations as [|l0 [|? ?]]; simpl in *; try lia; done.
Qed.

(** ** Two stops whose latitudes overflow *)

Lemma overflow_distance_nan :
  ecma_special_values Math_sin Math_atan2 ->
  dist (stop "n" 0x1p1023 0) (stop "s" (-0x1p1023) 0) = nan.
Proof.
  intros (_ & Hsin & Hatan). unfold distanceBetween, calculateDistance, stop.
  cbn [latitude longitude]. cbv zeta.
  change (toRadians (-0x1p1023 - 0x1p1023) / 2) with neg_infinity.
  rewrite Hsin. change (nan * nan) with nan. rewrite JSNumber.add_nan_l.
  change (Math_sqrt nan) with nan. change (1 - nan) with nan.
  change (Math_sqrt nan) with nan.
  rewrite Hatan. reflexivity.
Qed.

Lemma overflow_round_stuck :
  ecma_special_values Math_sin Math_atan2 ->
  loop_body (matrix_of overflow_round) 2 initial_state = initial_state.
Proof.
  intros Hecma. unfold loop_body, findNearest.
  cbn [seq foldl initial_state st_visited st_currentIndex].
  assert (scan_step (matrix_of overflow_round) {[0%nat]} 0 (None, infinity) 0
          = (None, infinity)) as ->.
  { unfold scan_step. by rewrite decide_True by set_solver. }
  assert (scan_step (matrix_of overflow_round) {[0%nat]} 0 (None, infinity) 1
          = (None, infinity)) as ->.
  { unfold scan_step. rewrite decide_False by set_solver. cbv zeta.
    rewrite (matrix_get_ne Math_sin Math_cos Math_atan2 overflow_round 0 1 _ _
               eq_refl eq_refl) by lia.
    by rewrite overflow_distance_nan. }
  reflexivity.
Qed.

Lemma overflow_round_never_returns :
  ecma_special_values Math_sin Math_atan2 ->
  forall fuel,
    while_loop (matrix_of overflow_round) 2 fuel initial_state = None /\
    optimize fuel overflow_round = None.
Proof.
  intros Hecma fuel.
  assert (while_loop (matrix_of overflow_round) 2 fuel initial_state = None) as Hloop.
  { apply while_loop_stuck; [by apply overflow_round_stuck|].
    rewrite initial_state_size. lia. }
  split; [done|].
  rewrite (optimize_loop Math_sin Math_cos Math_atan2 overflow_round fuel) by (simpl; lia).
  simpl length. by rewrite Hloop.
Qed.

End Distances.

(* ================================================================== *)
(** * The reference [Math] library meets the assumptions *)
(* ================================================================== *)

Module RefMathFacts.

Lemma Number_isFinite_opp x : Number_isFinite (- x) = Number_isFinite x.
Proof. unfold Number_isFinite. rewrite opp_spec. by destruct (Prim2SF x). Qed.

Lemma sin_odd : sine_is_odd RefMath.sin.
Proof.
  intros x. unfold RefMath.sin. rewrite Number_isFinite_opp.
  destruct (Number_isFinite x); [|reflexivity].
  by rewrite JSNumber.mul_opp_opp, JSNumber.mul_opp_l.
Qed.

Lemma special_values : ecma_special_values RefMath.sin RefMath.atan2.
Proof. split_and!; [reflexivity..|]. intros x. reflexivity. Qed.

Lemma clamp0_not_negative r : (RefMath.clamp0 r <? 0) = false.
Proof. unfold RefMath.clamp0. by destruct (r <? 0) eqn:E. Qed.

Lemma Prim2SF_eq x sf : Prim2SF x = sf -> x = SF2Prim sf.
Proof. intros <-. by rewrite SF2Prim_Prim2SF. Qed.

Lemma zero_div_positive x m e :
  Prim2SF x = S754_finite false m e -> 0 / x = 0 /\ (0 <? x) = true.
Proof.
  intros Hx. split.
  - apply Prim2SF_inj. rewrite div_spec, Hx. reflexivity.
  - rewrite FloatAxioms.ltb_spec, Hx. reflexivity.
Qed.

Lemma atan2_sign : arctangent_sign RefMath.atan2.
Proof.
  intros y x Hy Hx Hzero. unfold RefMath.atan2.
  destruct (is_nan y || is_nan x) eqn:Hnan; [reflexivity|].
  apply orb_false_elim in Hnan as [_ Hnx]. cbv zeta.
  destruct (signbit y) eqn:Hs; [|apply clamp0_not_negative].
  assert (y = neg_zero) as ->.
  { rewrite JSSign.ltb_zero in Hy. unfold signbit in Hs.
    apply JSSign.Prim2SF_neg_zero. by destruct (Prim2SF y) as [[]|[]| |[] ? ?]. }
  rewrite JSSign.ltb_zero in Hx.
  destruct (Prim2SF x) as [[]|[]| |[] m e] eqn:Ex; try done.
  - exfalso. apply Hzero. split; [done|]. by apply JSSign.Prim2SF_neg_zero.
  - apply Prim2SF_eq in Ex as ->. reflexivity.
  - apply Prim2SF_eq in Ex as ->. reflexivity.
  - apply Prim2SF_eq in Ex as ->. discriminate Hnx.
  - destruct (zero_div_positive _ _ _ Ex) as [Hdiv Hpos].
    unfold RefMath.atan2_abs. change (abs neg_zero) with 0. rewrite Hpos, Hdiv. reflexivity.
Qed.

End RefMathFacts.

(** The reference arc tangent cut off at [Math.PI]. *)

Lemma capped_atan2_sign : arctangent_sign capped_atan2.
Proof.
  intros y x Hy Hx Hzero. unfold capped_atan2.
  destruct (Math_PI <? RefMath.atan2 y x); [reflexivity|].
  by apply RefMathFacts.atan2_sign.
Qed.

Lemma capped_atan2_range : arctangent_at_most_pi capped_atan2.
Proof.
  intros y x. unfold capped_atan2.
  destruct (Math_PI <? RefMath.atan2 y x) eqn:E; [reflexivity|exact E].
Qed.

(* ================================================================== *)
(** * The model run on the reference library *)
(* ================================================================== *)

Lemma square_round_well_formed : Run.well_formed square_round.
Proof.
  intros i j li lj Hi Hj Hne.
  do 5 (destruct i as [|i]; [do 5 (destruct j as [|j]; [by simplify_eq/=|]); done|]).
  done.
Qed.

Lemma square_round_capped_well_formed :
  distances_below_infinity RefMath.sin RefMath.cos capped_atan2 square_round.
Proof.
  intros i j li lj Hi Hj Hne.
  do 5 (destruct i as [|i]; [do 5 (destruct j as [|j]; [by simplify_eq/=|]); done|]).
  done.
Qed.

Example square_round_result :
  Run.optimize 4 square_round =
  Some {| sequence := ["a"; "b"; "c"; "e"; "d"];
          totalDistance := 0x1.4d91eb851eb85p+8;
          estimatedDuration := 525;
          algorithm := "nearest_neighbor" |}.
Proof. vm_compute. reflexivity. Qed.

Example tied_round_result :
  sequence <$> Run.optimize 3 tied_round = Some ["depot"; "east"; "far"; "west"].
Proof. vm_compute. reflexivity. Qed.

Example overflow_round_matrix :
  Run.matrix_of overflow_round = [[0; nan]; [nan; 0]].
Proof. vm_compute. reflexivity. Qed.

Example estimate_at_max_value :
  calculateEstimatedDuration Number_MAX_VALUE (Number_of_nat 1) = infinity.
Proof. vm_compute. reflexivity. Qed.

(** ** Instances of the theorems *)

Lemma sequence_is_permutation_witness :
  exists r,
    Run.optimize 4 square_round = Some r /\
    length (sequence r) = 5%nat /\ sequence r ≡ₚ id <$> square_round.
Proof.
  eexists. split; [vm_compute; reflexivity|].
  apply (proj1 (sequence_is_permutation RefMath.sin RefMath.cos RefMath.atan2
                  square_round ltac:(discriminate)) 4%nat).
  vm_compute. reflexivity.
Defined.

Lemma sequence_starts_at_first_stop_witness :
  exists r,
    Run.optimize 4 square_round = Some r /\ head (sequence r) = Some "a"%string.
Proof.
  eexists. split; [vm_compute; reflexivity|].
  apply (proj1 (sequence_starts_at_first_stop RefMath.sin RefMath.cos RefMath.atan2
                  square_round ltac:(discriminate)) 4%nat).
  vm_compute. reflexivity.
Defined.

Lemma nearest_tie_goes_to_earliest_witness :
  exists dd lk,
    findNearest (Run.matrix_of tied_round) 4 {[ 0%nat ]} 0 = (Some 2%nat, dd) /\
    (Run.dist (stop "depot" 0 0) (stop "west" 0 (-1)) =? dd) = true /\
    tied_round !! 2%nat = Some lk /\
    forall i li, tied_round !! i = Some li -> i ∉ ({[ 0%nat ]} : gset nat) ->
      (Run.dist (stop "depot" 0 0) li <? Run.dist (stop "depot" 0 0) lk) = false /\
      ((Run.dist (stop "depot" 0 0) li =? Run.dist (stop "depot" 0 0) lk) = true ->
       (2 <= i)%nat).
Proof.
  exists tied_nearest_distance.
  destruct (nearest_tie_goes_to_earliest RefMath.sin RefMath.cos RefMath.atan2
              tied_round initial_state 2 tied_nearest_distance (stop "depot" 0 0))
    as (lk & Hlk & _ & _ & _ & Hmin).
  - reflexivity.
  - vm_compute. reflexivity.
  - vm_compute. reflexivity.
  - exists lk. split_and!; [vm_compute; reflexivity|vm_compute; reflexivity|exact Hlk|exact Hmin].
Defined.

Lemma total_distance_is_route_length_witness :
  exists r,
    Run.optimize 4 square_round = Some r /\
    (0 <=? totalDistance r) = true /\
    totalDistance r = Run.route_distance square_round (sequence r).
Proof.
  eexists. split; [vm_compute; reflexivity|].
  destruct (proj1 (total_distance_is_route_length RefMath.sin RefMath.cos RefMath.atan2
                     square_round RefMathFacts.atan2_sign ltac:(simpl; lia)) 4%nat _
              ltac:(vm_compute; reflexivity))
    as (path & _ & _ & _ & Hnonneg & Hroute).
  split; [exact Hnonneg|]. apply Hroute.
  apply (bool_decide_unpack _). vm_compute. exact I.
Defined.

Lemma estimated_duration_formula_witness :
  (calculateEstimatedDuration 333.5 (Number_of_nat 5) =
     Math_round (333.5 / 40 * 60 + Number_of_nat 5 * 5) /\
   (0 <=? calculateEstimatedDuration 333.5 (Number_of_nat 5)) = true /\
   Number_isInteger (calculateEstimatedDuration 333.5 (Number_of_nat 5)) = true) /\
  exists r,
    optimizeRouteNearestNeighbor RefMath.sin RefMath.cos capped_atan2 4 square_round =
      Some r /\
    estimatedDuration r = 525 /\
    (0 <=? estimatedDuration r) = true /\
    Number_isInteger (estimatedDuration r) = true /\
    forall fuel, (4 <= fuel)%nat ->
      optimizeRouteNearestNeighbor RefMath.sin RefMath.cos capped_atan2 fuel square_round =
        Some r.
Proof.
  pose proof (estimated_duration_formula RefMath.sin RefMath.cos capped_atan2)
    as [Hestimate Hresult].
  split.
  - destruct (Hestimate 333.5 5%nat ltac:(vm_compute; reflexivity) ltac:(lia))
      as (Hformula & Hnonneg & Hinteger).
    split_and!; [exact Hformula|exact Hnonneg|].
    apply Hinteger; [vm_compute; reflexivity|reflexivity].
  - eexists. split; [vm_compute; reflexivity|].
    destruct (Hresult capped_atan2_sign capped_atan2_range square_round
                ltac:(simpl; lia) ltac:(reflexivity)) as [Hall Hsome].
    destruct (Hall 4%nat _ ltac:(vm_compute; reflexivity))
      as (path & _ & _ & _ & _ & _ & Hnonneg & Hinteger).
    split_and!; [vm_compute; reflexivity|exact Hnonneg|exact Hinteger|].
    destruct (Hsome square_round_capped_well_formed) as [r' Hr'].
    intros fuel Hfuel. rewrite (Hr' fuel Hfuel), <- (Hr' 4%nat (le_n 4)).
    vm_compute. reflexivity.
Defined.

Lemma optimizer_edge_cases_witness :
  Run.well_formed square_round /\
  exists r, forall fuel, (4 <= fuel)%nat -> Run.optimize fuel square_round = Some r.
Proof.
  split; [exact square_round_well_formed|].
  exact (proj1 (proj2 (proj2 (proj2 (proj2
           (optimizer_edge_cases RefMath.sin RefMath.cos RefMath.atan2)))))
           square_round square_round_well_formed).
Defined.

Lemma greedy_loop_terminates_witness :
  Run.well_formed square_round /\
  exists r,
    Run.optimize 4 square_round = Some r /\
    Run.optimize 3 square_round = None /\
    sequence r ≡ₚ id <$> square_round.
Proof.
  split; [exact square_round_well_formed|].
  destruct (greedy_loop_terminates RefMath.sin RefMath.cos RefMath.atan2
              square_round square_round_well_formed)
    as [(r & Hsome & Hnone & Hperm) _].
  exists r. split_and!; [apply Hsome|apply Hnone|exact Hperm]; simpl; lia.
Defined.

Lemma calculateDistance_symmetric_witness :
  Run.distance 19.125 72.875 19.25 73 = Run.distance 19.25 73 19.125 72.875.
Proof.
  exact (calculateDistance_symmetric RefMath.sin RefMath.cos RefMath.atan2
           RefMathFacts.sin_odd 19.125 72.875 19.25 73).
Defined.

Lemma distance_matrix_entries_witness :
  Run.matrix_of square_round !! 2%nat ≫= (.!! 2%nat) = Some 0 /\
  Run.matrix_of square_round !! 0%nat ≫= (.!! 1%nat) = Some (Run.distance 0 0 0 1).
Proof.
  destruct (distance_matrix_entries RefMath.sin RefMath.cos RefMath.atan2 square_round)
    as (_ & _ & Hdiag & Hoff & _).
  split.
  - apply Hdiag. simpl. lia.
  - apply (Hoff 0%nat 1%nat (stop "a" 0 0) (stop "b" 0 1)); [reflexivity|reflexivity|lia].
Defined.

Lemma calculateRouteDistance_skips_unknown_witness :
  Run.route_distance square_round ["a"] = 0 /\
  find_stop square_round "z" = None.
Proof.
  destruct (calculateRouteDistance_skips_unknown RefMath.sin RefMath.cos RefMath.atan2
              square_round ["a"]) as (_ & Hshort & Hnone & _).
  split.
  - apply Hshort. simpl. lia.
  - apply Hnone. apply (bool_decide_unpack _). vm_compute. exact I.
Defined.

(** ** Inputs on which the code departs from the specification *)

(** C6. On [overflow_round] the function never returns, whatever the
    host's [Math] library does outside the values ECMAScript fixes. *)
Lemma optimizer_not_total :
  ecma_special_values RefMath.sin RefMath.atan2 /\
  forall Math_sin Math_cos Math_atan2,
    ecma_special_values Math_sin Math_atan2 ->
    forall fuel,
      optimizeRouteNearestNeighbor Math_sin Math_cos Math_atan2 fuel overflow_round = None.
Proof.
  split; [exact RefMathFacts.special_values|].
  intros Math_sin Math_cos Math_atan2 Hecma fuel.
  apply (overflow_round_never_returns Math_sin Math_cos Math_atan2 Hecma fuel).
Qed.

(** C7. The coordinates of [overflow_round] are finite, the distance
    between its two stops is NaN, and the greedy loop never ends. *)
Lemma finite_coordinates_loop_forever :
  Forall (fun l => Number_isFinite (latitude l) = true /\
                   Number_isFinite (longitude l) = true) overflow_round /\
  ecma_special_values RefMath.sin RefMath.atan2 /\
  forall Math_sin Math_cos Math_atan2,
    ecma_special_values Math_sin Math_atan2 ->
    forall fuel,
      while_loop (calculateDistanceMatrix Math_sin Math_cos Math_atan2 overflow_round)
        2 fuel initial_state = None.
Proof.
  split_and!.
  - repeat constructor.
  - exact RefMathFacts.special_values.
  - intros Math_sin Math_cos Math_atan2 Hecma fuel.
    apply (overflow_round_never_returns Math_sin Math_cos Math_atan2 Hecma fuel).
Qed.

(* ================================================================== *)
(** * Further properties of the optimizer *)
(* ================================================================== *)

(** ** Numbers below Infinity are comparable *)

Module SFTotal.

(** Two numbers below [Infinity] are comparable. *)
Lemma SFleb_total a b :
  SFltb a (S754_infinity false) = true -> SFltb b (S754_infinity false) = true ->
  SFleb a b = false -> SFltb b a = true.
Proof.
  unfold SFltb, SFleb, SFcompare.
  destruct a as [[]|[]| |[] ? ?], b as [[]|[]| |[] ? ?]; simpl; try congruence;
    change (Pos.compare_cont Eq) with Pos.compare;
    intros; SF.cases_compare; simpl in *; try congruence; try lia.
Qed.

End SFTotal.

Lemma leb_total a b :
  (a <? infinity) = true -> (b <? infinity) = true ->
  (a <=? b) = false -> (b <? a) = true.
Proof.
  rewrite FloatAxioms.leb_spec, !FloatAxioms.ltb_spec. apply SFTotal.SFleb_total.
Qed.

(** ** The scan finds a nearest stop *)

Lemma scanned_minimal distanceMatrix visited currentIndex n k dd :
  scanned distanceMatrix visited currentIndex n (Some k, dd) ->
  forall i, (i < n)%nat -> i ∉ visited ->
    (matrix_get distanceMatrix currentIndex i <? dd) = false.
Proof.
  intros (Hk & Hkv & -> & _ & Hlo & Hhi) i Hi Hiv.
  destruct (decide (i < k)%nat) as [Hik|Hik].
  - by apply JSNumber.not_leb_not_ltb, Hlo.
  - destruct (decide (i = k)) as [->|Hne]; [apply JSNumber.ltb_irrefl|].
    apply Hhi; [lia|done].
Qed.

(** ** Every hop goes to a nearest stop *)

Section Greedy.
Variables (Math_sin Math_cos : float -> float).
Variable Math_atan2 : float -> float -> float.
Variable locations : list Location.

Local Abbreviation dist := (distanceBetween Math_sin Math_cos Math_atan2).
Local Abbreviation n := (length locations).
Local Abbreviation dm :=
  (calculateDistanceMatrix Math_sin Math_cos Math_atan2 locations).
Local Abbreviation body := (loop_body dm n).
Local Abbreviation optimize :=
  (optimizeRouteNearestNeighbor Math_sin Math_cos Math_atan2).
Local Abbreviation inv := (loop_inv Math_sin Math_cos Math_atan2 locations).

Lemma loop_body_chain st :
  inv st -> nearest_chain (matrix_get dm) n (st_sequence st) ->
  nearest_chain (matrix_get dm) n (st_sequence (body st)).
Proof.
  intros Hinv Hchain.
  pose proof (findNearest_scanned dm (st_visited st) (st_currentIndex st) n) as Hscan.
  destruct (findNearest dm n (st_visited st) (st_currentIndex st)) as [[k|] dd] eqn:E.
  2: { by rewrite (loop_body_stuck _ _ _ _ _ _ E). }
  rewrite (loop_body_selected _ _ _ _ _ _ _ E). simpl.
  pose proof (scanned_minimal _ _ _ _ _ _ Hscan) as Hmin.
  destruct Hscan as (Hk & Hkv & -> & Hfin & _).
  intros p a b Ha Hb.
  destruct (decide (S p < length (st_sequence st))%nat) as [Hp|Hp].
  - rewrite lookup_app_l in Ha by lia. rewrite lookup_app_l in Hb by lia.
    rewrite take_app_le by lia. by apply Hchain.
  - assert (S p = length (st_sequence st)) as Hlen.
    { apply lookup_lt_Some in Hb. rewrite length_app in Hb. simpl in Hb. lia. }
    rewrite Hlen, lookup_app_r, Nat.sub_diag in Hb by lia. simplify_eq/=.
    rewrite lookup_app_l in Ha by lia.
    assert (a = st_currentIndex st) as ->.
    { pose proof (inv_last _ _ _ _ _ Hinv) as Hl. rewrite last_lookup in Hl.
      replace p with (pred (length (st_sequence st))) in Ha by lia. congruence. }
    rewrite Hlen, take_app_length. split; [done|].
    intros i Hi Hiv. apply Hmin; [done|].
    rewrite (inv_visited _ _ _ _ _ Hinv). by rewrite elem_of_list_to_set.
Qed.

Lemma while_loop_chain fuel st st' :
  inv st -> nearest_chain (matrix_get dm) n (st_sequence st) ->
  while_loop dm n fuel st = Some st' ->
  nearest_chain (matrix_get dm) n (st_sequence st').
Proof.
  revert st. induction fuel as [|fuel IH]; intros st Hinv Hchain; simpl;
    destruct (decide (size (st_visited st) < n)%nat) as [Hlt|Hge]; intros H; simplify_eq; auto.
  apply (IH (body st)); [by apply loop_body_inv|by apply loop_body_chain|done].
Qed.

Lemma initial_state_chain : nearest_chain (matrix_get dm) n (st_sequence initial_state).
Proof. intros p a b Ha Hb. by destruct p. Qed.

Lemma stops_at_lookup idxs p :
  (forall i, i ∈ idxs -> (i < n)%nat) ->
  stops_at locations idxs !! p = idxs !! p ≫= (locations !!.).
Proof.
  unfold stops_at. revert p. induction idxs as [|i idxs IH]; intros p Hb; [done|].
  destruct (lookup_lt_is_Some_2 locations i) as [li Hli]; [apply Hb; left|].
  simpl. rewrite Hli. destruct p as [|p]; simpl; [done|].
  apply IH. intros j Hj. apply Hb. by right.
Qed.

Lemma chain_of_stops idxs :
  NoDup idxs -> (forall i, i ∈ idxs -> (i < n)%nat) ->
  nearest_chain (matrix_get dm) n idxs -> nearest_next dist (stops_at locations idxs).
Proof.
  intros Hnd Hb Hchain p a b Ha Hb'.
  rewrite stops_at_lookup in Ha, Hb' by done.
  destruct (idxs !! p) as [ia|] eqn:Eia; simplify_eq/=.
  destruct (idxs !! S p) as [ib|] eqn:Eib; simplify_eq/=.
  destruct (Hchain p ia ib Eia Eib) as [Hfin Hmin].
  assert (ia <> ib) as Hne.
  { intros ->. pose proof (NoDup_lookup _ _ _ _ Hnd Eia Eib). lia. }
  rewrite (matrix_get_ne _ _ _ _ _ _ _ _ Ha Hb' Hne) in Hfin, Hmin.
  split; [done|]. intros q c Hq Hc.
  rewrite stops_at_lookup in Hc by done.
  destruct (idxs !! q) as [ic|] eqn:Eic; simplify_eq/=.
  assert (ia <> ic) as Hne'.
  { intros ->. pose proof (NoDup_lookup _ _ _ _ Hnd Eia Eic). lia. }
  rewrite <- (matrix_get_ne _ _ _ _ _ _ _ _ Ha Hc Hne').
  apply Hmin; [by apply lookup_lt_Some in Hc|].
  intros [j Hj]%list_elem_of_lookup_1.
  apply lookup_take_Some in Hj as [Hj Hlt].
  pose proof (NoDup_lookup _ _ _ _ Hnd Hj Eic). lia.
Qed.

(** X1. Along the returned order every hop is a number below [Infinity]
    and goes to a nearest of the stops still to come: none of the later
    stops is nearer to the stop being left. *)
Theorem result_hops_are_nearest fuel r :
  optimize fuel locations = Some r ->
  exists path,
    path ≡ₚ locations /\ sequence r = id <$> path /\ nearest_next dist path.
Proof.
  intros Hr. destruct (decide (2 <= n)%nat) as [Hn|Hn].
  - destruct (optimize_Some _ _ _ _ _ _ Hn Hr) as (st & Hloop & -> & Hinv & Hperm).
    assert (0 < n)%nat as Hpos by lia.
    exists (stops_at locations (st_sequence st)).
    split_and!; [by apply stops_at_complete|done|].
    apply chain_of_stops; [apply Hinv..|].
    apply (while_loop_chain fuel initial_state);
      [by apply initial_state_inv|apply initial_state_chain|done].
  - exists locations. destruct locations as [|l0 [|? ?]]; simpl in *; try lia; simplify_eq/=.
    + split_and!; [done..|]. intros p a b Ha. done.
    + split_and!; [done..|]. intros p a b Ha Hb. done.
Qed.

(** ** The loop ends within [n - 1] iterations or never *)

Lemma loop_body_size_selected st k dd :
  inv st -> findNearest dm n (st_visited st) (st_currentIndex st) = (Some k, dd) ->
  size (st_visited (body st)) = S (size (st_visited st)).
Proof.
  intros Hinv E.
  pose proof (findNearest_scanned dm (st_visited st) (st_currentIndex st) n) as Hscan.
  rewrite E in Hscan. destruct Hscan as (_ & Hkv & _).
  rewrite (loop_body_selected _ _ _ _ _ _ _ E). simpl.
  rewrite size_union by set_solver. rewrite size_singleton. lia.
Qed.

Lemma while_loop_dichotomy st :
  inv st ->
  (exists st', forall fuel, (n - size (st_visited st) <= fuel)%nat ->
     while_loop dm n fuel st = Some st') \/
  (forall fuel, while_loop dm n fuel st = None).
Proof.
  remember (n - size (st_visited st))%nat as m eqn:Hm. revert st Hm.
  induction m as [|m IH]; intros st Hm Hinv.
  - left. exists st. intros fuel _. destruct fuel; simpl; by rewrite decide_False by lia.
  - assert (size (st_visited st) < n)%nat as Hlt by lia.
    destruct (findNearest dm n (st_visited st) (st_currentIndex st)) as [[k|] dd] eqn:E.
    + pose proof (loop_body_size_selected _ _ _ Hinv E) as Hsz.
      destruct (IH (body st)) as [[st' Hsome]|Hnone]; [lia|by apply loop_body_inv| |].
      * left. exists st'. intros [|fuel] Hfuel; [lia|]. simpl.
        rewrite decide_True by done. apply Hsome. lia.
      * right. intros [|fuel]; simpl; rewrite decide_True by done; [done|apply Hnone].
    + right. apply while_loop_stuck; [|done]. by apply (loop_body_stuck _ _ _ _ _ dd).
Qed.

(** X2. Either the function returns as soon as its loop is allowed
    [n - 1] iterations, or it never returns, however many are allowed. *)
Theorem optimizer_returns_or_hangs :
  (exists r, forall fuel, (n - 1 <= fuel)%nat -> optimize fuel locations = Some r) \/
  (forall fuel, optimize fuel locations = None).
Proof.
  destruct (decide (2 <= n)%nat) as [Hn|Hn].
  - assert (0 < n)%nat as Hpos by lia.
    destruct (while_loop_dichotomy initial_state
                (initial_state_inv _ _ _ _ Hpos)) as [[st' Hsome]|Hnone].
    + left. exists (result_of locations st'). intros fuel Hfuel.
      rewrite (optimize_loop _ _ _ _ _ Hn), Hsome; [done|].
      rewrite initial_state_size. lia.
    + right. intros fuel. by rewrite (optimize_loop _ _ _ _ _ Hn), Hnone.
  - left. destruct locations as [|l0 [|? ?]]; simpl in *; [eauto|eauto|lia].
Qed.

Lemma while_loop_fuel_bound fuel st st' :
  inv st -> while_loop dm n fuel st = Some st' ->
  (n - size (st_visited st) <= fuel)%nat.
Proof.
  revert st. induction fuel as [|fuel IH]; intros st Hinv; simpl;
    destruct (decide (size (st_visited st) < n)%nat) as [Hlt|Hge]; intros H;
    simplify_eq; try lia.
  pose proof (IH (body st) (loop_body_inv _ _ _ _ _ Hinv) H) as Hb.
  destruct (findNearest dm n (st_visited st) (st_currentIndex st)) as [[k|] dd] eqn:E.
  - rewrite (loop_body_size_selected _ _ _ Hinv E) in Hb. lia.
  - rewrite (loop_body_stuck _ _ _ _ _ _ E) in Hb. lia.
Qed.

End Greedy.

(** ** Optimizing the returned order again *)

Lemma while_loop_iter distanceMatrix n k fuel st :
  (forall j, (j < k)%nat ->
     (size (st_visited (Nat.iter j (loop_body distanceMatrix n) st)) < n)%nat) ->
  ~ (size (st_visited (Nat.iter k (loop_body distanceMatrix n) st)) < n)%nat ->
  (k <= fuel)%nat ->
  while_loop distanceMatrix n fuel st = Some (Nat.iter k (loop_body distanceMatrix n) st).
Proof.
  revert fuel st. induction k as [|k IH]; intros fuel st Hlt Hge Hfuel.
  - destruct fuel; simpl in *; by rewrite decide_False.
  - destruct fuel as [|fuel]; [lia|]. simpl while_loop.
    rewrite decide_True by (apply (Hlt 0%nat); lia).
    rewrite Nat.iter_succ_r. apply IH; [|by rewrite <- Nat.iter_succ_r|lia].
    intros j Hj. rewrite <- Nat.iter_succ_r. apply Hlt. lia.
Qed.

Section Chain.
Variables (Math_sin Math_cos : float -> float).
Variable Math_atan2 : float -> float -> float.
Variable path : list Location.
Hypothesis path_nearest :
  nearest_next (distanceBetween Math_sin Math_cos Math_atan2) path.

Local Abbreviation dist := (distanceBetween Math_sin Math_cos Math_atan2).
Local Abbreviation m := (length path).
Local Abbreviation dmp :=
  (calculateDistanceMatrix Math_sin Math_cos Math_atan2 path).

Lemma seq_set_elem j i : i ∈ (list_to_set (seq 0 (S j)) : gset nat) <-> (i <= j)%nat.
Proof. rewrite elem_of_list_to_set, elem_of_seq. lia. Qed.

Lemma path_find j :
  (S j < m)%nat ->
  findNearest dmp m (list_to_set (seq 0 (S j))) j = (Some (S j), matrix_get dmp j (S j)).
Proof.
  intros Hj.
  destruct (lookup_lt_is_Some_2 path j) as [a Ha]; [lia|].
  destruct (lookup_lt_is_Some_2 path (S j)) as [b Hb]; [lia|].
  destruct (path_nearest j a b Ha Hb) as [Hfin Hmin].
  assert (forall i c, path !! i = Some c -> (j < i)%nat -> matrix_get dmp j i = dist a c) as Hd.
  { intros i c Hc Hi. apply matrix_get_ne; [done..|lia]. }
  pose proof (findNearest_scanned dmp (list_to_set (seq 0 (S j))) j m) as Hscan.
  destruct (findNearest dmp m (list_to_set (seq 0 (S j))) j) as [[k|] dd].
  - destruct Hscan as (Hk & Hkv & -> & Hkfin & Hlo & _).
    rewrite seq_set_elem in Hkv.
    destruct (decide (k = S j)) as [->|Hne]; [done|exfalso].
    destruct (lookup_lt_is_Some_2 path k Hk) as [c Hc].
    specialize (Hlo (S j)). rewrite seq_set_elem in Hlo.
    rewrite (Hd _ _ Hb), (Hd _ _ Hc) in Hlo by lia.
    rewrite (Hd _ _ Hc) in Hkfin by lia.
    pose proof (leb_total _ _ Hfin Hkfin (Hlo ltac:(lia) ltac:(lia))) as Hlt.
    rewrite (Hmin k c) in Hlt; [done|lia|done].
  - exfalso. destruct Hscan as [_ Hnone]. specialize (Hnone (S j) Hj).
    rewrite seq_set_elem, (Hd _ _ Hb) in Hnone by lia.
    rewrite Hnone in Hfin; [done|lia].
Qed.

Lemma path_iter j :
  (j < m)%nat ->
  Nat.iter j (loop_body dmp m) initial_state =
    {| st_visited := list_to_set (seq 0 (S j));
       st_sequence := seq 0 (S j);
       st_currentIndex := j;
       st_totalDistance := sum_left (hops dist (take (S j) path)) |}.
Proof.
  induction j as [|j IH]; intros Hj.
  - simpl. unfold initial_state. f_equal.
    all: try solve [by destruct path as [|? [|? ?]]].
    all: try (apply set_eq; intros i; rewrite elem_of_singleton, seq_set_elem; lia).
  - rewrite Nat.iter_succ, IH by lia.
    rewrite (loop_body_selected Math_sin Math_cos Math_atan2 path _ (S j)
               (matrix_get dmp j (S j))) by (by apply path_find).
    cbn [st_visited st_sequence st_currentIndex st_totalDistance].
    destruct (lookup_lt_is_Some_2 path j) as [a Ha]; [lia|].
    destruct (lookup_lt_is_Some_2 path (S j)) as [b Hb]; [lia|].
    assert (seq 0 (S j) ++ [S j] = seq 0 (S (S j))) as E2
      by (by rewrite (seq_S (S j))).
    assert ((list_to_set (seq 0 (S j)) ∪ {[ S j ]} : gset nat)
            = list_to_set (seq 0 (S (S j)))) as E1
      by (by rewrite <- E2, list_to_set_snoc_L).
    assert (sum_left (hops dist (take (S j) path)) + matrix_get dmp j (S j)
            = sum_left (hops dist (take (S (S j)) path))) as E3.
    { rewrite (take_S_r _ (S j) b Hb), (hops_snoc _ _ a b), sum_left_snoc.
      - f_equal. apply matrix_get_ne; [done..|lia].
      - rewrite last_lookup, length_take, Nat.min_l by lia.
        cbn [pred]. by rewrite lookup_take_lt by lia. }
    by rewrite E1, E2, E3.
Qed.

Lemma path_run fuel :
  (2 <= m)%nat -> (m - 1 <= fuel)%nat ->
  while_loop dmp m fuel initial_state =
    Some {| st_visited := list_to_set (seq 0 m);
            st_sequence := seq 0 m;
            st_currentIndex := (m - 1)%nat;
            st_totalDistance := sum_left (hops dist path) |}.
Proof.
  intros Hm Hfuel.
  assert (forall j, (j < m)%nat ->
            size (st_visited (Nat.iter j (loop_body dmp m) initial_state)) = S j) as Hsz.
  { intros j Hj. rewrite path_iter by done. cbn [st_visited].
    rewrite size_list_to_set by apply NoDup_seq. by rewrite length_seq. }
  rewrite (while_loop_iter dmp m (m - 1) fuel initial_state); [| | |done].
  - rewrite path_iter by lia. replace (S (m - 1)) with m by lia.
    by rewrite firstn_all.
  - intros j Hj. rewrite Hsz by lia. lia.
  - rewrite Hsz by lia. lia.
Qed.

End Chain.

Section Stable.
Variables (Math_sin Math_cos : float -> float).
Variable Math_atan2 : float -> float -> float.
Variable locations : list Location.

Local Abbreviation dist := (distanceBetween Math_sin Math_cos Math_atan2).
Local Abbreviation n := (length locations).
Local Abbreviation optimize :=
  (optimizeRouteNearestNeighbor Math_sin Math_cos Math_atan2).

(** X3. Optimizing again the stops in the order just returned gives the
    same result: the same sequence, distance and duration. *)
Theorem reoptimizing_is_stable fuel r :
  optimize fuel locations = Some r ->
  exists path,
    path ≡ₚ locations /\ sequence r = id <$> path /\ optimize fuel path = Some r.
Proof.
  intros Hr. destruct (decide (2 <= n)%nat) as [Hn|Hn].
  - destruct (optimize_Some _ _ _ _ _ _ Hn Hr) as (st & Hloop & -> & Hinv & Hperm).
    assert (0 < n)%nat as Hpos by lia.
    pose proof (initial_state_inv Math_sin Math_cos Math_atan2 locations Hpos) as Hinit.
    set (path := stops_at locations (st_sequence st)).
    pose proof (stops_at_complete _ _ Hperm : path ≡ₚ locations) as Hp.
    assert (length path = n) as Hlen by by rewrite Hp.
    assert (nearest_next dist path) as Hnext.
    { apply chain_of_stops; [apply Hinv..|].
      apply (while_loop_chain _ _ _ _ fuel initial_state);
        [done|apply initial_state_chain|done]. }
    pose proof (while_loop_fuel_bound _ _ _ _ _ _ _ Hinit Hloop) as Hfuel.
    rewrite initial_state_size in Hfuel.
    exists path. split_and!; [done|done|].
    rewrite (optimize_loop _ _ _ path) by lia.
    rewrite (path_run _ _ _ path Hnext fuel) by lia.
    simpl. f_equal. unfold result_of. simpl. f_equal.
    + by rewrite stops_at_all.
    + rewrite (inv_total _ _ _ _ _ Hinv), hops_matrix; [done|apply Hinv..].
    + rewrite Hlen, (inv_total _ _ _ _ _ Hinv), hops_matrix; [done|apply Hinv..].
  - exists locations. split_and!; [done| |done].
    destruct locations as [|l0 [|? ?]]; simpl in *; try lia; by simplify_eq/=.
Qed.

End Stable.

(** ** Locations that a route does not use *)

Lemma find_stop_app l1 l2 k :
  find_stop (l1 ++ l2) k =
  match find_stop l2 k with Some l => Some l | None => find_stop l1 k end.
Proof.
  induction l1 as [|l l1 IH]; simpl; [by destruct (find_stop l2 k)|].
  rewrite IH. by destruct (find_stop l2 k).
Qed.

Lemma find_stop_insert_other pre l post k :
  id l <> k -> find_stop (pre ++ l :: post) k = find_stop (pre ++ post) k.
Proof.
  intros Hne. rewrite !find_stop_app. simpl.
  destruct (find_stop post k); [done|]. by rewrite decide_False.
Qed.

Lemma find_stop_insert_shadowed pre l post k :
  id l ∈ id <$> post -> find_stop (pre ++ l :: post) k = find_stop (pre ++ post) k.
Proof.
  intros Hin. rewrite !find_stop_app. simpl.
  destruct (find_stop post k) eqn:E; [done|].
  rewrite decide_False; [done|]. intros Heq. apply find_stop_None in E.
  apply E. by rewrite <- Heq.
Qed.

Section MoreRoutes.
Variables (Math_sin Math_cos : float -> float).
Variable Math_atan2 : float -> float -> float.

Local Abbreviation dist := (distanceBetween Math_sin Math_cos Math_atan2).
Local Abbreviation matrix_of :=
  (calculateDistanceMatrix Math_sin Math_cos Math_atan2).
Local Abbreviation route_distance :=
  (calculateRouteDistance Math_sin Math_cos Math_atan2).
Local Abbreviation matched := (matched_hops Math_sin Math_cos Math_atan2).

Lemma matched_hops_cons lookup a b t :
  matched lookup (a :: b :: t) =
  match lookup a, lookup b with
  | Some loc1, Some loc2 => dist loc1 loc2 :: matched lookup (b :: t)
  | _, _ => matched lookup (b :: t)
  end.
Proof. reflexivity. Qed.

Lemma matched_hops_ext lookup lookup' sequence :
  (forall k, k ∈ sequence -> lookup k = lookup' k) ->
  matched lookup sequence = matched lookup' sequence.
Proof.
  induction sequence as [|a [|b t] IH]; intros Hext; [done..|].
  rewrite !matched_hops_cons.
  rewrite <- (Hext a), <- (Hext b) by (rewrite !elem_of_cons; auto).
  rewrite IH by (intros k Hk; apply Hext; by right). done.
Qed.

Lemma route_distance_ext locations locations' sequence :
  (forall k, k ∈ sequence -> find_stop locations k = find_stop locations' k) ->
  route_distance locations sequence = route_distance locations' sequence.
Proof.
  intros Hext. rewrite !calculateRouteDistance_hops.
  by rewrite (matched_hops_ext _ _ _ Hext).
Qed.

(** X4. A location whose identifier does not occur in the sequence has no
    effect on the route distance, wherever it stands in the list. *)
Theorem route_distance_ignores_unlisted pre l post sequence :
  id l ∉ sequence ->
  route_distance (pre ++ l :: post) sequence = route_distance (pre ++ post) sequence.
Proof.
  intros Hnotin. apply route_distance_ext. intros k Hk.
  apply find_stop_insert_other. intros Heq. apply Hnotin. by rewrite Heq.
Qed.

(** X5. When a later location carries the same identifier, the earlier one
    is never used: the route distance is as if it were not in the list. *)
Theorem route_distance_last_duplicate_wins pre l post sequence :
  id l ∈ id <$> post ->
  route_distance (pre ++ l :: post) sequence = route_distance (pre ++ post) sequence.
Proof.
  intros Hin. apply route_distance_ext. intros k _.
  by apply find_stop_insert_shadowed.
Qed.

Lemma matched_hops_none locations sequence :
  (forall i a b, sequence !! i = Some a -> sequence !! S i = Some b ->
     a ∉ id <$> locations \/ b ∉ id <$> locations) ->
  matched (find_stop locations) sequence = [].
Proof.
  induction sequence as [|a [|b t] IH]; intros Hpairs; [done..|].
  rewrite matched_hops_cons.
  rewrite IH by (intros i x y Hx Hy; by apply (Hpairs (S i))).
  destruct (Hpairs 0%nat a b eq_refl eq_refl) as [H|H];
    apply find_stop_None in H; rewrite H; [done|].
  by destruct (find_stop locations a).
Qed.

(** X6. A route in which no two consecutive identifiers both match a
    location has distance [0]. *)
Theorem route_distance_without_known_hop locations sequence :
  (forall i a b, sequence !! i = Some a -> sequence !! S i = Some b ->
     a ∉ id <$> locations \/ b ∉ id <$> locations) ->
  route_distance locations sequence = 0.
Proof.
  intros Hpairs. rewrite calculateRouteDistance_hops, matched_hops_none by done.
  reflexivity.
Qed.

(** ** The matrix is symmetric *)

Section MatrixSymmetry.
Hypothesis Math_sin_odd : sine_is_odd Math_sin.

Lemma distanceBetween_swap l1 l2 : dist l1 l2 = dist l2 l1.
Proof.
  unfold distanceBetween, calculateDistance; cbv zeta.
  pose proof (flipped_half_sine Math_sin Math_sin_odd _ _
                (JSNumber.sub_swap (latitude l2) (latitude l1))) as Hlat.
  pose proof (flipped_half_sine Math_sin Math_sin_odd _ _
                (JSNumber.sub_swap (longitude l2) (longitude l1))) as Hlon.
  rewrite (flipped_square _ _ Hlat).
  rewrite (JSNumber.mul_comm (Math_cos (toRadians (latitude l2)))
             (Math_cos (toRadians (latitude l1)))).
  rewrite (flipped_scaled_square _ _ _ Hlon).
  reflexivity.
Qed.

Lemma matrix_get_outside locations i j :
  locations !! i = None \/ locations !! j = None ->
  matrix_get (matrix_of locations) i j = nan.
Proof.
  intros H. unfold matrix_get, calculateDistanceMatrix.
  rewrite list_lookup_imap. destruct (locations !! i) as [li|]; [|done]. simpl.
  rewrite list_lookup_imap. destruct H as [H|H]; [done|]. by rewrite H.
Qed.

(** X7. The distance matrix is symmetric: the entries [(i, j)] and
    [(j, i)] are the same number, on a host whose sine is odd. *)
Theorem distance_matrix_symmetric locations i j :
  matrix_get (matrix_of locations) i j = matrix_get (matrix_of locations) j i.
Proof.
  destruct (locations !! i) as [li|] eqn:Ei; [destruct (locations !! j) as [lj|] eqn:Ej|].
  - destruct (decide (i = j)) as [->|Hne]; [done|].
    rewrite (matrix_get_ne _ _ _ _ _ _ _ _ Ei Ej Hne).
    rewrite (matrix_get_ne _ _ _ _ _ _ _ _ Ej Ei) by done.
    apply distanceBetween_swap.
  - by rewrite !matrix_get_outside by auto.
  - by rewrite !matrix_get_outside by auto.
Qed.

End MatrixSymmetry.
End MoreRoutes.

(** ** The distance of a point to itself *)

Module SFZero.

Lemma SFsub_diag x :
  match x with S754_zero _ | S754_finite _ _ _ => True | _ => False end ->
  SF64sub x x = S754_zero false.
Proof.
  destruct x as [[]|[]| |s m e]; try done. intros _.
  unfold SF64sub, SFsub. by rewrite Z.sub_diag.
Qed.

Lemma SFmul_square x :
  SFltb (SF64mul x x) (S754_infinity false) = true ->
  SF64mul (SF64mul x x) (S754_zero false) = S754_zero false.
Proof.
  destruct x as [[]|[]| |s m e]; try done.
  unfold SF64mul at 1 3. unfold SFmul.
  pose proof (SFSign.binary_round_aux_signed (xorb s s) (Z.pos (m * m)) (e + e) loc_Exact
                ltac:(lia)) as Hs.
  rewrite Bool.xorb_nilpotent in *.
  by destruct (binary_round_aux prec emax false _ _ _) as [[]|[]| |[] ? ?].
Qed.

End SFZero.

Lemma sub_diag x : Number_isFinite x = true -> x - x = 0.
Proof.
  unfold Number_isFinite. intros H. apply Prim2SF_inj. rewrite sub_spec.
  rewrite SFZero.SFsub_diag; [done|]. by destruct (Prim2SF x).
Qed.

Lemma square_times_zero c : (c * c <? infinity) = true -> c * c * 0 = 0.
Proof.
  rewrite FloatAxioms.ltb_spec. intros H. apply Prim2SF_inj.
  rewrite mul_spec. rewrite mul_spec in *. by apply SFZero.SFmul_square.
Qed.

Section SamePoint.
Variables (Math_sin Math_cos : float -> float).
Variable Math_atan2 : float -> float -> float.
Local Abbreviation distance := (calculateDistance Math_sin Math_cos Math_atan2).

(** X8. A point with finite coordinates is at distance [0] from itself,
    on a host with [sin(0) = 0] and [atan2(0, 1) = 0] (which ECMAScript
    fixes) whose cosine of the latitude has a square below [Infinity]. *)
Theorem calculateDistance_same_point lat lon :
  Number_isFinite lat = true -> Number_isFinite lon = true ->
  Math_sin 0 = 0 -> Math_atan2 0 1 = 0 ->
  (Math_cos (toRadians lat) * Math_cos (toRadians lat) <? infinity) = true ->
  distance lat lon lat lon = 0.
Proof.
  intros Hlat Hlon Hsin Hatan Hcos. unfold calculateDistance. cbv zeta.
  rewrite (sub_diag _ Hlat), (sub_diag _ Hlon).
  replace (toRadians 0 / 2) with 0 by (vm_compute; reflexivity).
  rewrite Hsin, (square_times_zero _ Hcos).
  replace (0 * 0 + 0 * 0) with 0 by (vm_compute; reflexivity).
  replace (Math_sqrt 0) with 0 by (vm_compute; reflexivity).
  replace (Math_sqrt (1 - 0)) with 1 by (vm_compute; reflexivity).
  rewrite Hatan. vm_compute. reflexivity.
Qed.

End SamePoint.

(** ** What the optimizer reads of a location *)

Lemma imap_Forall2 {A B} (R : A -> A -> Prop) (l l' : list A) :
  Forall2 R l l' -> forall f g : nat -> A -> B,
  (forall i x y, R x y -> f i x = g i y) -> imap f l = imap g l'.
Proof.
  induction 1 as [|x y l l' Hxy Hl IH]; intros f g Hfg; [done|].
  simpl. f_equal; [by apply Hfg|]. apply IH. intros i. apply Hfg.
Qed.

Section Reads.
Variables (Math_sin Math_cos : float -> float).
Variable Math_atan2 : float -> float -> float.
Local Abbreviation dist := (distanceBetween Math_sin Math_cos Math_atan2).
Local Abbreviation matrix_of := (calculateDistanceMatrix Math_sin Math_cos Math_atan2).
Local Abbreviation optimize := (optimizeRouteNearestNeighbor Math_sin Math_cos Math_atan2).

Lemma same_place_dist l1 l1' l2 l2' :
  same_place l1 l1' -> same_place l2 l2' -> dist l1 l2 = dist l1' l2'.
Proof.
  intros (_ & E1 & E2) (_ & E3 & E4). unfold distanceBetween. by rewrite E1, E2, E3, E4.
Qed.

Lemma same_place_matrix locations locations' :
  Forall2 same_place locations locations' -> matrix_of locations = matrix_of locations'.
Proof.
  intros H. unfold calculateDistanceMatrix.
  apply (imap_Forall2 same_place _ _ H). intros i li li' Hi.
  apply (imap_Forall2 same_place _ _ H). intros j lj lj' Hj.
  destruct (decide (i = j)); [done|]. by apply same_place_dist.
Qed.

Lemma same_place_ids locations locations' idxs :
  Forall2 same_place locations locations' -> ids_of locations idxs = ids_of locations' idxs.
Proof.
  intros H. unfold ids_of. induction idxs as [|i idxs IH]; [done|].
  simpl. rewrite IH.
  destruct (proj1 (Forall2_lookup _ _ _) H i) as [l l' (E & _)|]; simpl; [|done].
  by rewrite E.
Qed.

(** X9. The optimizer reads the identifier and the coordinates of a
    location and nothing else: two lists that agree on these, stop by
    stop, give the same result, or both none. *)
Theorem optimizer_reads_ids_and_coordinates fuel locations locations' :
  Forall2 same_place locations locations' ->
  optimize fuel locations = optimize fuel locations'.
Proof.
  intros H. pose proof (Forall2_length _ _ _ H) as Hlen.
  pose proof (same_place_matrix _ _ H) as Hm.
  destruct H as [|l0 l0' rest rest' H0 H]; [done|].
  destruct H as [|l1 l1' rest rest' H1 H].
  { destruct H0 as (E0 & _). simpl. by rewrite E0. }
  assert (Forall2 same_place (l0 :: l1 :: rest) (l0' :: l1' :: rest')) as Hall.
  { constructor; [done|]. by constructor. }
  unfold optimizeRouteNearestNeighbor. rewrite Hm, Hlen.
  destruct (while_loop _ _ fuel initial_state) as [st|]; [|done]. simpl.
  by rewrite (same_place_ids _ _ _ Hall).
Qed.

End Reads.

(* ================================================================== *)
(** * The handler *)
(* ================================================================== *)

(** ** The optimizer's result as a path *)

Section Path.
Variables (Math_sin Math_cos : float -> float).
Variable Math_atan2 : float -> float -> float.
Local Abbreviation optimize := (optimizeRouteNearestNeighbor Math_sin Math_cos Math_atan2).

Lemma optimize_path fuel locations r :
  optimize fuel locations = Some r ->
  exists path, path ≡ₚ locations /\ sequence r = id <$> path /\
    head path = head locations /\ algorithm r = "nearest_neighbor".
Proof.
  intros Hr. destruct (decide (2 <= length locations)%nat) as [Hn|Hn].
  - destruct (optimize_Some _ _ _ _ _ _ Hn Hr) as (st & _ & -> & Hinv & Hperm).
    exists (stops_at locations (st_sequence st)). split_and!; [|done| |done].
    + by apply stops_at_complete.
    + apply stops_at_head; [|apply (inv_head _ _ _ _ _ Hinv)].
      intros ->. simpl in Hn. lia.
  - destruct locations as [|l0 [|? ?]]; simpl in *; try lia; simplify_eq/=.
    + by exists [].
    + by exists [l0].
Qed.

End Path.

(** ** Lists without duplicates *)

Lemma NoDup_fmap_lookup {A B} (f : A -> B) (l : list A) i j x y :
  NoDup (f <$> l) -> l !! i = Some x -> l !! j = Some y -> f x = f y -> i = j.
Proof.
  intros Hnd Hi Hj Hf.
  apply (NoDup_lookup (f <$> l) i j (f x)); [done| |];
    rewrite list_lookup_fmap; [by rewrite Hi|by rewrite Hj, Hf].
Qed.

Lemma list_find_NoDup (sequence : list string) p o :
  NoDup sequence -> sequence !! p = Some o ->
  list_find (fun o' => o' = o) sequence = Some (p, o).
Proof.
  intros Hnd Hp. apply list_find_Some. split_and!; [done..|].
  intros j y Hj Hlt ->. pose proof (NoDup_lookup _ _ _ _ Hnd Hp Hj). lia.
Qed.

Lemma number_in_lookup sequence p o :
  NoDup sequence -> sequence !! p = Some o -> number_in sequence o = (p + 1)%nat.
Proof. intros Hnd Hp. unfold number_in. by rewrite (list_find_NoDup _ _ _ Hnd Hp). Qed.

Lemma number_in_all sequence :
  NoDup sequence -> number_in sequence <$> sequence = seq 1 (length sequence).
Proof.
  intros Hnd. apply list_eq. intros p. rewrite list_lookup_fmap.
  destruct (sequence !! p) as [o|] eqn:Hp; simpl.
  - rewrite (number_in_lookup _ _ _ Hnd Hp). symmetry. apply lookup_seq.
    split; [lia|]. by apply lookup_lt_Some in Hp.
  - symmetry. apply lookup_ge_None. rewrite (length_seq (length sequence) 1).
    by apply lookup_ge_None in Hp.
Qed.

(** ** Writing the new numbers *)

Lemma RouteStatus_completed_dec (status : RouteStatus) :
  status = COMPLETED \/ status <> COMPLETED.
Proof. destruct status; (by left) || (by right). Qed.

Lemma update_sequence_lookup stopId c rows j row :
  rows !! j = Some row ->
  exists row', update_sequence stopId c rows !! j = Some row' /\
    same_stop row row' /\
    (stop_id row = stopId -> stop_sequence row' = c) /\
    (stop_id row <> stopId -> row' = row).
Proof.
  intros Hj. unfold update_sequence. rewrite list_lookup_fmap, Hj. simpl.
  eexists. split; [done|]. destruct (decide (stop_id row = stopId)); by split_and!.
Qed.

Section Resequence.
Variable stops : list RouteStop.
Hypothesis stop_id_unique : NoDup (stop_id <$> stops).
Hypothesis stop_orderId_unique : NoDup (stop_orderId <$> stops).

Lemma rows_of_refl : rows_of stops stops.
Proof. split; [done|]. intros j s row Hs Hr. by simplify_eq. Qed.

Lemma resequence_step_spec rows i orderId :
  rows_of stops rows ->
  rows_of stops (resequence_step stops rows i orderId) /\
  forall j s row, stops !! j = Some s -> rows !! j = Some row ->
    exists row', resequence_step stops rows i orderId !! j = Some row' /\
      (stop_orderId s = orderId -> stop_sequence row' = (i + 1)%nat) /\
      (stop_orderId s <> orderId -> row' = row).
Proof.
  intros [Hlen Hrows]. unfold resequence_step.
  destruct (list_find _ stops) as [[k found]|] eqn:Hfind.
  - apply list_find_Some in Hfind as (Hk & Hfound & _).
    split.
    + split; [unfold update_sequence; by rewrite length_fmap|].
      intros j s row' Hs Hr'.
      destruct (lookup_lt_is_Some_2 rows j) as [row Hr].
      { rewrite Hlen. by apply lookup_lt_Some in Hs. }
      destruct (update_sequence_lookup (stop_id found) (i + 1) rows j row Hr)
        as (row'' & Hr'' & (E1 & E2 & E3) & _).
      rewrite Hr' in Hr''. simplify_eq.
      destruct (Hrows j s row Hs Hr) as (F1 & F2 & F3).
      split_and!; congruence.
    + intros j s row Hs Hr.
      destruct (update_sequence_lookup (stop_id found) (i + 1) rows j row Hr)
        as (row' & Hr' & _ & Hset & Hkeep).
      destruct (Hrows j s row Hs Hr) as (F1 & _).
      exists row'. split; [done|]. split.
      * intros Ho. apply Hset. rewrite F1. f_equal.
        assert (j = k) as -> by (apply (NoDup_fmap_lookup stop_orderId stops j k s found);
                                 congruence).
        congruence.
      * intros Ho. apply Hkeep. rewrite F1. intros Hid.
        assert (j = k) as -> by (by apply (NoDup_fmap_lookup stop_id stops j k s found)).
        congruence.
  - split; [done|]. intros j s row Hs Hr. exists row. split; [done|]. split; [|done].
    intros Ho. rewrite list_find_None, Forall_forall in Hfind.
    destruct (Hfind s); [|done]. by apply list_elem_of_lookup_2 in Hs.
Qed.

Lemma resequence_from_spec sequence : forall i rows,
  NoDup sequence -> rows_of stops rows ->
  rows_of stops (resequence_from stops i sequence rows) /\
  forall j s row, stops !! j = Some s -> rows !! j = Some row ->
    exists row', resequence_from stops i sequence rows !! j = Some row' /\
      (forall p, sequence !! p = Some (stop_orderId s) ->
         stop_sequence row' = (i + p + 1)%nat) /\
      (stop_orderId s ∉ sequence -> row' = row).
Proof.
  induction sequence as [|o rest IH]; intros i rows Hnd Hrows; simpl.
  - split; [done|]. intros j s row Hs Hr. exists row. split; [done|]. by split.
  - apply NoDup_cons in Hnd as [Ho Hnd].
    destruct (resequence_step_spec rows i o Hrows) as [Hrows1 Hstep].
    destruct (IH (S i) _ Hnd Hrows1) as [Hrows' Hrest].
    split; [done|]. intros j s row Hs Hr.
    destruct (Hstep j s row Hs Hr) as (row1 & Hr1 & Hset & Hkeep).
    destruct (Hrest j s row1 Hs Hr1) as (row' & Hr' & Hset' & Hkeep').
    exists row'. split; [done|]. split.
    + intros [|p] Hp; simplify_eq/=.
      * rewrite (Hkeep' Ho), (Hset eq_refl). lia.
      * rewrite (Hset' p Hp). lia.
    + intros Hnotin. apply not_elem_of_cons in Hnotin as [Hne Hnotin].
      by rewrite (Hkeep' Hnotin), (Hkeep Hne).
Qed.

End Resequence.

(** ** Stops with and without coordinates *)

Lemma has_coordinates_same s row :
  same_stop s row -> has_coordinates s <-> has_coordinates row.
Proof. intros (_ & _ & E). unfold has_coordinates. by rewrite E. Qed.

Lemma filter_numbers (g : string -> nat) stops : forall rows,
  length rows = length stops ->
  (forall j s row, stops !! j = Some s -> rows !! j = Some row ->
     same_stop s row /\ (has_coordinates s -> stop_sequence row = g (stop_orderId s))) ->
  stop_sequence <$> filter has_coordinates rows =
  g <$> (stop_orderId <$> filter has_coordinates stops).
Proof.
  induction stops as [|s stops IH]; intros [|row rows] Hlen H; try done.
  injection Hlen as Hlen.
  destruct (H 0%nat s row eq_refl eq_refl) as [Hsame Hnum].
  pose proof (has_coordinates_same _ _ Hsame) as Hiff.
  specialize (IH rows Hlen (fun j => H (S j))).
  rewrite !filter_cons. destruct (decide (has_coordinates s)) as [Hs|Hs].
  - rewrite decide_True by tauto. rewrite !fmap_cons. by rewrite IH, Hnum.
  - by rewrite decide_False by tauto.
Qed.

Lemma id_location_of_stop (stops : list RouteStop) :
  id <$> (location_of_stop <$> stops) = stop_orderId <$> stops.
Proof. rewrite <- list_fmap_compose. by apply list_fmap_ext. Qed.

(** ** What the handler replies and stores *)

Section Handler.
Variables (Math_sin Math_cos : float -> float).
Variable Math_atan2 : float -> float -> float.
Local Abbreviation handler := (optimizeRoute Math_sin Math_cos Math_atan2).
Local Abbreviation optimize := (optimizeRouteNearestNeighbor Math_sin Math_cos Math_atan2).

(** The stops that the handler passes on. *)
Local Abbreviation located route := (filter has_coordinates (route_stops route)).

Lemma optimizeRoute_optimized fuel route d t m a stored :
  handler fuel (Some route) = Some (reply_optimized d t m a, stored) ->
  located route <> [] /\
  exists r, optimize fuel (location_of_stop <$> located route) = Some r /\
    d = totalDistance r /\ t = estimatedDuration r /\ m = length (sequence r) /\
    a = algorithm r /\
    stored = Some {| route_status := route_status route;
                     route_stops :=
                       resequence_from (route_stops route) 0 (sequence r) (route_stops route);
                     route_totalDistance := Some d;
                     route_estimatedDuration := Some t |}.
Proof.
  unfold optimizeRoute. intros H.
  destruct (decide (length (route_stops route) = 0%nat)); [done|].
  assert (forall X : option (Reply * option Route),
            (if decide (length (located route) = 0%nat)
             then Some (reply_error 400
                    "No stops have GPS coordinates. Please add coordinates to orders first.",
                    Some route)
             else X) = Some (reply_optimized d t m a, stored) ->
            located route <> [] /\ X = Some (reply_optimized d t m a, stored)) as Hguard.
  { intros X HX. destruct (decide (length (located route) = 0%nat)) as [|Hlen]; [done|].
    split; [|done]. intros Heq. apply Hlen. by rewrite Heq. }
  destruct (route_status route) eqn:Est; try done;
    apply Hguard in H as [Hne H]; (split; [done|]);
    destruct (optimize fuel _) as [r|]; simplify_eq/=;
    by exists r.
Qed.

Lemma optimizeRoute_rows fuel route d t m a stored :
  NoDup (stop_id <$> route_stops route) ->
  NoDup (stop_orderId <$> route_stops route) ->
  handler fuel (Some route) = Some (reply_optimized d t m a, stored) ->
  exists sq rows,
    stored = Some {| route_status := route_status route; route_stops := rows;
                     route_totalDistance := Some d; route_estimatedDuration := Some t |} /\
    a = "nearest_neighbor" /\
    m = length (located route) /\ (0 < m)%nat /\
    NoDup sq /\ sq ≡ₚ stop_orderId <$> located route /\
    head sq = stop_orderId <$> head (located route) /\
    length rows = length (route_stops route) /\
    forall j s row, route_stops route !! j = Some s -> rows !! j = Some row ->
      same_stop s row /\
      (has_coordinates s -> stop_sequence row = number_in sq (stop_orderId s)) /\
      (~ has_coordinates s -> row = s).
Proof.
  intros Hid Horder H.
  destruct (optimizeRoute_optimized _ _ _ _ _ _ _ H) as (Hne & r & Hr & -> & -> & -> & -> & ->).
  destruct (optimize_path _ _ _ _ _ _ Hr) as (path & Hperm & Hsq & Hhead & Halg).
  assert (sequence r ≡ₚ stop_orderId <$> located route) as Hp.
  { by rewrite Hsq, Hperm, id_location_of_stop. }
  assert (NoDup (stop_orderId <$> located route)) as Hnd'.
  { eapply sublist_NoDup; [exact Horder|]. apply fmap_sublist, sublist_filter. }
  assert (NoDup (sequence r)) as Hnd by (by rewrite Hp).
  destruct (resequence_from_spec (route_stops route) Hid Horder (sequence r) 0
              (route_stops route) Hnd (rows_of_refl _)) as [[Hlen Hsame] Hspec].
  exists (sequence r), (resequence_from (route_stops route) 0 (sequence r) (route_stops route)).
  split_and!; try done.
  - by rewrite Hp, length_fmap.
  - rewrite Hp, length_fmap. destruct (located route); [done|simpl; lia].
  - rewrite Hsq. transitivity (id <$> head path); [by destruct path|].
    rewrite Hhead. by destruct (located route).
  - intros j s row Hs Hrow.
    destruct (Hspec j s s Hs Hs) as (row' & Hr' & Hset & Hkeep).
    rewrite Hrow in Hr'. simplify_eq. split_and!.
    + by apply (Hsame j).
    + intros Hc. assert (stop_orderId s ∈ sequence r) as Hin.
      { rewrite Hp. apply list_elem_of_fmap_2, list_elem_of_filter. split; [done|].
        by apply list_elem_of_lookup_2 in Hs. }
      apply list_elem_of_lookup in Hin as [p Hp'].
      by rewrite (Hset p Hp'), (number_in_lookup _ _ _ Hnd Hp').
    + intros Hc. apply Hkeep. rewrite Hp.
      intros (s' & Heq & [Hc' Hin]%list_elem_of_filter)%list_elem_of_fmap.
      apply list_elem_of_lookup in Hin as [j' Hs'].
      assert (j = j') as -> by (by apply (NoDup_fmap_lookup stop_orderId (route_stops route) j j' s s')).
      congruence.
Qed.

(** X10. When the handler replies with an optimization, it has stored the
    two totals of the reply and renumbered the stops that have
    coordinates: they carry the numbers [1] to [m], each once, where [m]
    is their count and the [stopsOptimized] of the reply, and the first
    of them in the order read keeps the first place.  Every row keeps its
    key, its order and its place in the list, and a stop without
    coordinates is not written at all. *)
Theorem optimizeRoute_renumbers fuel route d t m a stored :
  NoDup (stop_id <$> route_stops route) ->
  NoDup (stop_orderId <$> route_stops route) ->
  handler fuel (Some route) = Some (reply_optimized d t m a, stored) ->
  exists rows,
    stored = Some {| route_status := route_status route; route_stops := rows;
                     route_totalDistance := Some d; route_estimatedDuration := Some t |} /\
    m = length (located route) /\
    Forall2 same_stop (route_stops route) rows /\
    stop_sequence <$> filter has_coordinates rows ≡ₚ seq 1 m /\
    head (stop_sequence <$> filter has_coordinates rows) = Some 1%nat /\
    forall j s, route_stops route !! j = Some s -> ~ has_coordinates s ->
      rows !! j = Some s.
Proof.
  intros Hid Horder H.
  destruct (optimizeRoute_rows _ _ _ _ _ _ _ Hid Horder H)
    as (sq & rows & -> & -> & -> & Hpos & Hnd & Hp & Hhead & Hlen & Hrows).
  exists rows.
  assert (stop_sequence <$> filter has_coordinates rows =
          number_in sq <$> (stop_orderId <$> located route)) as Hnum.
  { apply filter_numbers; [done|]. intros j s row Hs Hr.
    destruct (Hrows j s row Hs Hr) as (? & ? & _). by split. }
  split_and!; try done.
  - apply Forall2_same_length_lookup_2; [done|]. intros j s row Hs Hr.
    by destruct (Hrows j s row Hs Hr).
  - rewrite Hnum, <- Hp, (number_in_all _ Hnd). by rewrite Hp, length_fmap.
  - rewrite Hnum. clear H Hnum Hrows Hp.
    destruct (located route) as [|s0 rest]; [simpl in Hpos; lia|].
    destruct sq as [|o sq']; [done|]. injection Hhead as ->.
    rewrite !fmap_cons. cbn [head]. f_equal.
    apply (number_in_lookup _ 0 _ Hnd eq_refl).
  - intros j s Hs Hc. destruct (lookup_lt_is_Some_2 rows j) as [row Hr].
    { rewrite Hlen. by apply lookup_lt_Some in Hs. }
    destruct (Hrows j s row Hs Hr) as (_ & _ & Hkeep). by rewrite Hr, (Hkeep Hc).
Qed.

(** X11. The numbers of a route are not kept distinct: a stop without
    coordinates keeps its number, so when that number is at most the
    count [m] of the stops with coordinates, one of these carries the
    same number after the handler has replied. *)
Theorem optimizeRoute_sequence_collision fuel route d t m a stored j s :
  NoDup (stop_id <$> route_stops route) ->
  NoDup (stop_orderId <$> route_stops route) ->
  handler fuel (Some route) = Some (reply_optimized d t m a, stored) ->
  route_stops route !! j = Some s -> ~ has_coordinates s ->
  (1 <= stop_sequence s <= m)%nat ->
  exists route' j' row,
    stored = Some route' /\ route_stops route' !! j = Some s /\
    route_stops route' !! j' = Some row /\ j' <> j /\
    has_coordinates row /\ stop_sequence row = stop_sequence s.
Proof.
  intros Hid Horder H Hs Hc Hrange.
  destruct (optimizeRoute_rows _ _ _ _ _ _ _ Hid Horder H)
    as (sq & rows & -> & -> & -> & Hpos & Hnd & Hp & Hhead & Hlen & Hrows).
  assert (stop_sequence <$> filter has_coordinates rows =
          number_in sq <$> (stop_orderId <$> located route)) as Hnum.
  { apply filter_numbers; [done|]. intros i x row Hx Hr.
    destruct (Hrows i x row Hx Hr) as (? & ? & _). by split. }
  assert (stop_sequence <$> filter has_coordinates rows ≡ₚ seq 1 (length (located route)))
    as Hperm.
  { rewrite Hnum, <- Hp, (number_in_all _ Hnd). by rewrite Hp, length_fmap. }
  assert (stop_sequence s ∈ stop_sequence <$> filter has_coordinates rows) as Hin.
  { rewrite Hperm. apply elem_of_seq. lia. }
  apply list_elem_of_fmap in Hin as (row & Heq & [Hc' Hin]%list_elem_of_filter).
  apply list_elem_of_lookup in Hin as [j' Hj'].
  destruct (lookup_lt_is_Some_2 rows j) as [row0 Hr0].
  { rewrite Hlen. by apply lookup_lt_Some in Hs. }
  destruct (Hrows j s row0 Hs Hr0) as (_ & _ & Hkeep). rewrite (Hkeep Hc) in Hr0.
  eexists _, j', row. split_and!; try done. intros ->. congruence.
Qed.

Lemma located_nil route :
  located route = [] <-> Forall (fun s => ~ has_coordinates s) (route_stops route).
Proof.
  rewrite Forall_forall. split.
  - intros Hnil s Hin Hc.
    assert (s ∈ located route) as Hs by (by apply list_elem_of_filter).
    rewrite Hnil in Hs. by apply elem_of_nil in Hs.
  - intros Hall. destruct (located route) as [|s rest] eqn:E; [done|].
    assert (s ∈ located route) as [Hc Hin]%list_elem_of_filter by (rewrite E; left).
    by destruct (Hall s).
Qed.

Lemma optimizeRoute_passes fuel route :
  route_status route <> COMPLETED -> located route <> [] ->
  handler fuel (Some route) =
  r ← optimize fuel (location_of_stop <$> located route);
  Some (reply_optimized (totalDistance r) (estimatedDuration r)
          (length (sequence r)) (algorithm r),
        Some {| route_status := route_status route;
                route_stops :=
                  resequence_from (route_stops route) 0 (sequence r) (route_stops route);
                route_totalDistance := Some (totalDistance r);
                route_estimatedDuration := Some (estimatedDuration r) |}).
Proof.
  intros Hst Hloc. unfold optimizeRoute.
  assert (length (located route) <> 0%nat) as Hlen.
  { intros Hlen. by apply nil_length_inv in Hlen. }
  assert (length (route_stops route) <> 0%nat) as Hlen'.
  { intros Hlen'. apply nil_length_inv in Hlen'. apply Hloc. by rewrite Hlen'. }
  rewrite decide_False by done.
  destruct (route_status route); try done; by rewrite decide_False by done.
Qed.

Lemma optimizeRoute_guarded route :
  route_status route = COMPLETED \/ located route = [] ->
  exists error, forall fuel,
    handler fuel (Some route) = Some (reply_error 400 error, Some route).
Proof.
  intros Hguard. unfold optimizeRoute.
  destruct (decide (length (route_stops route) = 0%nat)); [by eexists|].
  destruct (RouteStatus_completed_dec (route_status route)) as [Hst|Hst];
    [rewrite Hst; by eexists|].
  destruct Hguard as [?|Hnil]; [done|]. rewrite Hnil. simpl.
  destruct (route_status route); by eexists.
Qed.

(** X12. A route that is found is turned down exactly when it is completed
    or none of its stops has coordinates (which a route without stops
    satisfies): the handler then replies with status 400 and stores
    nothing, whatever bound the loop of the optimizer is given. *)
Theorem optimizeRoute_rejects route :
  route_status route = COMPLETED \/
    Forall (fun s => ~ has_coordinates s) (route_stops route) <->
  exists error, forall fuel,
    handler fuel (Some route) = Some (reply_error 400 error, Some route).
Proof.
  rewrite <- located_nil. split; [apply optimizeRoute_guarded|].
  intros [error Herr].
  destruct (RouteStatus_completed_dec (route_status route)) as [|Hst]; [by left|]. right.
  destruct (located route) as [|s rest] eqn:E; [done|]. exfalso.
  specialize (Herr 0%nat). rewrite optimizeRoute_passes in Herr by (by rewrite ?E).
  by destruct (optimize 0 _).
Qed.

(** X13. The handler replies, and with the same reply and stored route for
    every bound of at least [m - 1] iterations, when the distances
    between the [m] stops that have coordinates are all below
    [Infinity]. *)
Theorem optimizeRoute_replies route :
  distances_below_infinity Math_sin Math_cos Math_atan2
    (location_of_stop <$> located route) ->
  exists reply stored, forall fuel,
    (length (located route) - 1 <= fuel)%nat ->
    handler fuel (Some route) = Some (reply, stored).
Proof.
  intros Hwf.
  destruct (RouteStatus_completed_dec (route_status route)) as [Hst|Hst].
  { destruct (optimizeRoute_guarded route (or_introl Hst)) as [error Herr].
    by eexists _, _. }
  destruct (located route) as [|s rest] eqn:E.
  { destruct (optimizeRoute_guarded route (or_intror E)) as [error Herr].
    by eexists _, _. }
  rewrite <- E in *.
  assert (located route <> []) as Hloc by (by rewrite E).
  destruct (optimize_returns _ _ _ _ Hwf) as [r Hr].
  eexists _, _. intros fuel Hfuel. rewrite (optimizeRoute_passes _ _ Hst Hloc).
  rewrite Hr by (by rewrite length_fmap). simpl. reflexivity.
Qed.

End Handler.

(* ================================================================== *)
(** * Instances of the further properties *)
(* ================================================================== *)

Lemma result_hops_are_nearest_witness :
  exists r,
    Run.optimize 4 square_round = Some r /\
    exists path,
      path ≡ₚ square_round /\ sequence r = id <$> path /\ nearest_next Run.dist path.
Proof.
  eexists. split; [vm_compute; reflexivity|].
  apply (result_hops_are_nearest RefMath.sin RefMath.cos RefMath.atan2 square_round 4%nat).
  vm_compute. reflexivity.
Defined.

Lemma reoptimizing_is_stable_witness :
  exists r,
    Run.optimize 4 square_round = Some r /\
    exists path,
      path ≡ₚ square_round /\ sequence r = id <$> path /\ Run.optimize 4 path = Some r.
Proof.
  eexists. split; [vm_compute; reflexivity|].
  apply (reoptimizing_is_stable RefMath.sin RefMath.cos RefMath.atan2 square_round 4%nat).
  vm_compute. reflexivity.
Defined.

Lemma route_distance_ignores_unlisted_witness :
  Run.route_distance [stop "a" 0 0; stop "b" 0 1; stop "c" 1 1] ["a"; "c"] =
  Run.route_distance [stop "a" 0 0; stop "c" 1 1] ["a"; "c"].
Proof.
  apply (route_distance_ignores_unlisted RefMath.sin RefMath.cos RefMath.atan2
           [stop "a" 0 0] (stop "b" 0 1) [stop "c" 1 1] ["a"; "c"]).
  apply (bool_decide_unpack _). vm_compute. exact I.
Defined.

Lemma route_distance_last_duplicate_wins_witness :
  Run.route_distance [stop "a" 5 5; stop "a" 0 0; stop "b" 0 1] ["a"; "b"] =
  Run.route_distance [stop "a" 0 0; stop "b" 0 1] ["a"; "b"].
Proof.
  apply (route_distance_last_duplicate_wins RefMath.sin RefMath.cos RefMath.atan2
           [] (stop "a" 5 5) [stop "a" 0 0; stop "b" 0 1] ["a"; "b"]).
  apply (bool_decide_unpack _). vm_compute. exact I.
Defined.

Lemma route_distance_without_known_hop_witness :
  Run.route_distance square_round ["a"; "z"; "b"] = 0.
Proof.
  apply (route_distance_without_known_hop RefMath.sin RefMath.cos RefMath.atan2
           square_round ["a"; "z"; "b"]).
  assert ("z" ∉ id <$> square_round) as Hz.
  { apply (bool_decide_unpack _). vm_compute. exact I. }
  intros [|[|[|i]]] a b Ha Hb; simplify_eq/=; auto.
Defined.

Lemma distance_matrix_symmetric_witness :
  matrix_get (Run.matrix_of square_round) 1 3 = matrix_get (Run.matrix_of square_round) 3 1.
Proof.
  exact (distance_matrix_symmetric RefMath.sin RefMath.cos RefMath.atan2
           RefMathFacts.sin_odd square_round 1%nat 3%nat).
Defined.

Lemma calculateDistance_same_point_witness : Run.distance 19.125 72.875 19.125 72.875 = 0.
Proof.
  apply (calculateDistance_same_point RefMath.sin RefMath.cos RefMath.atan2 19.125 72.875);
    vm_compute; reflexivity.
Defined.

Lemma optimizer_reads_ids_and_coordinates_witness :
  Run.optimize 4 square_round = Run.optimize 4 relabelled_round.
Proof.
  apply (optimizer_reads_ids_and_coordinates RefMath.sin RefMath.cos RefMath.atan2 4%nat
           square_round relabelled_round).
  repeat constructor.
Defined.

Lemma mixed_route_keys :
  NoDup (stop_id <$> route_stops mixed_route) /\
  NoDup (stop_orderId <$> route_stops mixed_route).
Proof. split; apply (bool_decide_unpack _); vm_compute; exact I. Qed.

Lemma optimizeRoute_renumbers_witness :
  exists d t m a stored,
    run_handler 5 (Some mixed_route) = Some (reply_optimized d t m a, stored) /\
    exists rows,
      stored = Some {| route_status := route_status mixed_route; route_stops := rows;
                       route_totalDistance := Some d; route_estimatedDuration := Some t |} /\
      m = length (filter has_coordinates (route_stops mixed_route)) /\
      Forall2 same_stop (route_stops mixed_route) rows /\
      stop_sequence <$> filter has_coordinates rows ≡ₚ seq 1 m /\
      head (stop_sequence <$> filter has_coordinates rows) = Some 1%nat /\
      forall j s, route_stops mixed_route !! j = Some s -> ~ has_coordinates s ->
        rows !! j = Some s.
Proof.
  do 5 eexists. split; [vm_compute; reflexivity|].
  apply (optimizeRoute_renumbers RefMath.sin RefMath.cos RefMath.atan2 5%nat mixed_route
           _ _ _ "nearest_neighbor");
    [apply mixed_route_keys|apply mixed_route_keys|vm_compute; reflexivity].
Defined.

Lemma optimizeRoute_sequence_collision_witness :
  exists d t m a stored,
    run_handler 5 (Some mixed_route) = Some (reply_optimized d t m a, stored) /\
    exists route' j' row,
      stored = Some route' /\
      route_stops route' !! 0%nat = Some (route_stop "s1" "o1" 1 None None) /\
      route_stops route' !! j' = Some row /\ j' <> 0%nat /\
      has_coordinates row /\ stop_sequence row = 1%nat.
Proof.
  do 5 eexists. split; [vm_compute; reflexivity|].
  eapply (optimizeRoute_sequence_collision RefMath.sin RefMath.cos RefMath.atan2 5%nat
            mixed_route);
    [apply mixed_route_keys|apply mixed_route_keys|vm_compute; reflexivity|reflexivity| |
     simpl; lia].
  intros [[x Hx] _]. discriminate Hx.
Defined.

Lemma optimizeRoute_rejects_witness :
  exists error, forall fuel,
    run_handler fuel (Some completed_route) = Some (reply_error 400 error, Some completed_route).
Proof.
  apply (proj1 (optimizeRoute_rejects RefMath.sin RefMath.cos RefMath.atan2 completed_route)).
  left. reflexivity.
Defined.

Lemma mixed_route_well_formed :
  Run.well_formed (location_of_stop <$> filter has_coordinates (route_stops mixed_route)).
Proof.
  intros i j li lj Hi Hj Hne.
  do 3 (destruct i as [|i]; [do 3 (destruct j as [|j]; [by simplify_eq/=|]); done|]).
  done.
Qed.

Lemma optimizeRoute_replies_witness :
  exists reply stored, forall fuel,
    (2 <= fuel)%nat -> run_handler fuel (Some mixed_route) = Some (reply, stored).
Proof.
  exact (optimizeRoute_replies RefMath.sin RefMath.cos RefMath.atan2 mixed_route
           mixed_route_well_formed).
Defined.
